(** * Agent reputation dashboard: the aggregation engine of [src/index.ts]

    A shallow embedding of the reputation reader ([fetchOnChainReputation],
    [fetchAllOnChainAgents]), the aggregator ([aggregateAgents]), the cache
    ([getAgents]) and the single-profile request of the server, followed by
    the properties the specification states about them. The last part
    covers the rest of the file: the request handler, [shortAddr] and the
    chart scripts of the two pages, with further properties of the engine.

    Conventions of the embedding.
    - A JavaScript [number] is an IEEE 754 binary64 value: Rocq's primitive
      [float], whose operations are the ones the engine executes.
    - The three counters the code only ever increments by one
      ([bountiesClaimed], [bountiesCompleted], the tag counts) are [nat];
      where the code divides two of them, [count_number] gives the double
      that the same number of [++] steps produces.
    - Strings are sequences of 8-bit characters and [toLowerCase] folds the
      ASCII letters, which is all an address contains.
    - A [Map] is an association list in insertion order, its keys unique
      (the properties below hold of every list); an object reached through
      [Map.get] and mutated is updated in place.
    - A promise is its settlement ([settled]); a [try]/[catch] is a match on
      a [completion]. Tasks that run concurrently and write to a shared map
      are ordered by the instant at which each one completes.
    - [tags] is a plain object: a [Map] of its own properties, read through
      the names every object inherits.
    - The JSON of the bounty endpoint is an array of bounties of the
      declared type, on which [aggregateAgents] is the typed function, or
      any other value: not an array, or an array with [null] or with
      objects whose [claimedBy], [tags] or amount have another type, on
      which the engine throws where the code calls a method, iterates or
      converts. *)

From Stdlib Require Import ZArith List String Ascii Bool Lia Floats.
From Stdlib Require Uint63.
From Stdlib Require Import Permutation Sorted.
Import ListNotations.

Open Scope string_scope.
Open Scope list_scope.

(** ** The host language *)

Module JS.

(** [String.prototype.toLowerCase] on ASCII text. *)
Definition lower_ascii (c : ascii) : ascii :=
  let n := nat_of_ascii c in
  if (65 <=? n)%nat && (n <=? 90)%nat then ascii_of_nat (n + 32) else c.

Fixpoint toLowerCase (s : string) : string :=
  match s with
  | EmptyString => EmptyString
  | String c s' => String (lower_ascii c) (toLowerCase s')
  end.

(** Truthiness: the empty string, [undefined], [0], [-0] and [NaN] are falsy. *)
Definition truthy_string (s : string) : bool := negb (s =? EmptyString).

Definition truthy_number (x : float) : bool := negb (PrimFloat.is_zero x || PrimFloat.is_nan x).

(** [x || y] for an optional string [x]: [x] when it is truthy. *)
Definition or_else {A : Type} (x : option string) (f : string -> A) (y : A) : A :=
  match x with
  | Some s => if truthy_string s then f s else y
  | None => y
  end.

(** [x || 0] for a number. *)
Definition or_zero (x : float) : float := if truthy_number x then x else 0%float.

(** [Number(v)] for an integer [v] (a [bigint], or a number decoded from
    a small integer type): the nearest double, ties to even. *)
Definition Number_of_bigint (v : Z) : float :=
  SF2Prim (binary_normalize prec emax v 0%Z false).

(** A fragment of [Number(s)] on strings: the empty string is [0], a run
    of decimal digits is the integer it denotes, and text with any other
    character is mapped to NaN (which is what ECMAScript does when the
    text is not a numeric literal, as for "abc"). It instantiates the
    [Number] of the aggregation in the examples. *)
Fixpoint decimal_digits (s : string) (acc : Z) : option Z :=
  match s with
  | EmptyString => Some acc
  | String c s' =>
      let n := nat_of_ascii c in
      if (48 <=? n)%nat && (n <=? 57)%nat
      then decimal_digits s' (10 * acc + Z.of_nat (n - 48))
      else None
  end.

Definition Number_decimal (s : string) : float :=
  match decimal_digits s 0 with
  | Some v => Number_of_bigint v
  | None => nan
  end.

(** The double held by a counter after [n] executions of [++] from [0]. *)
Definition count_number (n : nat) : float :=
  Nat.iter n (fun x => (x + 1)%float) 0%float.

(** [Math.round]: the nearest integer, a tie going towards +infinity;
    [-0] for an argument in [[-0.5, -0]]; NaN and the infinities unchanged.
    A finite double is [(-1)^s * m * 2^e] exactly, so the rounding is done
    on integers. *)
Definition Math_round (x : float) : float :=
  match Prim2SF x with
  | S754_finite s m e =>
      if (0 <=? e)%Z then x
      else
        let n := ((2 * cond_Zopp s (Zpos m) + 2 ^ (- e)) / 2 ^ (1 - e))%Z in
        if (n =? 0)%Z then (if s then neg_zero else zero)
        else if (0 <? n)%Z then of_uint63 (Uint63.of_Z n)
             else (- of_uint63 (Uint63.of_Z (- n)))%float
  | _ => x
  end.

(** [a.slice(-k)]: the last [k] elements. *)
Definition slice_last {A : Type} (k : nat) (a : list A) : list A :=
  skipn (List.length a - k) a.

(** A [Map] with string keys, in insertion order. *)
Definition Map (V : Type) : Type := list (string * V).

Fixpoint Map_get {V : Type} (m : Map V) (k : string) : option V :=
  match m with
  | [] => None
  | (k', v) :: m' => if k' =? k then Some v else Map_get m' k
  end.

Definition Map_has {V : Type} (m : Map V) (k : string) : bool :=
  match Map_get m k with Some _ => true | None => false end.

(** [m.set(k, v)]: an existing key keeps its position. *)
Fixpoint Map_set {V : Type} (m : Map V) (k : string) (v : V) : Map V :=
  match m with
  | [] => [(k, v)]
  | (k', v') :: m' => if k' =? k then (k', v) :: m' else (k', v') :: Map_set m' k v
  end.

(** Mutation of the object stored under [k] (the value [m.get(k)] aliases). *)
Fixpoint Map_mutate {V : Type} (m : Map V) (k : string) (f : V -> V) : Map V :=
  match m with
  | [] => []
  | (k', v) :: m' => if k' =? k then (k', f v) :: m' else (k', v) :: Map_mutate m' k f
  end.

Definition Map_keys {V : Type} (m : Map V) : list string := map fst m.
Definition Map_values {V : Type} (m : Map V) : list V := map snd m.

(** [Array.prototype.sort(cmp)]: a stable sort; [y] is moved in front of
    [x] only when [cmp x y > 0] (a NaN from [cmp] counts as [0]). For a
    comparator that is a consistent ordering every stable sort returns
    this list. *)
Fixpoint sort_insert {A : Type} (cmp : A -> A -> float) (x : A) (l : list A) : list A :=
  match l with
  | [] => [x]
  | y :: l' => if (0 <? cmp x y)%float then y :: sort_insert cmp x l' else x :: l
  end.

Definition sort {A : Type} (cmp : A -> A -> float) (l : list A) : list A :=
  fold_right (sort_insert cmp) [] l.

(** The settlement of a promise, as [Promise.allSettled] reports it. *)
Inductive settled (A : Type) : Type :=
| Fulfilled (v : A)
| Rejected.
Arguments Fulfilled {A} v.
Arguments Rejected {A}.

(** The completion of a block: a value, or an exception in flight. *)
Inductive completion (A : Type) : Type :=
| Normal (v : A)
| Throw.
Arguments Normal {A} v.
Arguments Throw {A}.

Definition bind {A B : Type} (c : completion A) (k : A -> completion B) : completion B :=
  match c with
  | Normal v => k v
  | Throw => Throw
  end.

(** [try { c } catch { h }] *)
Definition try_catch {A : Type} (c : completion A) (h : A) : A :=
  match c with
  | Normal v => v
  | Throw => h
  end.

(** [a.filter(f)] and [a.map(f)] for a callback that may throw: the
    elements are visited in order and the first exception ends the call. *)
Fixpoint Array_filter {A : Type} (f : A -> completion bool) (a : list A)
  : completion (list A) :=
  match a with
  | [] => Normal []
  | x :: rest =>
      bind (f x) (fun keep =>
      bind (Array_filter f rest) (fun kept =>
      Normal (if keep then x :: kept else kept)))
  end.

Fixpoint Array_map {A B : Type} (f : A -> completion B) (a : list A)
  : completion (list B) :=
  match a with
  | [] => Normal []
  | x :: rest =>
      bind (f x) (fun y =>
      bind (Array_map f rest) (fun ys =>
      Normal (y :: ys)))
  end.

(** [x] is an element of [l]. *)
Definition mem (x : string) (l : list string) : bool := existsb (String.eqb x) l.

(** The names every object inherits from [Object.prototype]: eleven
    methods and the accessor [__proto__]. *)
Definition Object_prototype : list string :=
  ["constructor"; "hasOwnProperty"; "isPrototypeOf"; "propertyIsEnumerable";
   "toLocaleString"; "toString"; "valueOf"; "__proto__";
   "__defineGetter__"; "__defineSetter__"; "__lookupGetter__"; "__lookupSetter__"].

End JS.

Import JS.

Notation "x <- c1 ;; c2" := (bind c1 (fun x => c2))
  (at level 61, c1 at next level, right associativity).

(** ** Types of [src/index.ts] *)

Record Payment : Type := {
  grossAmount : option string;
  grossReward : option string
}.

(** An optional field of the JSON object is an [option]; the fields the
    engine never reads ([description], [reward], [rewardFormatted],
    [completedAt]) are left out. *)
Record Bounty : Type := {
  id : string;
  title : option string;
  status : string;
  tags : option (list string);
  claimedBy : option string;
  createdAt : option string;
  payment : option Payment
}.

Record Feedback : Type := {
  from : string;
  score : float;
  comment : string;
  timestamp : float
}.

Record OnChainReputation : Type := {
  oc_address : string;
  reputationScore : float;
  feedback : list Feedback
}.

Record HistoryEntry : Type := {
  bountyId : string;
  h_title : string;
  reward : float;
  h_status : string;
  date : string
}.

(** The value of an own property of [tags], a plain object: the count of
    a tag, or, under the name of an inherited method, the text of that
    method followed by [ones] characters "1" (a function to which 1 is
    added becomes its source text followed by "1"). The order of the
    properties is not modelled: [tags] is only read by name. *)
Inductive TagValue : Type :=
| Count (n : nat)
| MethodText (method : string) (ones : nat).

Record AgentProfile : Type := {
  address : string;
  onChainReputation : float;
  totalEarnings : float;
  bountiesCompleted : nat;
  bountiesClaimed : nat;
  successRate : float;
  p_tags : Map TagValue;
  recentFeedback : list Feedback;
  history : list HistoryEntry
}.

(** ** The registry contract, as the reads of one refresh see it *)

(** One decoded element of [getFeedback]'s tuple array, typed by the ABI:
    [from] an address, [score] an [int8], [timestamp] a [uint256]. *)
Record FeedbackTuple : Type := {
  t_from : string;
  t_score : Z;
  t_comment : string;
  t_timestamp : Z
}.

(** The value a fulfilled [getFeedback] read carries: an array, whose
    elements are tuples or nullish ([None]), or something that
    [Array.isArray] rejects. *)
Inductive FeedbackValue : Type :=
| FeedbackArray (elems : list (option FeedbackTuple))
| FeedbackOther.

Record Registry : Type := {
  getReputation : string -> settled Z;
  getFeedback : string -> settled FeedbackValue;
  getAgentCount : settled Z;
  getAgentByIndex : Z -> settled string
}.

(** ** ERC-8004 contract reads *)

(** The object literal pushed for one element [f]; reading a property of a
    nullish [f] throws a TypeError. On a tuple the coercions
    [String(f.from || ...)], [Number(f.score || 0)], ... keep the value. *)
Definition feedbackEntry (f : option FeedbackTuple) : completion Feedback :=
  match f with
  | Some t =>
      Normal {| from := t_from t;
                score := Number_of_bigint (t_score t);
                comment := t_comment t;
                timestamp := Number_of_bigint (t_timestamp t) |}
  | None => Throw
  end.

Fixpoint feedbackEntries (elems : list (option FeedbackTuple)) : completion (list Feedback) :=
  match elems with
  | [] => Normal []
  | f :: rest =>
      e <- feedbackEntry f ;;
      es <- feedbackEntries rest ;;
      Normal (e :: es)
  end.

(** The [try] block of [fetchOnChainReputation]. *)
Definition fetchOnChainReputation_try (reg : Registry) (address : string)
  : completion OnChainReputation :=
  let reputation := getReputation reg address in
  let feedback := getFeedback reg address in
  let repScore :=
    match reputation with
    | Fulfilled value => Number_of_bigint value
    | Rejected => 0%float
    end in
  entries <- match feedback with
             | Fulfilled (FeedbackArray elems) => feedbackEntries elems
             | _ => Normal []
             end ;;
  Normal {| oc_address := address; reputationScore := repScore; feedback := entries |}.

Definition fetchOnChainReputation (reg : Registry) (address : string)
  : completion OnChainReputation :=
  Normal (try_catch (fetchOnChainReputation_try reg address)
            {| oc_address := address; reputationScore := 0%float; feedback := [] |}).

(** The order in which concurrent tasks complete: task number [i] (in
    launch order) completes at instant [latency i]; tasks that complete at
    the same instant keep their launch order. *)
Fixpoint place {A : Type} (latency : nat -> nat) (t : nat * A) (l : list (nat * A))
  : list (nat * A) :=
  match l with
  | [] => [t]
  | u :: l' =>
      if (latency (fst u) <? latency (fst t))%nat then u :: place latency t l' else t :: l
  end.

Definition completion_order {A : Type} (latency : nat -> nat) (tasks : list A) : list A :=
  map snd (fold_right (place latency) [] (combine (seq 0 (List.length tasks)) tasks)).

(** The body of the task launched for index [i]. *)
Definition enumerateTask (reg : Registry) (i : nat)
  (reputationMap : Map OnChainReputation) : Map OnChainReputation :=
  try_catch
    (match getAgentByIndex reg (Z.of_nat i) with
     | Fulfilled agentAddr =>
         rep <- fetchOnChainReputation reg agentAddr ;;
         Normal (Map_set reputationMap (toLowerCase agentAddr) rep)
     | Rejected => Throw
     end)
    reputationMap.

(** [count] is the integer read from the contract: [Number(countResult)]
    is positive exactly when it is, and [Math.min(count, 50)] bounds the
    loop by the same integer. *)
Definition fetchAllOnChainAgents (reg : Registry) (latency : nat -> nat)
  : Map OnChainReputation :=
  let countResult :=
    match getAgentCount reg with
    | Fulfilled value => value
    | Rejected => 0%Z
    end in
  let count := countResult in
  if (0 <? count)%Z then
    let batchSize := Z.min count 50 in
    fold_left (fun reputationMap i => enumerateTask reg i reputationMap)
      (completion_order latency (seq 0 (Z.to_nat batchSize))) []
  else [].

(** ** Bounty API aggregation *)

Section Aggregation.

(** [Number(s)] for a string [s] (ECMAScript's StringToNumber). *)
Variable Number : string -> float.

(** [Number(b.payment.grossAmount || b.payment.grossReward || 0) / 1e6] *)
Definition paymentAmount (p : Payment) : float :=
  (or_else (grossAmount p) Number (or_else (grossReward p) Number 0) / 1e6)%float.

Definition rewardOf (b : Bounty) : float :=
  if status b =? "completed" then
    match payment b with
    | Some p => paymentAmount p
    | None => 0%float
    end
  else 0%float.

(** The profile created for a claimant seen for the first time. *)
Definition claimantProfile (addr : string) (onChain : option OnChainReputation)
  : AgentProfile :=
  {| address := addr;
     onChainReputation :=
       match onChain with
       | Some oc => or_zero (reputationScore oc)
       | None => 0%float
       end;
     totalEarnings := 0%float;
     bountiesCompleted := 0;
     bountiesClaimed := 0;
     successRate := 0%float;
     p_tags := [];
     recentFeedback :=
       match onChain with
       | Some oc => slice_last 10 (feedback oc)
       | None => []
       end;
     history := [] |}.

(** The profile created for an on-chain agent without bounty activity. *)
Definition onChainProfile (onChain : OnChainReputation) : AgentProfile :=
  {| address := oc_address onChain;
     onChainReputation := reputationScore onChain;
     totalEarnings := 0%float;
     bountiesCompleted := 0;
     bountiesClaimed := 0;
     successRate := 0%float;
     p_tags := [];
     recentFeedback := slice_last 10 (feedback onChain);
     history := [] |}.

(** [agent.tags[tag] = (agent.tags[tag] || 0) + 1] on the object [tags],
    given by its own properties. An own count is incremented and an own
    text gets one more "1". A name that is not an own property reads as
    [undefined], and the count 1 is stored, unless every object inherits
    it: an inherited method is truthy, and its text followed by "1" is
    stored as an own property; [__proto__] reads as the prototype, and
    assigning a text to it does nothing. *)
Definition countTag (tags : Map TagValue) (tag : string) : Map TagValue :=
  match Map_get tags tag with
  | Some (Count n) => Map_set tags tag (Count (n + 1))
  | Some (MethodText method ones) => Map_set tags tag (MethodText method (ones + 1))
  | None =>
      if mem tag Object_prototype
      then (if tag =? "__proto__" then tags else Map_set tags tag (MethodText tag 1))
      else Map_set tags tag (Count 1)
  end.

(** What one bounty does to the profile of its claimant. *)
Definition recordBounty (b : Bounty) (agent : AgentProfile) : AgentProfile :=
  let reward := rewardOf b in
  let completed := status b =? "completed" in
  {| address := address agent;
     onChainReputation := onChainReputation agent;
     totalEarnings :=
       if completed then (totalEarnings agent + reward)%float else totalEarnings agent;
     bountiesCompleted :=
       if completed then bountiesCompleted agent + 1 else bountiesCompleted agent;
     bountiesClaimed := bountiesClaimed agent + 1;
     successRate := successRate agent;
     p_tags :=
       fold_left countTag (match tags b with Some ts => ts | None => [] end)
         (p_tags agent);
     recentFeedback := recentFeedback agent;
     history :=
       history agent ++
       [{| bountyId := id b;
           h_title := or_else (title b) (fun t => t) "Untitled";
           reward := reward;
           h_status := status b;
           date := or_else (createdAt b) (fun d => d) EmptyString |}] |}.

(** One iteration of [for (const b of bounties)]. *)
Definition bountyStep (onChainData : Map OnChainReputation)
  (agents : Map AgentProfile) (b : Bounty) : Map AgentProfile :=
  or_else (claimedBy b)
    (fun addr =>
       let addrLower := toLowerCase addr in
       let agents' :=
         if Map_has agents addrLower then agents
         else Map_set agents addrLower
                (claimantProfile addr (Map_get onChainData addrLower)) in
       Map_mutate agents' addrLower (recordBounty b))
    agents.

(** One iteration of [for (const [addrLower, onChain] of onChainData)]. *)
Definition onChainStep (agents : Map AgentProfile)
  (entry : string * OnChainReputation) : Map AgentProfile :=
  let '(addrLower, onChain) := entry in
  if Map_has agents addrLower then agents
  else Map_set agents addrLower (onChainProfile onChain).

Definition rateOf (agent : AgentProfile) : float :=
  if (0 <? bountiesClaimed agent)%nat then
    Math_round
      ((count_number (bountiesCompleted agent) / count_number (bountiesClaimed agent))
       * 100)%float
  else 0%float.

Definition withRate (agent : AgentProfile) : AgentProfile :=
  {| address := address agent;
     onChainReputation := onChainReputation agent;
     totalEarnings := totalEarnings agent;
     bountiesCompleted := bountiesCompleted agent;
     bountiesClaimed := bountiesClaimed agent;
     successRate := rateOf agent;
     p_tags := p_tags agent;
     recentFeedback := recentFeedback agent;
     history := history agent |}.

(** The comparator of the final [sort]. *)
Definition byReputationThenEarnings (a b : AgentProfile) : float :=
  let d := (onChainReputation b - onChainReputation a)%float in
  if truthy_number d then d else (totalEarnings b - totalEarnings a)%float.

(** The map [agents] when the three loops are over. *)
Definition agentsMap (bounties : list Bounty) (onChainData : Map OnChainReputation)
  : Map AgentProfile :=
  let agents1 := fold_left (bountyStep onChainData) bounties [] in
  let agents2 := fold_left onChainStep onChainData agents1 in
  map (fun kv => (fst kv, withRate (snd kv))) agents2.

Definition aggregateAgents (bounties : list Bounty)
  (onChainData : Map OnChainReputation) : list AgentProfile :=
  sort byReputationThenEarnings (Map_values (agentsMap bounties onChainData)).

(** ** Cache *)

Record Cache : Type := {
  cachedAgents : option (list AgentProfile);
  cacheTime : Z
}.

Definition initialCache : Cache := {| cachedAgents := None; cacheTime := 0 |}.

Definition CACHE_TTL : Z := 60000.

(** An element of an array whose elements need not have the declared
    type, by what the engine does with it: a bounty of the declared type;
    [null]; an object like [b] whose [claimedBy] is a truthy value that is
    not a string (123, an object), whatever its other fields; an object
    like [b] whose [tags] is a truthy value that cannot be iterated (5, an
    object) or an array with an element that cannot be converted to a
    property name, whatever its payment; an object like [b] with a payment
    whose amount, the operand of [Number], cannot be converted to a number.
    (The conversions fail on an object whose own [toString] and [valueOf]
    are not functions.) A [claimedBy] or [tags] that is falsy reads like an
    absent one, and [tags] that is a string is iterated like the array of
    its characters. The fields the engine only copies or compares are
    strings, as declared. An element that is a number, a string or an array
    has none of the properties the engine reads, like a bounty without a
    title. *)
Inductive Element : Type :=
| Typed (b : Bounty)
| Null
| ClaimedByNotString (b : Bounty)
| TagsUnreadable (b : Bounty)
| AmountUnreadable (b : Bounty).

(** What [r.json()] yields for the body of the bounty endpoint: an array
    of bounties of the declared type, a value that is not an array, or an
    array of any elements. *)
Inductive BountyJson : Type :=
| JsonArray (items : list Bounty)
| JsonOther
| JsonElements (elements : list Element).

(** Everything outside the process during one call of [getAgents]. *)
Record World : Type := {
  registry : Registry;
  bountyApi : settled BountyJson;
  enumerationLatency : nat -> nat;
  backfillLatency : nat -> nat
}.

(** The calls [getAgents] issues, in program order. *)
Inductive Effect : Type :=
| FetchBounties
| EnumerateAgents
| BackfillReputation (addr : string)
| Aggregate.

(** The callback [(b) => b.title]: reading a property of [null] throws a
    TypeError. *)
Definition hasTitle (e : Element) : completion bool :=
  match e with
  | Typed b | ClaimedByNotString b | TagsUnreadable b | AmountUnreadable b =>
      Normal (or_else (title b) (fun _ => true) false)
  | Null => Throw
  end.

(** [bountiesRes.value.filter((b) => b.title)]: [filter] is not a
    function on a value that is not an array. *)
Definition filterTitled (json : BountyJson) : completion (list Element) :=
  match json with
  | JsonArray items => Array_filter hasTitle (map Typed items)
  | JsonOther => Throw
  | JsonElements elements => Array_filter hasTitle elements
  end.

(** [new Set(...)]: the first occurrence of each element, in order. *)
Fixpoint Set_of (l : list string) : list string :=
  match l with
  | [] => []
  | x :: l' => x :: filter (fun y => negb (y =? x)) (Set_of l')
  end.

Definition uniqueAddresses (bounties : list Bounty) : list string :=
  Set_of
    (flat_map
       (fun b => or_else (claimedBy b) (fun a => [toLowerCase a]) [])
       bounties).

(** The callbacks [(b) => b.claimedBy] and [(b) => b.claimedBy.toLowerCase()]
    on the elements of the array: a value that is not a string has no
    method [toLowerCase], and calling it throws a TypeError. *)
Definition hasClaimedBy (e : Element) : completion bool :=
  match e with
  | Typed b | TagsUnreadable b | AmountUnreadable b =>
      Normal (or_else (claimedBy b) (fun _ => true) false)
  | ClaimedByNotString _ => Normal true
  | Null => Throw
  end.

Definition claimedByLowerCase (e : Element) : completion string :=
  match e with
  | Typed b | TagsUnreadable b | AmountUnreadable b =>
      match claimedBy b with
      | Some a => Normal (toLowerCase a)
      | None => Throw
      end
  | ClaimedByNotString _ => Throw
  | Null => Throw
  end.

(** [new Set(bounties.filter(...).map(...))] on the array as it is. *)
Definition uniqueAddressesOf (bounties : list Element) : completion (list string) :=
  claimed <- Array_filter hasClaimedBy bounties ;;
  addresses <- Array_map claimedByLowerCase claimed ;;
  Normal (Set_of addresses).

(** An element as the first loop of [aggregateAgents] reads it. The loop
    leaves an element without [claimedBy] before it reads anything else, and
    calls [toLowerCase] on [claimedBy] otherwise; it converts the amount
    with [Number] when the status is "completed" and there is a payment; it
    iterates [b.tags || []] and uses each tag as a property name. Each of
    these throws a TypeError on a value it cannot read. *)
Definition asBounty (e : Element) : completion Bounty :=
  match e with
  | Typed b => Normal b
  | TagsUnreadable b =>
      if or_else (claimedBy b) (fun _ => true) false then Throw else Normal b
  | AmountUnreadable b =>
      if or_else (claimedBy b) (fun _ => true) false && (status b =? "completed")
      then Throw else Normal b
  | ClaimedByNotString _ => Throw
  | Null => Throw
  end.

(** The [then] callback of one backfill read. *)
Definition backfillTask (reg : Registry) (addr : string)
  (onChain : Map OnChainReputation) : Map OnChainReputation :=
  try_catch
    (rep <- fetchOnChainReputation reg addr ;;
     Normal
       (if (0 <? reputationScore rep)%float || (0 <? List.length (feedback rep))%nat
        then Map_set onChain addr rep
        else onChain))
    onChain.

(** The guard [cachedAgents && Date.now() - cacheTime < CACHE_TTL], when
    [Date.now()] reads [now]. An array, even empty, is truthy. *)
Definition cacheHit (cache : Cache) (now : Z) : option (list AgentProfile) :=
  match cachedAgents cache with
  | Some agents => if (now - cacheTime cache <? CACHE_TTL)%Z then Some agents else None
  | None => None
  end.

(** The rest of [getAgents]; [Date.now()] reads [later] when it stores
    the result. *)
(** [aggregateAgents] on the array it is given at run time: an exception
    in the first loop drops the map under construction; on elements the
    loop can read, the function runs as on bounties of the declared type. *)
Definition aggregateElements (bounties : list Element)
  (onChainData : Map OnChainReputation) : completion (list AgentProfile) :=
  typed <- Array_map asBounty bounties ;;
  Normal (aggregateAgents typed onChainData).

Definition refresh (cache : Cache) (w : World) (later : Z)
  : completion (list AgentProfile) * Cache * list Effect :=
  let bountiesRes := bountyApi w in
  let onChainData := fetchAllOnChainAgents (registry w) (enumerationLatency w) in
  match
    bounties <- match bountiesRes with
                | Fulfilled value => filterTitled value
                | Rejected => Normal []
                end ;;
    uniqueAddresses <- uniqueAddressesOf bounties ;;
    Normal (bounties, uniqueAddresses)
  with
  | Throw => (Throw, cache, [FetchBounties; EnumerateAgents])
  | Normal (bounties, uniqueAddresses) =>
      let missing :=
        filter (fun addr => negb (Map_has onChainData addr)) uniqueAddresses in
      let onChain :=
        fold_left (fun m addr => backfillTask (registry w) addr m)
          (completion_order (backfillLatency w) missing) onChainData in
      let effects :=
        [FetchBounties; EnumerateAgents]
          ++ map BackfillReputation missing ++ [Aggregate] in
      match aggregateElements bounties onChain with
      | Throw => (Throw, cache, effects)
      | Normal agents =>
          (Normal agents, {| cachedAgents := Some agents; cacheTime := later |}, effects)
      end
  end.

Definition getAgents (cache : Cache) (w : World) (now later : Z)
  : completion (list AgentProfile) * Cache * list Effect :=
  match cacheHit cache now with
  | Some agents => (Normal agents, cache, [])
  | None => refresh cache w later
  end.

(** ** Server: [/api/agent/:address] *)

Inductive Body : Type :=
| AgentBody (agent : AgentProfile)
| ErrorBody (error : string).

Record Response : Type := {
  body : Body;
  http_status : Z
}.

Definition apiAgent (cache : Cache) (w : World) (now later : Z) (addr : string)
  : Response * Cache * list Effect :=
  let '(r, cache', effects) := getAgents cache w now later in
  (try_catch
     (agents <- r ;;
      Normal
        match find (fun a => toLowerCase (address a) =? toLowerCase addr) agents with
        | Some agent => {| body := AgentBody agent; http_status := 200 |}
        | None => {| body := ErrorBody "Agent not found"; http_status := 404 |}
        end)
     {| body := ErrorBody "API error"; http_status := 502 |},
   cache', effects).

End Aggregation.

(** ** Notions the statements use *)

(** The key under which a bounty is recorded: the lower-cased claimant. *)
Definition claimantKey (b : Bounty) : option string :=
  or_else (claimedBy b) (fun a => Some (toLowerCase a)) None.

(** The bounties recorded under key [k], in list order. *)
Definition claimsOf (k : string) (bounties : list Bounty) : list Bounty :=
  filter (fun b => match claimantKey b with Some k' => k' =? k | None => false end) bounties.

Definition isCompleted (b : Bounty) : bool := status b =? "completed".

(** [x] is a non-empty [claimedBy] of some bounty. *)
Definition claimant (bounties : list Bounty) (x : string) : Prop :=
  x <> EmptyString /\ exists b, In b bounties /\ claimedBy b = Some x.

(** The addresses an aggregation is about. *)
Definition known (bounties : list Bounty) (onChainData : Map OnChainReputation)
  (x : string) : Prop :=
  claimant bounties x \/ In x (Map_keys onChainData).

(** How many profiles carry address [x], compared case-insensitively. *)
Definition occurrences (x : string) (profiles : list AgentProfile) : nat :=
  List.length (filter (fun p => toLowerCase (address p) =? toLowerCase x) profiles).

(** An on-chain map as both of its producers build it: each entry is
    stored under the lower-cased address it carries. *)
Definition keyedByLowerCase (onChainData : Map OnChainReputation) : Prop :=
  forall k v, In (k, v) onChainData -> k = toLowerCase (oc_address v).

(** The profile after the bounties [l] have been recorded on it. *)
Definition recordAll (Number : string -> float) (l : list Bounty) (p0 : AgentProfile)
  : AgentProfile :=
  fold_left (fun agent b => recordBounty Number b agent) l p0.

(** The profile the three loops leave under key [k]. *)
Definition profileAt (Number : string -> float) (bounties : list Bounty)
  (onChainData : Map OnChainReputation) (k : string) : option AgentProfile :=
  match claimsOf k bounties with
  | b0 :: _ =>
      Some (withRate
              (recordAll Number (claimsOf k bounties)
                 (claimantProfile
                    (match claimedBy b0 with Some a => a | None => EmptyString end)
                    (Map_get onChainData k))))
  | [] => option_map (fun oc => withRate (onChainProfile oc)) (Map_get onChainData k)
  end.

(** [o] when it is a non-empty string. *)
Definition nonEmpty (o : option string) : option string :=
  match o with
  | Some s => if s =? EmptyString then None else Some s
  | None => None
  end.

(** The amount of a bounty: [payment.grossAmount] when it is present and
    not empty, otherwise [payment.grossReward] when it is present and not
    empty, else 0; divided by 1,000,000. *)
Definition amountOf (Number : string -> float) (b : Bounty) : float :=
  (match payment b with
   | Some pay =>
       match nonEmpty (grossAmount pay) with
       | Some s => Number s
       | None =>
           match nonEmpty (grossReward pay) with
           | Some s => Number s
           | None => 0
           end
       end
   | None => 0
   end / 1000000)%float.

(** The amount with an absent field read as a field that is not present:
    [payment.grossAmount] when present, even empty, otherwise
    [payment.grossReward] when present, else 0; divided by 1,000,000. *)
Definition amountOfPresent (Number : string -> float) (b : Bounty) : float :=
  (match payment b with
   | Some pay =>
       match grossAmount pay with
       | Some s => Number s
       | None =>
           match grossReward pay with
           | Some s => Number s
           | None => 0
           end
       end
   | None => 0
   end / 1000000)%float.

(** The sum of the amounts of [l], added in list order. *)
Definition earnings (amount : Bounty -> float) (l : list Bounty) : float :=
  fold_left (fun e b => (e + amount b)%float) l 0%float.

(** The test of [filter((b) => b.title)] on a bounty. *)
Definition isTitled (b : Bounty) : bool := or_else (title b) (fun _ => true) false.

(** The test of [if (!b.claimedBy) continue]. *)
Definition isClaimed (b : Bounty) : bool := or_else (claimedBy b) (fun _ => true) false.



(** ** Example inputs *)

(** The bounty of the specification's scenarios, with the status, the
    claimant and the [grossAmount] left open. *)
Definition exampleBounty (st claimant : string) (amount : option string) : Bounty :=
  {| id := "1"; title := Some "Fix bug"; status := st; tags := Some ["rust"];
     claimedBy := Some claimant; createdAt := None;
     payment := Some {| grossAmount := amount; grossReward := None |} |}.

(** The profile of the first scenario. *)
Definition exampleProfile : AgentProfile :=
  {| address := "0xABC"; onChainReputation := 0; totalEarnings := 5;
     bountiesCompleted := 1; bountiesClaimed := 1; successRate := 100;
     p_tags := [("rust", Count 1)]; recentFeedback := [];
     history := [{| bountyId := "1"; h_title := "Fix bug"; reward := 5;
                    h_status := "completed"; date := EmptyString |}] |}.

Definition lowerCaseKeyMap : Map OnChainReputation :=
  [("0xdef", {| oc_address := "0xDEF"; reputationScore := 42; feedback := [] |})].

Definition upperCaseKeyMap : Map OnChainReputation :=
  [("0xABC", {| oc_address := "0xABC"; reputationScore := 42; feedback := [] |})].

(** A completed bounty whose [grossAmount] is the empty string. *)
Definition emptyAmountBounty : Bounty :=
  {| id := "1"; title := Some "Fix bug"; status := "completed"; tags := Some ["rust"];
     claimedBy := Some "0xABC"; createdAt := None;
     payment := Some {| grossAmount := Some EmptyString; grossReward := Some "5000000" |} |}.

(** A registry none of whose reads succeeds. *)
Definition deadRegistry : Registry :=
  {| getReputation := fun _ => Rejected;
     getFeedback := fun _ => Rejected;
     getAgentCount := Rejected;
     getAgentByIndex := fun _ => Rejected |}.

(** A registry of three agents in which the read of index 1 fails. *)
Definition sampleRegistry : Registry :=
  {| getReputation := fun _ => Fulfilled 7%Z;
     getFeedback := fun _ => Fulfilled (FeedbackArray []);
     getAgentCount := Fulfilled 3%Z;
     getAgentByIndex :=
       fun i => if (i =? 1)%Z then Rejected
                else Fulfilled (if (i =? 0)%Z then "0xAB" else "0xCD") |}.

(** The bounty endpoint answers with JSON that is not an array. *)
Definition objectBodyWorld : World :=
  {| registry := deadRegistry;
     bountyApi := Fulfilled JsonOther;
     enumerationLatency := fun i => i;
     backfillLatency := fun i => i |}.




(** The bounty endpoint answers with the scenario's bounty. *)
Definition exampleWorld : World :=
  {| registry := deadRegistry;
     bountyApi := Fulfilled (JsonArray [exampleBounty "completed" "0xABC" (Some "5000000")]);
     enumerationLatency := fun i => i;
     backfillLatency := fun i => i |}.

Module Doubles.

Local Open Scope Z_scope.

(** ** Doubles as integers *)

(** The mantissa and the exponent [binary_round_aux] arrives at: the two
    shifts of [SpecFloat] around the rounding of the mantissa. *)
Definition round_me (m e : Z) (l : location) : Z * Z :=
  let '(mrs', e') := shr_fexp prec emax m e l in
  let '(mrs'', e'') :=
    shr_fexp prec emax (round_nearest_even (shr_m mrs') (loc_of_shr_record mrs')) e' loc_Exact in
  (shr_m mrs'', e'').

Definition inexact (mrs : shr_record) : bool := shr_r mrs || shr_s mrs.

(** The value [num / den * 2^el] lies in [[m * 2^e, (m + 1) * 2^e)], where
    [m] is the mantissa of the record: strictly above the lower end when the
    record says that a bit was lost, on it otherwise. *)
Definition brackets (el num den : Z) (mrs : shr_record) (e : Z) : Prop :=
  0 <= shr_m mrs /\
  shr_m mrs * 2 ^ (e - el) * den <= num < (shr_m mrs + 1) * 2 ^ (e - el) * den /\
  (inexact mrs = true -> shr_m mrs * 2 ^ (e - el) * den < num) /\
  (inexact mrs = false -> num = shr_m mrs * 2 ^ (e - el) * den).


(** The order of a double that is not NaN, as an integer: its value in
    units of [2^-1074], the infinities beyond every finite value. *)
Definition ord (x : spec_float) : Z :=
  match x with
  | S754_zero _ => 0
  | S754_nan => 0
  | S754_infinity s => cond_Zopp s (2 ^ 2200)
  | S754_finite s m e => cond_Zopp s (Zpos m * 2 ^ (e + 1074))
  end.

Definition sf_sign (x : spec_float) : Z :=
  match x with
  | S754_zero _ => 0
  | S754_nan => 0
  | S754_infinity s => if s then -1 else 1
  | S754_finite s _ _ => if s then -1 else 1
  end.

(** The order of a primitive double. *)
Definition fo (x : float) : Z := ord (Prim2SF x).

(** [+0] or a positive finite double. *)
Definition nonneg_finite (x : float) : Prop :=
  Prim2SF x = S754_zero false \/ exists m e, Prim2SF x = S754_finite false m e.

End Doubles.

Import Doubles.

(** The sort key of a profile, as integers. *)
Definition rankKey (p : AgentProfile) : Z * Z :=
  (fo (onChainReputation p), fo (totalEarnings p)).

(** [a] may stand in front of [b]: its key is not below the key of [b],
    reputation first. *)
Definition ranksBefore (a b : AgentProfile) : Prop :=
  (fst (rankKey b) < fst (rankKey a))%Z \/
  (fst (rankKey b) = fst (rankKey a) /\ (snd (rankKey b) <= snd (rankKey a))%Z).

Definition numericProfile (p : AgentProfile) : Prop :=
  PrimFloat.is_nan (onChainReputation p) = false /\
  PrimFloat.is_nan (totalEarnings p) = false.

(** [round(100 * completed / claimed)] on exact quotients, a tie going up. *)
Definition roundedPercent (completed claimed : nat) : Z :=
  if (claimed =? 0)%nat then 0%Z
  else ((200 * Z.of_nat completed + Z.of_nat claimed) / (2 * Z.of_nat claimed))%Z.

(** The same expression evaluated in doubles in the order it is written:
    [Math.round(100 * completed / claimed)]. *)
Definition percentAsWritten (completed claimed : nat) : float :=
  if (claimed =? 0)%nat then 0%float
  else Math_round ((100 * count_number completed) / count_number claimed)%float.

(** Forty bounties of one claimant, twenty-three of them completed. *)
Definition fortyBounties : list Bounty :=
  repeat (exampleBounty "completed" "0xABC" None) 23 ++
  repeat (exampleBounty "claimed" "0xABC" None) 17.

(** Two completed bounties, the first with a [grossAmount] that is not a
    number. *)
Definition notANumberBounties : list Bounty :=
  [exampleBounty "completed" "0xABC" (Some "abc");
   exampleBounty "completed" "0xDEF" (Some "5000000")].

(** Two completed bounties with numeric amounts. *)
Definition twoBounties : list Bounty :=
  [exampleBounty "completed" "0xABC" (Some "5000000");
   exampleBounty "completed" "0xDEF" (Some "7000000")].

(** ** The request handler *)

(** [s.startsWith(p)] *)
Fixpoint startsWith (s p : string) {struct p} : bool :=
  match p with
  | EmptyString => true
  | String c p' =>
      match s with
      | EmptyString => false
      | String d s' => Ascii.eqb d c && startsWith s' p'
      end
  end.

(** [s.split(sep)] for a separator that is not empty: the text is scanned
    from the left; where the separator matches, the piece read so far is
    closed and the scan resumes behind the match ([skip] counts the
    characters of a match still to pass); the last piece ends with the
    text. *)
Fixpoint split_from (sep : string) (skip : nat) (piece s : string) {struct s}
  : list string :=
  match s with
  | EmptyString => [piece]
  | String c s' =>
      match skip with
      | S k => split_from sep k piece s'
      | O =>
          if startsWith s sep
          then piece :: split_from sep (String.length sep - 1) EmptyString s'
          else split_from sep 0 (piece ++ String c EmptyString)%string s'
      end
  end.

Definition split (s sep : string) : list string := split_from sep 0 EmptyString s.

Definition REPUTATION_REGISTRY : string := "0x8004BAa17C55a88189AE136b182e5fdA19dE9b63".

(** The two pages, by name. *)
Inductive Page : Type :=
| DASHBOARD_HTML
| PROFILE_HTML.

(** What a response carries. *)
Inductive Content : Type :=
| AgentsJson (agents : list AgentProfile)
| AgentJson (agent : AgentProfile)
| ReputationJson (rep : OnChainReputation)
| ErrorJson (error : string)
| HealthJson (status registry chain : string)
| Html (page : Page)
| Text (text : string).

(** A response: its content, its status and the headers the handler sets. *)
Record Reply : Type := {
  content : Content;
  status_code : Z;
  headers : list (string * string)
}.

Section Server.

Variable Number : string -> float.

(** [/api/agents] *)
Definition apiAgents (cache : Cache) (w : World) (now later : Z)
  : Reply * Cache * list Effect :=
  let '(r, cache', effects) := getAgents Number cache w now later in
  (try_catch
     (agents <- r ;;
      Normal {| content := AgentsJson agents; status_code := 200;
                headers := [("Cache-Control", "public, max-age=60")] |})
     {| content := ErrorJson "API error"; status_code := 502; headers := [] |},
   cache', effects).

(** The response of [/api/agent/:address] with its header: the profile
    is sent with [Cache-Control], an error without. *)
Definition agentReply (r : Response) : Reply :=
  match body r with
  | AgentBody agent =>
      {| content := AgentJson agent; status_code := http_status r;
         headers := [("Cache-Control", "public, max-age=60")] |}
  | ErrorBody error =>
      {| content := ErrorJson error; status_code := http_status r; headers := [] |}
  end.

(** [/api/reputation/:address] *)
Definition apiReputation (reg : Registry) (addr : string) : Reply :=
  try_catch
    (rep <- fetchOnChainReputation reg addr ;;
     Normal {| content := ReputationJson rep; status_code := 200; headers := [] |})
    {| content := ErrorJson "Contract read failed"; status_code := 502; headers := [] |}.

(** [fetch(req)], on the path of the request. The element at index 1 of
    the split exists when the path starts with the separator. *)
Definition serve (cache : Cache) (w : World) (now later : Z) (pathname : string)
  : Reply * Cache * list Effect :=
  if pathname =? "/api/agents" then apiAgents cache w now later
  else if startsWith pathname "/api/agent/" then
    let addr := nth 1 (split pathname "/api/agent/") EmptyString in
    let '(r, cache', effects) := apiAgent Number cache w now later addr in
    (agentReply r, cache', effects)
  else if startsWith pathname "/api/reputation/" then
    let addr := nth 1 (split pathname "/api/reputation/") EmptyString in
    (apiReputation (registry w) addr, cache, [])
  else if pathname =? "/health" then
    ({| content := HealthJson "ok" REPUTATION_REGISTRY "base"; status_code := 200;
        headers := [] |}, cache, [])
  else if startsWith pathname "/agent/" then
    ({| content := Html PROFILE_HTML; status_code := 200;
        headers := [("Content-Type", "text/html; charset=utf-8")] |}, cache, [])
  else if (pathname =? "/") || (pathname =? "/index.html") then
    ({| content := Html DASHBOARD_HTML; status_code := 200;
        headers := [("Content-Type", "text/html; charset=utf-8")] |}, cache, [])
  else ({| content := Text "Not Found"; status_code := 404; headers := [] |}, cache, []).

End Server.

(** ** Helpers *)

(** [s.slice(0, k)], [s.slice(n)] and [s.slice(-k)] on strings. *)
Fixpoint slice_to (k : nat) (s : string) : string :=
  match k, s with
  | S k', String c s' => String c (slice_to k' s')
  | _, _ => EmptyString
  end.

Fixpoint slice_from (n : nat) (s : string) : string :=
  match n, s with
  | S n', String _ s' => slice_from n' s'
  | _, _ => s
  end.

Definition slice_end (k : nat) (s : string) : string :=
  slice_from (String.length s - k) s.

Definition shortAddr (a : string) : string :=
  if truthy_string a then (slice_to 6 a ++ "..." ++ slice_end 4 a)%string else "Unknown".

(** ** The charts of the pages *)

(** The object [{completed:0, claimed:0, submitted:0, other:0}], by its
    own properties. *)
Definition emptyTally : Map float :=
  [("completed", 0%float); ("claimed", 0%float); ("submitted", 0%float);
   ("other", 0%float)].

(** [sts[k]++] on an own property; on an inherited one the function read
    becomes NaN, stored as an own property. *)
Definition increment (sts : Map float) (k : string) : Map float :=
  Map_set sts k
    (match Map_get sts k with
     | Some n => (n + 1)%float
     | None => nan
     end).

(** [sts[h.status] ? sts[h.status]++ : sts.other++]. An inherited name
    reads as a function, which is truthy; assigning a number to
    [__proto__] does nothing. *)
Definition tally (sts : Map float) (status : string) : Map float :=
  match Map_get sts status with
  | Some n => if truthy_number n then increment sts status else increment sts "other"
  | None =>
      if mem status Object_prototype
      then (if status =? "__proto__" then sts else increment sts status)
      else increment sts "other"
  end.

(** [agents.forEach(a => a.history.forEach(h => ...))]; the profile page
    runs the inner loop on its one agent. *)
Definition statusTally (agents : list AgentProfile) : Map float :=
  fold_left
    (fun sts a => fold_left (fun sts h => tally sts (h_status h)) (history a) sts)
    agents emptyTally.

(** The bracket of the success-rate chart an agent is counted in:
    [if (a.successRate >= 90) ... else if (a.successRate >= 70) ...]. *)
Definition bracketOf (rate : float) : string :=
  if (90 <=? rate)%float then "90-100%"
  else if (70 <=? rate)%float then "70-89%"
  else if (50 <=? rate)%float then "50-69%"
  else if (25 <=? rate)%float then "25-49%"
  else "0-24%".

(** The object [{'90-100%':0, '70-89%':0, '50-69%':0, '25-49%':0, '0-24%':0}]. *)
Definition emptyBrackets : Map nat :=
  [("90-100%", 0); ("70-89%", 0); ("50-69%", 0); ("25-49%", 0); ("0-24%", 0)].

(** [agents.forEach(a => { ... brackets[...]++ ... })] *)
Definition successBrackets (agents : list AgentProfile) : Map nat :=
  fold_left (fun counts a => Map_mutate counts (bracketOf (successRate a)) S)
    agents emptyBrackets.

(** The bracket whose label holds the percentage [n]: 90 to 100, 70 to
    89, 50 to 69, 25 to 49, 0 to 24. *)
Definition labelOf (n : Z) : string :=
  if (90 <=? n)%Z then "90-100%"
  else if (70 <=? n)%Z then "70-89%"
  else if (50 <=? n)%Z then "50-69%"
  else if (25 <=? n)%Z then "25-49%"
  else "0-24%".

(** ** The pieces of [getAgents] after the guard *)

(** [bounties]: the elements fetched that have a title, none when the
    fetch failed, as [aggregateAgents] reads them. *)
Definition titledBounties (w : World) : completion (list Bounty) :=
  bounties <- match bountyApi w with
              | Fulfilled value => filterTitled value
              | Rejected => Normal []
              end ;;
  Array_map asBounty bounties.

(** The claimants that [fetchAllOnChainAgents] did not return, whose
    reputation is read one by one. *)
Definition missingAddresses (w : World) (bounties : list Bounty) : list string :=
  filter
    (fun addr =>
       negb (Map_has (fetchAllOnChainAgents (registry w) (enumerationLatency w)) addr))
    (uniqueAddresses bounties).

(** [onChain] when the backfill has settled. *)
Definition backfilled (w : World) (bounties : list Bounty) : Map OnChainReputation :=
  fold_left (fun m addr => backfillTask (registry w) addr m)
    (completion_order (backfillLatency w) (missingAddresses w bounties))
    (fetchAllOnChainAgents (registry w) (enumerationLatency w)).

(** ** More notions the statements use *)

(** The keys a bounty is recorded under: one, or none. *)
Definition keysOf (b : Bounty) : list string :=
  or_else (claimedBy b) (fun a => [toLowerCase a]) [].

(** The tags of a bounty: [b.tags || []]. *)
Definition tagsOf (b : Bounty) : list string :=
  match tags b with Some ts => ts | None => [] end.

(** What one more occurrence of [tag] makes of the value [v] that
    [tags] holds under it ([None]: not an own property). *)
Definition bumped (tag : string) (v : option TagValue) : option TagValue :=
  match v with
  | Some (Count n) => Some (Count (n + 1))
  | Some (MethodText method ones) => Some (MethodText method (ones + 1))
  | None =>
      if mem tag Object_prototype
      then (if tag =? "__proto__" then None else Some (MethodText tag 1))
      else Some (Count 1)
  end.

(** The history entry of a bounty: its title when it has one that is not
    empty and "Untitled" otherwise, its amount when it is completed and 0
    otherwise, its creation date when present. *)
Definition historyEntryOf (Number : string -> float) (b : Bounty) : HistoryEntry :=
  {| bountyId := id b;
     h_title := match nonEmpty (title b) with Some t => t | None => "Untitled" end;
     reward := if isCompleted b then amountOf Number b else 0%float;
     h_status := status b;
     date := match nonEmpty (createdAt b) with Some d => d | None => EmptyString end |}.

(** The text of the amount of a bounty: [payment.grossAmount] when it is
    present and not empty, otherwise [payment.grossReward] when it is
    present and not empty. *)
Definition amountText (b : Bounty) : option string :=
  match payment b with
  | Some pay =>
      match nonEmpty (grossAmount pay) with
      | Some s => Some s
      | None => nonEmpty (grossReward pay)
      end
  | None => None
  end.

(** [+0], a positive finite double or [+infinity]; with [true], [-0] too. *)
Definition notBelowZero (negativeZero : bool) (x : spec_float) : Prop :=
  match x with
  | S754_zero s => s = false \/ negativeZero = true
  | S754_finite s _ _ => s = false
  | S754_infinity s => s = false
  | S754_nan => False
  end.

(** The list of keys after a key has been added at the end, unless it
    is there. *)
Definition add_key (ks : list string) (k : string) : list string :=
  if mem k ks then ks else ks ++ [k].

(** The entry decoded from one tuple of the feedback array. *)
Definition feedbackOf (t : FeedbackTuple) : Feedback :=
  {| from := t_from t;
     score := Number_of_bigint (t_score t);
     comment := t_comment t;
     timestamp := Number_of_bigint (t_timestamp t) |}.

(** The score of an address: [Number] of the value read, 0 when the read
    fails. *)
Definition scoreOf (reg : Registry) (address : string) : float :=
  match getReputation reg address with
  | Fulfilled value => Number_of_bigint value
  | Rejected => 0%float
  end.

(** [sep] occurs in [s]. *)
Definition occursIn (sep s : string) : Prop :=
  exists pre post, s = (pre ++ sep ++ post)%string.

(** [p] has the sort key [K]. *)
Definition hasRank (K : Z * Z) (p : AgentProfile) : bool :=
  (fst (rankKey p) =? fst K)%Z && (snd (rankKey p) =? snd K)%Z.

(** ** More example inputs *)

(** The bounty endpoint is unreachable and the registry has agents. *)
Definition offlineWorld : World :=
  {| registry := sampleRegistry;
     bountyApi := Rejected;
     enumerationLatency := fun i => 3 - i;
     backfillLatency := fun i => i |}.

(** A bounty without a title beside the scenario's bounty. *)
Definition untitledWorld : World :=
  {| registry := deadRegistry;
     bountyApi :=
       Fulfilled
         (JsonArray
            [{| id := "0"; title := None; status := "claimed"; tags := None;
                claimedBy := Some "0xABC"; createdAt := None; payment := None |};
             exampleBounty "completed" "0xABC" (Some "5000000")]);
     enumerationLatency := fun i => i;
     backfillLatency := fun i => i |}.

(** The registry cannot be enumerated and gives every address the score
    7; the bounty endpoint answers with the scenario's bounty. *)
Definition scoredWorld : World :=
  {| registry :=
       {| getReputation := fun _ => Fulfilled 7%Z;
          getFeedback := fun _ => Fulfilled (FeedbackArray []);
          getAgentCount := Rejected;
          getAgentByIndex := fun _ => Rejected |};
     bountyApi := Fulfilled (JsonArray [exampleBounty "completed" "0xABC" (Some "5000000")]);
     enumerationLatency := fun i => i;
     backfillLatency := fun i => i |}.

(** The bounty endpoint answers with two bounties of two claimants. *)
Definition twoClaimantsWorld : World :=
  {| registry := deadRegistry;
     bountyApi := Fulfilled (JsonArray twoBounties);
     enumerationLatency := fun i => i;
     backfillLatency := fun i => i |}.

(** The profile of the second claimant of [twoBounties]. *)
Definition secondProfile : AgentProfile :=
  {| address := "0xDEF"; onChainReputation := 0; totalEarnings := 7;
     bountiesCompleted := 1; bountiesClaimed := 1; successRate := 100;
     p_tags := [("rust", Count 1)]; recentFeedback := [];
     history := [{| bountyId := "1"; h_title := "Fix bug"; reward := 7;
                    h_status := "completed"; date := EmptyString |}] |}.


(** A bounty whose tags hold names that every object inherits. *)
Definition inheritedTagsBounty : Bounty :=
  {| id := "1"; title := Some "Fix bug"; status := "completed";
     tags := Some ["rust"; "constructor"; "__proto__"; "constructor"];
     claimedBy := Some "0xABC"; createdAt := None;
     payment := Some {| grossAmount := Some "5000000"; grossReward := None |} |}.

Definition inheritedTagsProfile : AgentProfile :=
  {| address := "0xABC"; onChainReputation := 0; totalEarnings := 5;
     bountiesCompleted := 1; bountiesClaimed := 1; successRate := 100;
     p_tags := [("rust", Count 1); ("constructor", MethodText "constructor" 2)];
     recentFeedback := [];
     history := [{| bountyId := "1"; h_title := "Fix bug"; reward := 5;
                    h_status := "completed"; date := EmptyString |}] |}.

(** Twelve feedback entries, told apart by their timestamps. *)
Definition twelveFeedback : list Feedback :=
  map (fun t => {| from := "0xF00"; score := 1; comment := "ok"; timestamp := t |})
    [1; 2; 3; 4; 5; 6; 7; 8; 9; 10; 11; 12]%float.

(** An on-chain map whose one record has twelve feedback entries, and the
    profile of that record. *)
Definition busyKeyMap : Map OnChainReputation :=
  [("0xdef", {| oc_address := "0xDEF"; reputationScore := 42; feedback := twelveFeedback |})].

Definition busyProfile : AgentProfile :=
  {| address := "0xDEF"; onChainReputation := 42; totalEarnings := 0;
     bountiesCompleted := 0; bountiesClaimed := 0; successRate := 0;
     p_tags := []; recentFeedback := skipn 2 twelveFeedback; history := [] |}.

(** The profile of the scenario with the score 7. *)
Definition scoredProfile : AgentProfile :=
  {| address := "0xABC"; onChainReputation := 7; totalEarnings := 5;
     bountiesCompleted := 1; bountiesClaimed := 1; successRate := 100;
     p_tags := [("rust", Count 1)]; recentFeedback := [];
     history := [{| bountyId := "1"; h_title := "Fix bug"; reward := 5;
                    h_status := "completed"; date := EmptyString |}] |}.

(** ** Maps *)

Section MapFacts.

Context {V : Type}.
Implicit Types (m : Map V) (k : string) (v : V).

Lemma Map_get_set_eq m k v : Map_get (Map_set m k v) k = Some v.
Proof.
  induction m as [|[k' v'] m IH]; simpl.
  - now rewrite String.eqb_refl.
  - destruct (String.eqb_spec k' k) as [->|Hne]; simpl.
    + now rewrite String.eqb_refl.
    + destruct (String.eqb_spec k' k); [contradiction|exact IH].
Qed.

Lemma Map_get_set_ne m k k' v :
  k <> k' -> Map_get (Map_set m k v) k' = Map_get m k'.
Proof.
  intros Hne. induction m as [|[k0 v0] m IH]; simpl.
  - destruct (String.eqb_spec k k'); [contradiction|reflexivity].
  - destruct (String.eqb_spec k0 k) as [->|H0]; simpl.
    + destruct (String.eqb_spec k k'); [contradiction|reflexivity].
    + now rewrite IH.
Qed.

Lemma Map_get_mutate_eq m k (f : V -> V) :
  Map_get (Map_mutate m k f) k = option_map f (Map_get m k).
Proof.
  induction m as [|[k' v'] m IH]; simpl; [reflexivity|].
  destruct (String.eqb_spec k' k) as [->|Hne]; simpl.
  - now rewrite String.eqb_refl.
  - destruct (String.eqb_spec k' k); [contradiction|exact IH].
Qed.

Lemma Map_get_mutate_ne m k k' (f : V -> V) :
  k <> k' -> Map_get (Map_mutate m k f) k' = Map_get m k'.
Proof.
  intros Hne. induction m as [|[k0 v0] m IH]; simpl; [reflexivity|].
  destruct (String.eqb_spec k0 k) as [->|H0]; simpl.
  - destruct (String.eqb_spec k k'); [contradiction|reflexivity].
  - now rewrite IH.
Qed.

Lemma Map_keys_mutate m k (f : V -> V) : Map_keys (Map_mutate m k f) = Map_keys m.
Proof.
  induction m as [|[k' v'] m IH]; simpl; [reflexivity|].
  destruct (k' =? k); simpl; [reflexivity|]. f_equal. exact IH.
Qed.

Lemma Map_get_None m k : Map_get m k = None <-> ~ In k (Map_keys m).
Proof.
  induction m as [|[k' v'] m IH]; simpl; [tauto|].
  destruct (String.eqb_spec k' k) as [->|Hne].
  - split; [discriminate|]. intros H. exfalso. apply H. now left.
  - rewrite IH. tauto.
Qed.

Lemma Map_has_true m k : Map_has m k = true <-> In k (Map_keys m).
Proof.
  unfold Map_has. destruct (Map_get m k) eqn:E.
  - split; [intros _|reflexivity].
    destruct (in_dec string_dec k (Map_keys m)) as [H|H]; [exact H|].
    apply Map_get_None in H. congruence.
  - split; [discriminate|]. intros H. apply Map_get_None in E. contradiction.
Qed.

Lemma Map_keys_set_new m k v :
  Map_has m k = false -> Map_keys (Map_set m k v) = Map_keys m ++ [k].
Proof.
  unfold Map_has. induction m as [|[k' v'] m IH]; simpl; [reflexivity|].
  destruct (k' =? k); [discriminate|]. intros H. simpl. f_equal. now apply IH.
Qed.

Lemma Map_keys_set_old m k v :
  Map_has m k = true -> Map_keys (Map_set m k v) = Map_keys m.
Proof.
  unfold Map_has. induction m as [|[k' v'] m IH]; simpl; [discriminate|].
  destruct (k' =? k); [reflexivity|]. intros H. simpl. f_equal. now apply IH.
Qed.

Lemma Map_get_In m k v : Map_get m k = Some v -> In (k, v) m.
Proof.
  induction m as [|[k' v'] m IH]; simpl; [discriminate|].
  destruct (String.eqb_spec k' k) as [->|Hne].
  - intros [= ->]. now left.
  - intros H. right. now apply IH.
Qed.

Lemma Map_In_get m k v : NoDup (Map_keys m) -> In (k, v) m -> Map_get m k = Some v.
Proof.
  induction m as [|[k' v'] m IH]; simpl; [tauto|].
  intros Hnd [H|H].
  - inversion H; subst. now rewrite String.eqb_refl.
  - inversion Hnd as [|? ? Hnot Hnd']; subst.
    destruct (String.eqb_spec k' k) as [->|Hne].
    + exfalso. apply Hnot. change k with (fst (k, v)). now apply in_map.
    + now apply IH.
Qed.

Lemma NoDup_snoc (l : list string) k : NoDup l -> ~ In k l -> NoDup (l ++ [k]).
Proof.
  intros Hl Hk. induction Hl as [|x l Hx Hl IH]; simpl.
  - constructor; [tauto|constructor].
  - constructor.
    + rewrite in_app_iff. simpl. intros [H|[H|[]]]; [contradiction|].
      subst. apply Hk. now left.
    + apply IH. intros H. apply Hk. now right.
Qed.

Lemma Map_set_NoDup m k v : NoDup (Map_keys m) -> NoDup (Map_keys (Map_set m k v)).
Proof.
  intros Hnd. destruct (Map_has m k) eqn:E.
  - now rewrite Map_keys_set_old.
  - rewrite Map_keys_set_new by exact E. apply NoDup_snoc; [exact Hnd|].
    intros H. apply Map_has_true in H. congruence.
Qed.

Lemma Map_set_length m k v :
  List.length (Map_set m k v) <= S (List.length m).
Proof.
  induction m as [|[k' v'] m IH]; simpl; [lia|].
  destruct (k' =? k); simpl; lia.
Qed.

End MapFacts.

(** ** Rounding in [SpecFloat] *)

Section FloatFacts.

Local Open Scope Z_scope.

Lemma prec_eq : prec = 53. Proof. reflexivity. Qed.
Lemma emax_eq : emax = 1024. Proof. reflexivity. Qed.
Lemma emin_eq : emin = -1074. Proof. reflexivity. Qed.

Lemma fexp_eq k : fexp prec emax k = Z.max (k - 53) (-1074).
Proof. reflexivity. Qed.

Lemma pow2_pos k : 0 <= k -> 0 < 2 ^ k.
Proof. intros. apply Z.pow_pos_nonneg; lia. Qed.

Lemma pow2_succ k : 0 <= k -> 2 ^ (k + 1) = 2 * 2 ^ k.
Proof. intros. rewrite Z.pow_add_r by lia. lia. Qed.

Lemma pow2_add a b : 0 <= a -> 0 <= b -> 2 ^ (a + b) = 2 ^ a * 2 ^ b.
Proof. intros. apply Z.pow_add_r; lia. Qed.

Lemma pow2_le a b : 0 <= a <= b -> 2 ^ a <= 2 ^ b.
Proof. intros. apply Z.pow_le_mono_r; lia. Qed.

Lemma pow2_lt a b : 0 <= a < b -> 2 ^ a < 2 ^ b.
Proof. intros. apply Z.pow_lt_mono_r; lia. Qed.

Lemma pow2_lt_inv a b : 0 <= a -> 0 <= b -> 2 ^ a < 2 ^ b -> a < b.
Proof.
  intros Ha Hb H. destruct (Z_lt_le_dec a b) as [|Hle]; [assumption|].
  pose proof (pow2_le b a ltac:(lia)). lia.
Qed.

Lemma digits2_pos_bounds p :
  2 ^ (Zpos (digits2_pos p) - 1) <= Zpos p < 2 ^ Zpos (digits2_pos p).
Proof.
  induction p as [p IH|p IH|]; simpl digits2_pos.
  - rewrite Pos2Z.inj_succ. replace (Z.succ (Zpos (digits2_pos p)) - 1) with (Zpos (digits2_pos p) - 1 + 1) by lia.
    unfold Z.succ. rewrite !pow2_succ by lia. lia.
  - rewrite Pos2Z.inj_succ. replace (Z.succ (Zpos (digits2_pos p)) - 1) with (Zpos (digits2_pos p) - 1 + 1) by lia.
    unfold Z.succ. rewrite !pow2_succ by lia. lia.
  - simpl. lia.
Qed.

Lemma Zdigits2_bounds m :
  0 < m -> 0 < Zdigits2 m /\ 2 ^ (Zdigits2 m - 1) <= m < 2 ^ Zdigits2 m.
Proof.
  destruct m as [|p|p]; try lia. intros _. simpl. split; [lia|apply digits2_pos_bounds].
Qed.

Lemma Zdigits2_nonneg m : 0 <= Zdigits2 m.
Proof. destruct m; simpl; lia. Qed.

Lemma Zdigits2_lt m k : 0 <= m -> 0 <= k -> m < 2 ^ k -> Zdigits2 m <= k.
Proof.
  intros Hm Hk H. destruct (Z.eq_dec m 0) as [->|Hne]; [simpl; lia|].
  destruct (Zdigits2_bounds m ltac:(lia)) as (Hd & Hlo & _).
  assert (2 ^ (Zdigits2 m - 1) < 2 ^ k) by lia.
  apply pow2_lt_inv in H0; lia.
Qed.

Lemma Zdigits2_ge m k : 0 <= k -> 2 ^ k <= m -> k < Zdigits2 m.
Proof.
  intros Hk H. pose proof (pow2_pos k Hk).
  destruct (Zdigits2_bounds m ltac:(lia)) as (Hd & _ & Hhi).
  apply pow2_lt_inv; lia.
Qed.

(** One right shift keeps the value between the brackets. *)
Lemma shr_1_brackets el num den mrs e :
  el <= e -> 0 < den ->
  brackets el num den mrs e -> brackets el num den (shr_1 mrs) (e + 1).
Proof.
  intros He Hden. unfold brackets, inexact. destruct mrs as [m r s].
  cbn [shr_m shr_r shr_s]. intros (Hm & Hb & Hs & Hx).
  replace (e + 1 - el) with (e - el + 1) by lia. rewrite pow2_succ by lia.
  pose proof (pow2_pos (e - el) ltac:(lia)) as HP.
  assert (HX : 0 < 2 ^ (e - el) * den) by (apply Z.mul_pos_pos; lia).
  replace (m * 2 ^ (e - el) * den) with (m * (2 ^ (e - el) * den)) in * by ring.
  replace ((m + 1) * 2 ^ (e - el) * den)
    with (m * (2 ^ (e - el) * den) + 2 ^ (e - el) * den) in * by ring.
  assert (E : forall a, a * (2 * 2 ^ (e - el)) * den = 2 * (a * (2 ^ (e - el) * den)))
    by (intros; ring).
  rewrite (E (shr_m _)), (E (shr_m _ + 1)). clear E.
  set (X := 2 ^ (e - el) * den) in *. clearbody X. clear HP.
  destruct m as [|[p|p|]|]; cbn [shr_1 shr_m shr_r shr_s]; try lia;
    try rewrite (Pos2Z.inj_xI p) in *; try rewrite (Pos2Z.inj_xO p) in *;
    rewrite ?orb_false_l, ?orb_true_l;
    (split; [lia|]); (split; [lia|]);
    (split; intros H; try discriminate H; try specialize (Hs H); try specialize (Hx H); lia).
Qed.

Lemma iter_shr_brackets el num den p :
  0 < den ->
  forall mrs e, el <= e -> brackets el num den mrs e ->
                brackets el num den (iter_pos shr_1 p mrs) (e + Zpos p).
Proof.
  intros Hden. induction p as [p IH|p IH|]; intros mrs e He H; simpl iter_pos.
  - replace (e + Zpos p~1) with (e + 1 + Zpos p + Zpos p) by lia.
    apply IH; [lia|]. apply IH; [lia|]. now apply shr_1_brackets.
  - replace (e + Zpos p~0) with (e + Zpos p + Zpos p) by lia.
    apply IH; [lia|]. now apply IH.
  - now apply shr_1_brackets.
Qed.

Lemma shr_brackets el num den mrs e n :
  0 < den -> el <= e -> brackets el num den mrs e ->
  brackets el num den (fst (shr mrs e n)) (snd (shr mrs e n)) /\
  snd (shr mrs e n) = Z.max e (e + n).
Proof.
  intros Hden He H. destruct n as [|p|p]; simpl; (split; [|lia]); try exact H.
  now apply iter_shr_brackets.
Qed.

Lemma record_of_loc_m m l : shr_m (shr_record_of_loc m l) = m.
Proof. now destruct l as [|[]]. Qed.

Lemma record_of_loc_inexact m l :
  inexact (shr_record_of_loc m l) = match l with loc_Exact => false | _ => true end.
Proof. now destruct l as [|[]]. Qed.

Lemma round_nearest_even_cases mrs :
  let m2 := round_nearest_even (shr_m mrs) (loc_of_shr_record mrs) in
  m2 = shr_m mrs \/ (m2 = shr_m mrs + 1 /\ inexact mrs = true).
Proof.
  destruct mrs as [m [] []]; simpl; auto. destruct (Z.even m); auto.
Qed.

Lemma Zdigits2_pow53 : Zdigits2 (2 ^ 53) = 54.
Proof. reflexivity. Qed.


Lemma pow2_split a b : 0 <= a <= b -> 2 ^ b = 2 ^ a * 2 ^ (b - a).
Proof. intros. rewrite <- pow2_add by lia. f_equal. lia. Qed.

Lemma shr_fexp_brackets el num den m e l :
  0 < den -> el <= e ->
  brackets el num den (shr_record_of_loc m l) e ->
  exists mrs1 e1,
    shr_fexp prec emax m e l = (mrs1, e1) /\
    e1 = Z.max e (fexp prec emax (Zdigits2 m + e)) /\
    brackets el num den mrs1 e1 /\
    (fexp prec emax (Zdigits2 m + e) <= e -> mrs1 = shr_record_of_loc m l).
Proof.
  intros Hden He H. unfold shr_fexp.
  set (n := fexp prec emax (Zdigits2 m + e) - e).
  destruct (shr_brackets el num den (shr_record_of_loc m l) e n Hden He H) as [Hb He1].
  exists (fst (shr (shr_record_of_loc m l) e n)), (snd (shr (shr_record_of_loc m l) e n)).
  split; [now destruct (shr (shr_record_of_loc m l) e n)|].
  split; [rewrite He1; subst n; lia|]. split; [exact Hb|].
  intros Hle. unfold shr. destruct n as [|p|p] eqn:E; try reflexivity. subst n. lia.
Qed.

Lemma brackets_cancel el num den mrs e mrs' e' :
  0 < den -> el <= e -> el <= e' ->
  brackets el num den mrs e -> brackets el num den mrs' e' ->
  shr_m mrs * 2 ^ (e - el) < (shr_m mrs' + 1) * 2 ^ (e' - el).
Proof.
  intros Hden He He' (_ & [Hlo _] & _) (_ & [_ Hhi] & _).
  pose proof (pow2_pos (e - el) ltac:(lia)). pose proof (pow2_pos (e' - el) ltac:(lia)).
  apply Z.mul_lt_mono_pos_r with (p := den); [exact Hden|]. lia.
Qed.

Lemma shr_fexp_exact_small m2 e1 :
  fexp prec emax (Zdigits2 m2 + e1) <= e1 ->
  shr_fexp prec emax m2 e1 loc_Exact =
  ({| shr_m := m2; shr_r := false; shr_s := false |}, e1).
Proof.
  intros H. unfold shr_fexp, shr.
  destruct (fexp prec emax (Zdigits2 m2 + e1) - e1) eqn:E; try reflexivity. lia.
Qed.

Lemma shr_fexp_exact_pow53 e1 :
  -1074 <= e1 ->
  shr_fexp prec emax (2 ^ 53) e1 loc_Exact =
  ({| shr_m := 2 ^ 52; shr_r := false; shr_s := false |}, e1 + 1).
Proof.
  intros H. unfold shr_fexp. rewrite Zdigits2_pow53, fexp_eq.
  replace (Z.max (54 + e1 - 53) (-1074) - e1) with 1 by lia. reflexivity.
Qed.

(** What [binary_round_aux] arrives at is on the same side as the value of
    every double [K * 2^E] that can bound it. *)
Lemma round_me_bounds el num den m e l :
  0 <= m -> el <= e -> el <= -1074 -> 0 < den ->
  brackets el num den (shr_record_of_loc m l) e ->
  (l = loc_Exact \/ e <= fexp prec emax (Zdigits2 m + e)) ->
  exists mf ef,
    round_me m e l = (mf, ef) /\ 0 <= mf /\ el <= ef /\
    (forall K E, 0 <= K <= 2 ^ 53 -> -1074 <= E ->
                 num <= K * 2 ^ (E - el) * den -> mf * 2 ^ (ef - el) <= K * 2 ^ (E - el)) /\
    (forall K E, 0 <= K <= 2 ^ 53 -> -1074 <= E ->
                 K * 2 ^ (E - el) * den <= num -> K * 2 ^ (E - el) <= mf * 2 ^ (ef - el)).
Proof.
  intros Hm He Hel Hden Hbr Hprec.
  destruct (shr_fexp_brackets el num den m e l Hden He Hbr) as (mrs1 & e1 & Hs1 & He1 & Hb1 & Hsame).
  set (d := Zdigits2 m) in *. set (f := fexp prec emax (d + e)) in *.
  assert (Hf : f = Z.max (d + e - 53) (-1074)) by reflexivity.
  pose proof (Zdigits2_nonneg m) as Hd0. fold d in Hd0.
  set (m1 := shr_m mrs1) in *.
  assert (Hm1 : 0 <= m1) by (destruct Hb1 as (H & _); exact H).
  (* relation between m and m1 *)
  assert (Hlo : m1 * 2 ^ (e1 - e) <= m).
  { pose proof (brackets_cancel el num den mrs1 e1 _ e Hden ltac:(lia) He Hb1 Hbr) as H.
    rewrite record_of_loc_m in H. fold m1 in H.
    rewrite (pow2_split (e - el) (e1 - el)) in H by lia.
    replace (e1 - el - (e - el)) with (e1 - e) in H by lia.
    pose proof (pow2_pos (e - el) ltac:(lia)).
    assert (m1 * 2 ^ (e1 - e) < m + 1); [|lia].
    apply Z.mul_lt_mono_pos_l with (p := 2 ^ (e - el)); [lia|]. lia. }
  assert (Hhi : m < (m1 + 1) * 2 ^ (e1 - e)).
  { pose proof (brackets_cancel el num den _ e mrs1 e1 Hden He ltac:(lia) Hbr Hb1) as H.
    rewrite record_of_loc_m in H. fold m1 in H.
    rewrite (pow2_split (e - el) (e1 - el)) in H by lia.
    replace (e1 - el - (e - el)) with (e1 - e) in H by lia.
    pose proof (pow2_pos (e - el) ltac:(lia)).
    apply Z.mul_lt_mono_pos_l with (p := 2 ^ (e - el)); [lia|]. lia. }
  assert (Hm1_hi : e1 = f -> m1 < 2 ^ 53).
  { intros Hef. destruct (Z_lt_le_dec m1 (2 ^ 53)) as [|Hge]; [assumption|exfalso].
    pose proof (pow2_pos (e1 - e) ltac:(lia)) as HP.
    assert (Hmpos : 0 < m) by nia.
    destruct (Zdigits2_bounds m Hmpos) as (Hdpos & _ & Hmd). fold d in Hdpos, Hmd.
    assert (2 ^ d <= 2 ^ 53 * 2 ^ (e1 - e)).
    { rewrite <- pow2_add by lia. apply pow2_le. lia. }
    nia. }
  assert (Hm1_lo : e1 = d + e - 53 -> 2 ^ 52 <= m1).
  { intros Hed. assert (53 <= d) by lia.
    assert (Hmpos : 0 < m).
    { destruct (Z.eq_dec m 0) as [E|]; [|lia]. subst d. rewrite E in *. simpl in *. lia. }
    destruct (Zdigits2_bounds m Hmpos) as (_ & Hmd & _). fold d in Hmd.
    replace (d - 1) with (52 + (e1 - e)) in Hmd by lia.
    rewrite pow2_add in Hmd by lia.
    pose proof (pow2_pos (e1 - e) ltac:(lia)) as HP. nia. }
  (* the first rounding *)
  pose proof (round_nearest_even_cases mrs1) as Hrne. cbv zeta in Hrne. fold m1 in Hrne.
  set (m2 := round_nearest_even m1 (loc_of_shr_record mrs1)) in *.
  (* the second shift keeps the value *)
  assert (Hvp : exists mf ef, round_me m e l = (mf, ef) /\ 0 <= mf /\ e1 <= ef /\
                              mf * 2 ^ (ef - e1) = m2).
  { unfold round_me. rewrite Hs1. fold m1 m2.
    destruct (Z_lt_le_dec f e) as [Hlt|Hge].
    - (* no shift: the input was exact *)
      assert (Hl : l = loc_Exact) by (destruct Hprec; [assumption|lia]).
      assert (He1e : e1 = e) by lia.
      assert (Hm2 : m2 = m).
      { subst m2 m1. rewrite (Hsame ltac:(lia)), Hl. reflexivity. }
      rewrite shr_fexp_exact_small.
      + exists m2, e1. simpl. replace (e1 - e1) with 0 by lia. repeat split; lia.
      + rewrite Hm2, He1e. fold d f. lia.
    - assert (He1f : e1 = f) by lia. specialize (Hm1_hi He1f).
      assert (H2 : m2 < 2 ^ 53 \/ m2 = 2 ^ 53) by lia.
      destruct H2 as [H2|H2].
      + rewrite shr_fexp_exact_small.
        * exists m2, e1. simpl. replace (e1 - e1) with 0 by lia. repeat split; lia.
        * pose proof (Zdigits2_lt m2 53 ltac:(lia) ltac:(lia) H2). rewrite fexp_eq. lia.
      + rewrite H2, shr_fexp_exact_pow53 by lia.
        exists (2 ^ 52), (e1 + 1). simpl. replace (e1 + 1 - e1) with 1 by lia.
        repeat split; lia. }
  destruct Hvp as (mf & ef & Hr & Hmf & Hef & Hval).
  exists mf, ef. split; [exact Hr|]. split; [exact Hmf|]. split; [lia|].
  assert (Hscale : mf * 2 ^ (ef - el) = m2 * 2 ^ (e1 - el)).
  { rewrite (pow2_split (e1 - el) (ef - el)) by lia.
    replace (ef - el - (e1 - el)) with (ef - e1) by lia. rewrite <- Hval. ring. }
  rewrite Hscale. clear Hscale Hval Hr.
  pose proof (pow2_pos (e1 - el) ltac:(lia)) as HS.
  destruct Hb1 as (_ & [Hnlo Hnhi] & Hstrict & Hexact). fold m1 in Hnlo, Hnhi, Hstrict, Hexact.
  (* when the first rounding moved or [E] is below [e1], [m1] has 53 digits *)
  assert (Hbig : forall E, -1074 <= E < e1 ->
                    (m2 = m1 + 1 \/ e <= f) ->
                    2 ^ 53 * 2 ^ (E - el) <= m1 * 2 ^ (e1 - el)).
  { intros E HE Hcase.
    assert (Hed : e1 = d + e - 53).
    { assert (e <= f); [|lia].
      destruct Hcase as [Hup|]; [|assumption].
      destruct (Z_lt_le_dec f e) as [Hlt|]; [|assumption]. exfalso.
      assert (Hl : l = loc_Exact) by (destruct Hprec; [assumption|lia]).
      destruct Hrne as [Hrne|[_ Hrne]]; [lia|].
      rewrite (Hsame ltac:(lia)), record_of_loc_inexact, Hl in Hrne. discriminate. }
    specialize (Hm1_lo Hed).
    rewrite (pow2_split (E - el) (e1 - el)) by lia.
    replace (e1 - el - (E - el)) with (e1 - E) by lia.
    pose proof (pow2_pos (E - el) ltac:(lia)).
    assert (HT : 2 <= 2 ^ (e1 - E)).
    { change 2 with (2 ^ 1) at 1. apply pow2_le. lia. }
    assert (H53 : 2 ^ 53 <= m1 * 2 ^ (e1 - E)).
    { change (2 ^ 53) with (2 ^ 52 * 2). apply Z.mul_le_mono_nonneg; lia. }
    rewrite (Z.mul_comm (2 ^ (E - el))), Z.mul_assoc.
    apply Z.mul_le_mono_nonneg_r; lia. }
  split.
  - (* upper bound *)
    intros K E HK HE HB.
    pose proof (pow2_pos (E - el) ltac:(lia)) as HSE.
    destruct Hrne as [Hsame2|[Hup Hin]].
    + rewrite Hsame2.
      apply Z.mul_le_mono_pos_r with (p := den); [exact Hden|]. lia.
    + specialize (Hstrict Hin).
      destruct (Z_lt_le_dec E e1) as [Hlt|Hge].
      * exfalso. specialize (Hbig E ltac:(lia) ltac:(left; exact Hup)).
        assert (K * 2 ^ (E - el) <= m1 * 2 ^ (e1 - el)) by nia.
        assert (K * 2 ^ (E - el) * den <= m1 * 2 ^ (e1 - el) * den) by nia. lia.
      * rewrite (pow2_split (e1 - el) (E - el)) in * by lia.
        replace (E - el - (e1 - el)) with (E - e1) in * by lia.
        pose proof (pow2_pos (E - e1) ltac:(lia)).
        set (T := 2 ^ (E - e1)) in *. set (S1 := 2 ^ (e1 - el)) in *.
        assert (m1 < K * T).
        { apply Z.mul_lt_mono_pos_r with (p := S1 * den); [nia|]. nia. }
        rewrite Hup. nia.
  - (* lower bound *)
    intros K E HK HE HA.
    pose proof (pow2_pos (E - el) ltac:(lia)) as HSE.
    assert (Hm21 : m1 <= m2) by lia.
    destruct (Z_lt_le_dec E e1) as [Hlt|Hge].
    + destruct (Z_lt_le_dec f e) as [Hfe|Hfe].
      * (* exact input, not shifted *)
        assert (Hl : l = loc_Exact) by (destruct Hprec; [assumption|lia]).
        assert (Hex : inexact mrs1 = false).
        { rewrite (Hsame ltac:(lia)), record_of_loc_inexact, Hl. reflexivity. }
        specialize (Hexact Hex).
        apply Z.mul_le_mono_pos_r with (p := den); [exact Hden|]. nia.
      * specialize (Hbig E ltac:(lia) ltac:(right; exact Hfe)). nia.
    + rewrite (pow2_split (e1 - el) (E - el)) in * by lia.
      replace (E - el - (e1 - el)) with (E - e1) in * by lia.
      pose proof (pow2_pos (E - e1) ltac:(lia)).
      set (T := 2 ^ (E - e1)) in *. set (S1 := 2 ^ (e1 - el)) in *.
      assert (K * T < m1 + 1).
      { apply Z.mul_lt_mono_pos_r with (p := S1 * den); [nia|]. nia. }
      nia.
Qed.

Lemma binary_round_aux_eq s m e l :
  binary_round_aux prec emax s m e l =
  match fst (round_me m e l) with
  | Z0 => S754_zero s
  | Zpos p =>
      if snd (round_me m e l) <=? emax - prec
      then S754_finite s p (snd (round_me m e l)) else S754_infinity s
  | Zneg _ => S754_nan
  end.
Proof.
  unfold binary_round_aux, round_me.
  destruct (shr_fexp prec emax m e l) as [mrs' e'].
  destruct (shr_fexp prec emax _ e' loc_Exact) as [mrs'' e'']. reflexivity.
Qed.

Lemma iter_xO_pow m d : Zpos (Pos.iter xO m d) = Zpos m * 2 ^ Zpos d.
Proof.
  induction d as [|d IH] using Pos.peano_ind.
  - simpl. lia.
  - rewrite Pos.iter_succ, Pos2Z.inj_xO, IH, Pos2Z.inj_succ.
    unfold Z.succ. rewrite pow2_succ by lia. ring.
Qed.

Lemma shl_align_spec mx ex ex' :
  snd (shl_align mx ex ex') = Z.min ex ex' /\
  Zpos (fst (shl_align mx ex ex')) = Zpos mx * 2 ^ (ex - Z.min ex ex').
Proof.
  unfold shl_align. destruct (ex' - ex) as [|d|d] eqn:E; simpl fst; simpl snd.
  - split; [lia|]. replace (ex - Z.min ex ex') with 0 by lia. simpl. lia.
  - split; [lia|]. replace (ex - Z.min ex ex') with 0 by lia. simpl. lia.
  - split; [lia|]. rewrite iter_xO_pow. f_equal. f_equal. lia.
Qed.

Lemma exact_brackets el m e :
  0 <= m -> el <= e ->
  brackets el (m * 2 ^ (e - el)) 1 (shr_record_of_loc m loc_Exact) e.
Proof.
  intros Hm He. pose proof (pow2_pos (e - el) ltac:(lia)).
  unfold brackets, inexact. simpl. repeat split; try lia; try discriminate.
Qed.

(** [binary_round] of [p * 2^e], in units of [2^-1074]. *)
Lemma binary_round_bounds s p e :
  -1074 <= e ->
  exists mf ef,
    binary_round prec emax s p e =
      match mf with
      | Z0 => S754_zero s
      | Zpos q => if ef <=? emax - prec then S754_finite s q ef else S754_infinity s
      | Zneg _ => S754_nan
      end /\
    0 <= mf /\ -1074 <= ef /\
    (forall K E, 0 <= K <= 2 ^ 53 -> -1074 <= E ->
                 Zpos p * 2 ^ (e + 1074) <= K * 2 ^ (E + 1074) ->
                 mf * 2 ^ (ef + 1074) <= K * 2 ^ (E + 1074)) /\
    (forall K E, 0 <= K <= 2 ^ 53 -> -1074 <= E ->
                 K * 2 ^ (E + 1074) <= Zpos p * 2 ^ (e + 1074) ->
                 K * 2 ^ (E + 1074) <= mf * 2 ^ (ef + 1074)).
Proof.
  intros He. unfold binary_round.
  destruct (shl_align_spec p e (fexp prec emax (Zpos (digits2_pos p) + e))) as [Hez Hmz].
  destruct (shl_align p e (fexp prec emax (Zpos (digits2_pos p) + e))) as [mz ez].
  cbn [fst snd] in Hez, Hmz. rewrite <- Hez in Hmz. rewrite fexp_eq in Hez.
  assert (Hez' : -1074 <= ez <= e) by lia.
  destruct (round_me_bounds (-1074) (Zpos mz * 2 ^ (ez - -1074)) 1 (Zpos mz) ez loc_Exact)
    as (mf & ef & Hr & Hmf & Hef & Hub & Hlb); try lia.
  - apply exact_brackets; lia.
  - now left.
  - exists mf, ef. rewrite binary_round_aux_eq, Hr. simpl fst; simpl snd.
    split; [reflexivity|]. split; [exact Hmf|]. split; [exact Hef|].
    assert (Hv : Zpos mz * 2 ^ (ez - -1074) = Zpos p * 2 ^ (e + 1074)).
    { rewrite Hmz. rewrite <- Z.mul_assoc, <- pow2_add by lia. f_equal. f_equal. lia. }
    rewrite Hv in Hub, Hlb.
    split; intros K E HK HE H.
    + specialize (Hub K E HK HE). replace (E - -1074) with (E + 1074) in Hub by lia.
      replace (ef - -1074) with (ef + 1074) in Hub by lia. apply Hub. lia.
    + specialize (Hlb K E HK HE). replace (E - -1074) with (E + 1074) in Hlb by lia.
      replace (ef - -1074) with (ef + 1074) in Hlb by lia. apply Hlb. lia.
Qed.

Lemma binary_round_sign s p e :
  -1074 <= e -> sf_sign (binary_round prec emax s p e) = if s then -1 else 1.
Proof.
  intros He. destruct (binary_round_bounds s p e He) as (mf & ef & -> & Hmf & Hef & _ & Hlb).
  specialize (Hlb 1 (-1074) ltac:(lia) ltac:(lia)).
  pose proof (pow2_pos (e + 1074) ltac:(lia)). pose proof (pow2_pos (ef + 1074) ltac:(lia)).
  change (1 * 2 ^ (-1074 + 1074)) with 1 in Hlb.
  assert (Hp : 1 <= Zpos p * 2 ^ (e + 1074)) by nia.
  specialize (Hlb Hp).
  destruct mf as [|q|q]; try lia.
  destruct (ef <=? emax - prec); reflexivity.
Qed.

Lemma valid_finite s m e :
  valid_binary (S754_finite s m e) = true ->
  -1074 <= e <= 971 /\ Zpos m < 2 ^ 53 /\ (-1074 < e -> 2 ^ 52 <= Zpos m).
Proof.
  unfold valid_binary, bounded, canonical_mantissa. rewrite fexp_eq.
  intros H. apply andb_true_iff in H. destruct H as [Hc Hb].
  apply Z.eqb_eq in Hc. apply Z.leb_le in Hb. change (emax - prec) with 971 in Hb.
  pose proof (digits2_pos_bounds m) as [Hlo Hhi].
  set (dg := Zpos (digits2_pos m)) in *.
  assert (Hdg : 0 < dg) by (subst dg; lia).
  split; [lia|]. split.
  - assert (2 ^ dg <= 2 ^ 53) by (apply pow2_le; lia). lia.
  - intros He. assert (dg = 53) by lia. replace (dg - 1) with 52 in Hlo by lia. exact Hlo.
Qed.

Lemma ord_finite s m e :
  valid_binary (S754_finite s m e) = true ->
  0 < Zpos m * 2 ^ (e + 1074) < 2 ^ 2200.
Proof.
  intros H. destruct (valid_finite _ _ _ H) as (He & Hm & _).
  pose proof (pow2_pos (e + 1074) ltac:(lia)) as HP.
  assert (2 ^ (e + 1074) < 2 ^ 2046) by (apply pow2_lt; lia).
  split; [apply Z.mul_pos_pos; lia|].
  assert (Zpos m * 2 ^ (e + 1074) < 2 ^ 53 * 2 ^ 2046).
  { apply Z.mul_lt_mono_nonneg; lia. }
  assert (2 ^ 53 * 2 ^ 2046 <= 2 ^ 2200).
  { rewrite <- pow2_add by lia. apply pow2_le. lia. }
  lia.
Qed.

(** Canonical magnitudes compare as their values do. *)
Lemma compare_magnitude m1 e1 m2 e2 :
  valid_binary (S754_finite false m1 e1) = true ->
  valid_binary (S754_finite false m2 e2) = true ->
  match e1 ?= e2 with
  | Lt => Lt
  | Gt => Gt
  | Eq => Pos.compare_cont Eq m1 m2
  end = (Zpos m1 * 2 ^ (e1 + 1074) ?= Zpos m2 * 2 ^ (e2 + 1074)).
Proof.
  intros H1 H2.
  destruct (valid_finite _ _ _ H1) as (He1 & Hm1 & Hn1).
  destruct (valid_finite _ _ _ H2) as (He2 & Hm2 & Hn2).
  assert (Hlt : forall ma ea mb eb,
             -1074 <= ea < eb -> Zpos ma < 2 ^ 53 -> 2 ^ 52 <= Zpos mb ->
             Zpos ma * 2 ^ (ea + 1074) < Zpos mb * 2 ^ (eb + 1074)).
  { intros ma ea mb eb He Ha Hb.
    rewrite (pow2_split (ea + 1074) (eb + 1074)) by lia.
    replace (eb + 1074 - (ea + 1074)) with (eb - ea) by lia.
    pose proof (pow2_pos (ea + 1074) ltac:(lia)).
    assert (2 <= 2 ^ (eb - ea)).
    { change 2 with (2 ^ 1) at 1. apply pow2_le. lia. }
    assert (2 ^ 53 <= Zpos mb * 2 ^ (eb - ea)).
    { change (2 ^ 53) with (2 ^ 52 * 2). apply Z.mul_le_mono_nonneg; lia. }
    rewrite (Z.mul_comm (2 ^ (ea + 1074))), Z.mul_assoc.
    apply Z.mul_lt_mono_pos_r; lia. }
  symmetry. destruct (Z.compare_spec e1 e2) as [->|H|H].
  - pose proof (pow2_pos (e2 + 1074) ltac:(lia)).
    change (Pos.compare_cont Eq m1 m2) with (Pos.compare m1 m2).
    destruct (Pos.compare_spec m1 m2) as [->|Hm|Hm].
    + apply Z.compare_refl.
    + apply Z.compare_lt_iff. apply Z.mul_lt_mono_pos_r; lia.
    + apply Z.compare_gt_iff. apply Z.mul_lt_mono_pos_r; lia.
  - apply Z.compare_lt_iff. apply Hlt; lia.
  - apply Z.compare_gt_iff. apply Hlt; lia.
Qed.

Lemma SFcompare_ord x y :
  valid_binary x = true -> valid_binary y = true ->
  x <> S754_nan -> y <> S754_nan ->
  SFcompare x y = Some (ord x ?= ord y).
Proof.
  intros Hx Hy Nx Ny.
  assert (Hbig : 0 < 2 ^ 2200) by (apply pow2_pos; lia).
  destruct x as [sx|sx| |sx mx ex], y as [sy|sy| |sy my ey]; try congruence;
    try (pose proof (ord_finite _ _ _ Hx)); try (pose proof (ord_finite _ _ _ Hy));
    unfold SFcompare, ord, cond_Zopp; f_equal.
  all: try (destruct sx, sy; symmetry;
            first [ apply Z.compare_eq_iff; lia
                  | apply Z.compare_lt_iff; lia
                  | apply Z.compare_gt_iff; lia ]).
  all: try (destruct sx; symmetry;
            first [ apply Z.compare_eq_iff; lia
                  | apply Z.compare_lt_iff; lia
                  | apply Z.compare_gt_iff; lia ]).
  all: try (destruct sy; symmetry;
            first [ apply Z.compare_eq_iff; lia
                  | apply Z.compare_lt_iff; lia
                  | apply Z.compare_gt_iff; lia ]).
  destruct sx, sy.
  - rewrite Z.compare_opp, <- (compare_magnitude my ey mx ex) by assumption.
    rewrite (Z.compare_antisym ey ex), (Pos.compare_cont_antisym mx my Eq).
    destruct (ey ?= ex); reflexivity.
  - symmetry. apply Z.compare_lt_iff. lia.
  - symmetry. apply Z.compare_gt_iff. lia.
  - now apply compare_magnitude.
Qed.

Lemma sgn_scaled a P : 0 < P -> Z.sgn (a * P) = Z.sgn a.
Proof.
  intros HP. destruct (Z.lt_trichotomy a 0) as [H|[->|H]].
  - rewrite !Z.sgn_neg; [reflexivity|lia|]. apply Z.mul_neg_pos; lia.
  - reflexivity.
  - rewrite !Z.sgn_pos; [reflexivity|lia|]. apply Z.mul_pos_pos; lia.
Qed.

Lemma aligned_ord s m e ez :
  ez <= e -> -1074 <= ez ->
  cond_Zopp s (Zpos (fst (shl_align m e ez))) * 2 ^ (ez + 1074) =
  cond_Zopp s (Zpos m * 2 ^ (e + 1074)).
Proof.
  intros H1 H2. destruct (shl_align_spec m e ez) as [_ ->].
  replace (Z.min e ez) with ez by lia.
  rewrite (pow2_split (ez + 1074) (e + 1074)) by lia.
  replace (e + 1074 - (ez + 1074)) with (e - ez) by lia.
  unfold cond_Zopp. destruct s; ring.
Qed.

Lemma SFsub_sign x y :
  valid_binary x = true -> valid_binary y = true ->
  x <> S754_nan -> y <> S754_nan ->
  sf_sign (SFsub prec emax x y) = Z.sgn (ord x - ord y).
Proof.
  intros Hx Hy Nx Ny.
  assert (Hbig : 0 < 2 ^ 2200) by (apply pow2_pos; lia).
  set (big := 2 ^ 2200) in *.
  destruct x as [sx|sx| |sx mx ex], y as [sy|sy| |sy my ey]; try congruence;
    try (pose proof (ord_finite _ _ _ Hx) as Ox; fold big in Ox);
    try (pose proof (ord_finite _ _ _ Hy) as Oy; fold big in Oy).
  9: {
    destruct (valid_finite _ _ _ Hx) as (Hex & _).
    destruct (valid_finite _ _ _ Hy) as (Hey & _).
    unfold SFsub, ord. set (ez := Z.min ex ey).
    rewrite <- (aligned_ord sx mx ex ez) by lia.
    rewrite <- (aligned_ord sy my ey ez) by lia.
    rewrite <- Z.mul_sub_distr_r, sgn_scaled by (apply pow2_pos; lia).
    destruct (cond_Zopp sx (Zpos (fst (shl_align mx ex ez))) -
              cond_Zopp sy (Zpos (fst (shl_align my ey ez)))) as [|p|p];
      unfold binary_normalize.
    - reflexivity.
    - rewrite binary_round_sign; [reflexivity|lia].
    - rewrite binary_round_sign; [reflexivity|lia]. }
  all: cbv beta iota delta [SFsub sf_sign ord cond_Zopp]; fold big;
    try set (vx := Zpos mx * 2 ^ (ex + 1074)) in *;
    try set (vy := Zpos my * 2 ^ (ey + 1074)) in *;
    try destruct sx; try destruct sy; cbv beta iota delta [negb sf_sign]; symmetry;
    first [ reflexivity
          | apply Z.sgn_pos; lia
          | apply Z.sgn_neg; lia
          | apply Z.sgn_null_iff; lia ].
Qed.

Lemma SFcompare_refl x : x <> S754_nan -> SFcompare x x = Some Eq.
Proof.
  destruct x as [s|s| |s m e]; try congruence; intros _; simpl.
  - reflexivity.
  - now destruct s.
  - rewrite Z.compare_refl, Pos.compare_cont_refl. now destruct s.
Qed.

Lemma is_nan_false x : PrimFloat.is_nan x = false <-> Prim2SF x <> S754_nan.
Proof.
  unfold PrimFloat.is_nan. rewrite FloatAxioms.eqb_spec. unfold SFeqb. split.
  - intros H E. rewrite E in H. discriminate.
  - intros H. now rewrite (SFcompare_refl _ H).
Qed.

Lemma float_compare_ord x y :
  PrimFloat.is_nan x = false -> PrimFloat.is_nan y = false ->
  SFcompare (Prim2SF x) (Prim2SF y) = Some (fo x ?= fo y).
Proof.
  intros Hx Hy. apply SFcompare_ord; try apply Prim2SF_valid; now apply is_nan_false.
Qed.

Lemma ltb_ord x y :
  PrimFloat.is_nan x = false -> PrimFloat.is_nan y = false ->
  (x <? y)%float = (fo x <? fo y).
Proof.
  intros Hx Hy. rewrite FloatAxioms.ltb_spec. unfold SFltb. rewrite float_compare_ord by assumption.
  unfold Z.ltb. now destruct (fo x ?= fo y).
Qed.

Lemma leb_ord x y :
  PrimFloat.is_nan x = false -> PrimFloat.is_nan y = false ->
  (x <=? y)%float = (fo x <=? fo y).
Proof.
  intros Hx Hy. rewrite FloatAxioms.leb_spec. unfold SFleb. rewrite float_compare_ord by assumption.
  unfold Z.leb. now destruct (fo x ?= fo y).
Qed.

Lemma eqb_ord x y :
  PrimFloat.is_nan x = false -> PrimFloat.is_nan y = false ->
  (x =? y)%float = (fo x =? fo y).
Proof.
  intros Hx Hy. rewrite FloatAxioms.eqb_spec. unfold SFeqb. rewrite float_compare_ord by assumption.
  rewrite Z.eqb_compare. now destruct (fo x ?= fo y).
Qed.

Lemma sub_sign x y :
  PrimFloat.is_nan x = false -> PrimFloat.is_nan y = false ->
  sf_sign (Prim2SF (x - y)) = Z.sgn (fo x - fo y).
Proof.
  intros Hx Hy. rewrite FloatAxioms.sub_spec. apply SFsub_sign; try apply Prim2SF_valid;
    now apply is_nan_false.
Qed.

Lemma truthy_number_sign d : truthy_number d = negb (sf_sign (Prim2SF d) =? 0).
Proof.
  unfold truthy_number, PrimFloat.is_zero, PrimFloat.is_nan. rewrite !FloatAxioms.eqb_spec.
  change (Prim2SF zero) with (S754_zero false). unfold SFeqb.
  destruct (Prim2SF d) as [s|s| |s m e] eqn:E; simpl.
  - reflexivity.
  - now destruct s.
  - reflexivity.
  - rewrite Z.compare_refl, Pos.compare_cont_refl. now destruct s.
Qed.

Lemma positive_sign d : (0 <? d)%float = (sf_sign (Prim2SF d) =? 1).
Proof.
  rewrite FloatAxioms.ltb_spec. change (Prim2SF 0) with (S754_zero false). unfold SFltb.
  destruct (Prim2SF d) as [s|s| |s m e]; simpl; try reflexivity; now destruct s.
Qed.

End FloatFacts.

(** ** The three loops of [aggregateAgents] *)

Section AggregationFacts.

Variable Number : string -> float.
Variable onChainData : Map OnChainReputation.

Lemma claimsOf_app k l1 l2 : claimsOf k (l1 ++ l2) = claimsOf k l1 ++ claimsOf k l2.
Proof. apply filter_app. Qed.

Lemma claimantKey_Some b k :
  claimantKey b = Some k ->
  exists a, claimedBy b = Some a /\ truthy_string a = true /\ k = toLowerCase a.
Proof.
  unfold claimantKey, or_else. destruct (claimedBy b) as [a|]; [|discriminate].
  destruct (truthy_string a) eqn:E; [|discriminate].
  intros [= <-]. now exists a.
Qed.

Lemma bountyStep_keyed agents b k :
  claimantKey b = Some k ->
  bountyStep Number onChainData agents b =
  Map_mutate
    (if Map_has agents k then agents
     else Map_set agents k
            (claimantProfile (match claimedBy b with Some a => a | None => EmptyString end)
               (Map_get onChainData k)))
    k (recordBounty Number b).
Proof.
  intros H. destruct (claimantKey_Some _ _ H) as (a & Ha & Ht & ->).
  unfold bountyStep, or_else. now rewrite Ha, Ht.
Qed.

Lemma bountyStep_unkeyed agents b :
  claimantKey b = None -> bountyStep Number onChainData agents b = agents.
Proof.
  unfold claimantKey, bountyStep, or_else. destruct (claimedBy b) as [a|]; [|reflexivity].
  destruct (truthy_string a); [discriminate|reflexivity].
Qed.

(** The first loop leaves under [k] the first claimant's profile with
    every bounty of [k] recorded on it, in list order. *)
Lemma bounty_loop_get bounties k :
  Map_get (fold_left (bountyStep Number onChainData) bounties []) k =
  match claimsOf k bounties with
  | b0 :: _ =>
      Some (recordAll Number (claimsOf k bounties)
              (claimantProfile (match claimedBy b0 with Some a => a | None => EmptyString end)
                 (Map_get onChainData k)))
  | [] => None
  end.
Proof.
  induction bounties as [|b bounties IH] using rev_ind; [reflexivity|].
  rewrite fold_left_app, claimsOf_app. simpl fold_left.
  set (agents := fold_left (bountyStep Number onChainData) bounties []) in *.
  destruct (claimantKey b) as [kb|] eqn:Hk.
  - rewrite (bountyStep_keyed _ _ _ Hk).
    destruct (String.eqb_spec kb k) as [->|Hne].
    + assert (Hc : claimsOf k [b] = [b]).
      { unfold claimsOf. simpl. now rewrite Hk, String.eqb_refl. }
      rewrite Hc, Map_get_mutate_eq. unfold Map_has.
      destruct (claimsOf k bounties) as [|b0 rest] eqn:Hcl; rewrite IH.
      * rewrite Map_get_set_eq. reflexivity.
      * rewrite IH. simpl. unfold recordAll. simpl. now rewrite fold_left_app.
    + assert (Hc : claimsOf k [b] = []).
      { unfold claimsOf. simpl. rewrite Hk.
        destruct (String.eqb_spec kb k); [contradiction|reflexivity]. }
      rewrite Hc, app_nil_r, Map_get_mutate_ne by exact Hne.
      destruct (Map_has agents kb); [exact IH|].
      rewrite Map_get_set_ne by exact Hne. exact IH.
  - rewrite (bountyStep_unkeyed _ _ Hk).
    assert (Hc : claimsOf k [b] = []).
    { unfold claimsOf. simpl. now rewrite Hk. }
    rewrite Hc, app_nil_r. exact IH.
Qed.

Lemma bountyStep_NoDup agents b :
  NoDup (Map_keys agents) -> NoDup (Map_keys (bountyStep Number onChainData agents b)).
Proof.
  intros Hnd. destruct (claimantKey b) as [kb|] eqn:Hk.
  - rewrite (bountyStep_keyed _ _ _ Hk), Map_keys_mutate.
    destruct (Map_has agents kb); [exact Hnd|]. now apply Map_set_NoDup.
  - now rewrite (bountyStep_unkeyed _ _ Hk).
Qed.

Lemma bounty_loop_NoDup bounties agents :
  NoDup (Map_keys agents) ->
  NoDup (Map_keys (fold_left (bountyStep Number onChainData) bounties agents)).
Proof.
  revert agents. induction bounties as [|b bounties IH]; intros agents Hnd; [exact Hnd|].
  simpl. apply IH. now apply bountyStep_NoDup.
Qed.

Lemma onChain_loop_NoDup (entries : Map OnChainReputation) agents :
  NoDup (Map_keys agents) -> NoDup (Map_keys (fold_left onChainStep entries agents)).
Proof.
  revert agents. induction entries as [|[k oc] entries IH]; intros agents Hnd; [exact Hnd|].
  simpl. apply IH. destruct (Map_has agents k); [exact Hnd|]. now apply Map_set_NoDup.
Qed.

(** The second loop adds, for a key the first loop left free, the
    profile of the first entry stored under it. *)
Lemma onChain_loop_get (entries : Map OnChainReputation) agents k :
  Map_get (fold_left onChainStep entries agents) k =
  match Map_get agents k with
  | Some p => Some p
  | None => option_map onChainProfile (Map_get entries k)
  end.
Proof.
  revert agents. induction entries as [|[k' oc] entries IH]; intros agents; simpl.
  - now destruct (Map_get agents k).
  - rewrite IH. unfold Map_has.
    destruct (String.eqb_spec k' k) as [->|Hne].
    + destruct (Map_get agents k) eqn:E; [now rewrite E|].
      now rewrite Map_get_set_eq.
    + destruct (Map_get agents k') eqn:E'; [reflexivity|].
      now rewrite Map_get_set_ne by exact Hne.
Qed.

Lemma Map_get_map_values {V W : Type} (f : V -> W) (m : Map V) k :
  Map_get (map (fun kv => (fst kv, f (snd kv))) m) k = option_map f (Map_get m k).
Proof.
  induction m as [|[k' v] m IH]; simpl; [reflexivity|].
  destruct (k' =? k); [reflexivity|exact IH].
Qed.

Lemma Map_keys_map_values {V W : Type} (f : V -> W) (m : Map V) :
  Map_keys (map (fun kv => (fst kv, f (snd kv))) m) = Map_keys m.
Proof. unfold Map_keys. rewrite map_map. reflexivity. Qed.

Lemma agentsMap_NoDup bounties :
  NoDup (Map_keys (agentsMap Number bounties onChainData)).
Proof.
  unfold agentsMap. rewrite Map_keys_map_values.
  apply onChain_loop_NoDup, bounty_loop_NoDup. constructor.
Qed.

Lemma agentsMap_get bounties k :
  Map_get (agentsMap Number bounties onChainData) k =
  profileAt Number bounties onChainData k.
Proof.
  unfold agentsMap, profileAt.
  rewrite Map_get_map_values, onChain_loop_get, bounty_loop_get.
  destruct (claimsOf k bounties); [|reflexivity].
  now destruct (Map_get onChainData k).
Qed.

Lemma agentsMap_In bounties k p :
  In (k, p) (agentsMap Number bounties onChainData) <->
  profileAt Number bounties onChainData k = Some p.
Proof.
  rewrite <- agentsMap_get. split.
  - apply Map_In_get, agentsMap_NoDup.
  - apply Map_get_In.
Qed.

(** What recording a list of bounties does to each field. *)
Lemma recordAll_fields l p0 :
  let p := recordAll Number l p0 in
  address p = address p0 /\
  onChainReputation p = onChainReputation p0 /\
  successRate p = successRate p0 /\
  bountiesClaimed p = bountiesClaimed p0 + List.length l /\
  bountiesCompleted p = bountiesCompleted p0 + List.length (filter isCompleted l) /\
  List.length (history p) = List.length (history p0) + List.length l /\
  totalEarnings p =
    fold_left (fun e b => (e + rewardOf Number b)%float) (filter isCompleted l)
      (totalEarnings p0).
Proof.
  revert p0. induction l as [|b l IH]; intros p0; simpl.
  - repeat split; lia.
  - destruct (IH (recordBounty Number b p0)) as (Ha & Hr & Hs & Hc & Hd & Hh & He).
    unfold recordAll in *. simpl in *.
    rewrite Ha, Hr, Hs, Hc, Hd, Hh, He. clear.
    unfold isCompleted. rewrite length_app. simpl.
    destruct (status b =? "completed"); simpl; repeat split; lia.
Qed.

End AggregationFacts.

(** ** Strings, sorting and counting *)

Lemma lower_ascii_idempotent c : lower_ascii (lower_ascii c) = lower_ascii c.
Proof. destruct c as [[] [] [] [] [] [] [] []]; reflexivity. Qed.

Lemma toLowerCase_idempotent s : toLowerCase (toLowerCase s) = toLowerCase s.
Proof.
  induction s as [|c s IH]; simpl; [reflexivity|].
  now rewrite lower_ascii_idempotent, IH.
Qed.

Lemma truthy_string_true a : truthy_string a = true <-> a <> EmptyString.
Proof.
  unfold truthy_string. destruct (String.eqb_spec a EmptyString); simpl; split; congruence.
Qed.

Lemma sort_insert_perm {A : Type} (cmp : A -> A -> float) x l :
  Permutation (sort_insert cmp x l) (x :: l).
Proof.
  induction l as [|y l IH]; simpl; [reflexivity|].
  destruct (0 <? cmp x y)%float; [|reflexivity].
  rewrite IH. apply perm_swap.
Qed.

Lemma sort_perm {A : Type} (cmp : A -> A -> float) l : Permutation (sort cmp l) l.
Proof.
  induction l as [|x l IH]; simpl; [reflexivity|].
  rewrite sort_insert_perm. now constructor.
Qed.

Lemma filter_length_perm {A : Type} (f : A -> bool) l l' :
  Permutation l l' -> List.length (filter f l) = List.length (filter f l').
Proof.
  induction 1 as [|x l l' _ IH|x y l|l l' l'' _ IH1 _ IH2]; simpl.
  - reflexivity.
  - destruct (f x); simpl; congruence.
  - destruct (f x), (f y); reflexivity.
  - congruence.
Qed.

Lemma count_key_once (l : list string) k :
  NoDup l -> In k l -> List.length (filter (fun y => y =? k) l) = 1.
Proof.
  induction 1 as [|x l Hx Hnd IH]; simpl; [tauto|].
  intros [->|Hin].
  - rewrite String.eqb_refl. simpl. f_equal.
    clear IH Hnd. induction l as [|y l IHl]; simpl; [reflexivity|].
    destruct (String.eqb_spec y k) as [->|Hne].
    + exfalso. apply Hx. now left.
    + apply IHl. intros H. apply Hx. now right.
  - destruct (String.eqb_spec x k) as [->|Hne]; [contradiction|]. now apply IH.
Qed.

Lemma count_values_by_key {V : Type} (m : Map V) (f : V -> bool) k :
  (forall k' v, In (k', v) m -> f v = (k' =? k)) ->
  List.length (filter f (Map_values m)) =
  List.length (filter (fun y => y =? k) (Map_keys m)).
Proof.
  induction m as [|[k' v] m IH]; intros H; simpl; [reflexivity|].
  rewrite (H k' v) by now left.
  destruct (k' =? k); simpl; rewrite IH;
    try reflexivity; intros; apply H; now right.
Qed.

(** ** The comparator and the sort *)

Section Sorting.
Local Open Scope Z_scope.

Lemma comparator_positive a b :
  numericProfile a -> numericProfile b ->
  (0 <? byReputationThenEarnings a b)%float = true <-> ~ ranksBefore a b.
Proof.
  intros [Ha1 Ha2] [Hb1 Hb2]. unfold byReputationThenEarnings, ranksBefore, rankKey.
  cbn [fst snd]. rewrite truthy_number_sign, sub_sign by assumption.
  set (ra := fo (onChainReputation a)). set (rb := fo (onChainReputation b)).
  set (ea := fo (totalEarnings a)). set (eb := fo (totalEarnings b)).
  destruct (Z.eqb_spec (Z.sgn (rb - ra)) 0) as [H0|H0]; cbn [negb].
  - rewrite positive_sign, sub_sign by assumption. fold ea eb.
    apply Z.sgn_null_iff in H0. rewrite Z.eqb_eq, Z.sgn_pos_iff. lia.
  - rewrite positive_sign, sub_sign by assumption. fold ra rb.
    rewrite Z.sgn_null_iff in H0. rewrite Z.eqb_eq, Z.sgn_pos_iff. lia.
Qed.

Lemma ranksBefore_total a b : ranksBefore a b \/ ranksBefore b a.
Proof. unfold ranksBefore. lia. Qed.

Lemma ranksBefore_trans a b c : ranksBefore a b -> ranksBefore b c -> ranksBefore a c.
Proof. unfold ranksBefore. lia. Qed.

Lemma sort_insert_sorted x l :
  numericProfile x -> Forall numericProfile l ->
  StronglySorted ranksBefore l ->
  StronglySorted ranksBefore (sort_insert byReputationThenEarnings x l).
Proof.
  intros Hx Hl Hs. induction Hs as [|y l Hs IH Hy]; simpl.
  - repeat constructor.
  - inversion Hl as [|? ? Hny Hnl]; subst.
    destruct (0 <? byReputationThenEarnings x y)%float eqn:E.
    + apply comparator_positive in E; try assumption.
      assert (Hyx : ranksBefore y x) by (destruct (ranksBefore_total x y); tauto).
      constructor; [now apply IH|].
      apply Forall_forall. intros z Hz.
      apply (Permutation_in _ (sort_insert_perm _ _ _)) in Hz.
      destruct Hz as [<-|Hz]; [exact Hyx|].
      rewrite Forall_forall in Hy. now apply Hy.
    + assert (Hxy : ranksBefore x y).
      { destruct (ranksBefore_total x y) as [H|H]; [exact H|].
        destruct (comparator_positive x y Hx Hny) as [_ Hc].
        apply Decidable.not_not; [unfold Decidable.decidable, ranksBefore; lia|].
        intros Hn. rewrite (Hc Hn) in E. discriminate. }
      constructor; [now constructor|].
      constructor; [exact Hxy|].
      eapply Forall_impl; [|exact Hy]. intros z Hz. now apply ranksBefore_trans with y.
Qed.

Lemma sort_sorted l :
  Forall numericProfile l ->
  StronglySorted ranksBefore (sort byReputationThenEarnings l).
Proof.
  induction 1 as [|x l Hx Hl IH]; simpl; [constructor|].
  apply sort_insert_sorted; [exact Hx| |exact IH].
  apply Forall_forall. intros z Hz.
  apply (Permutation_in _ (sort_perm _ _)) in Hz.
  rewrite Forall_forall in Hl. now apply Hl.
Qed.

Lemma sorted_nth {A : Type} (R : A -> A -> Prop) l :
  StronglySorted R l ->
  forall i j a b, (i < j)%nat -> nth_error l i = Some a -> nth_error l j = Some b -> R a b.
Proof.
  induction 1 as [|x l Hs IH Hx]; intros i j a b Hij Hi Hj.
  - destruct i; discriminate.
  - destruct j as [|j]; [lia|]. simpl in Hj.
    destruct i as [|i]; simpl in Hi.
    + injection Hi as <-. rewrite Forall_forall in Hx. apply Hx.
      eapply nth_error_In. exact Hj.
    + apply (IH i j); [lia|assumption|assumption].
Qed.

End Sorting.

(** ** Counters, quotients and percentages in doubles *)

Section Percent.
Local Open Scope Z_scope.

Lemma new_location_exact n k :
  new_location n k = loc_Exact <-> k = 0.
Proof.
  unfold new_location, new_location_even, new_location_odd.
  destruct (Z.even n); destruct (Z.eqb_spec k 0); split; intros; congruence.
Qed.

Lemma fexp_mono a b : a <= b -> fexp prec emax a <= fexp prec emax b.
Proof. rewrite !fexp_eq. lia. Qed.

Lemma shifted_mantissa m s :
  0 <= s ->
  match s with Zpos _ => Z.shiftl m s | Z0 => m | Zneg _ => 0 end = m * 2 ^ s.
Proof.
  intros Hs. destruct s as [|p|p]; try lia.
  now rewrite Z.shiftl_mul_pow2 by lia.
Qed.

(** The quotient, its exponent and its location, as [SFdiv] computes them. *)
Lemma SFdiv_core_brackets mx ex my ey :
  exists q e' l,
    SFdiv_core_binary prec emax (Zpos mx) ex (Zpos my) ey = (q, e', l) /\
    0 <= q /\ e' <= ex - ey /\
    (l = loc_Exact \/ e' <= fexp prec emax (Zdigits2 q + e')) /\
    forall el, el <= e' ->
      brackets el (Zpos mx * 2 ^ (ex - ey - el)) (Zpos my) (shr_record_of_loc q l) e'.
Proof.
  unfold SFdiv_core_binary.
  set (d1 := Zdigits2 (Zpos mx)). set (d2 := Zdigits2 (Zpos my)).
  set (e' := Z.min (fexp prec emax (d1 + ex - (d2 + ey))) (ex - ey)).
  set (s := ex - ey - e').
  assert (Hs : 0 <= s) by (subst s e'; lia).
  set (m' := match s with Zpos _ => Z.shiftl (Zpos mx) s | Z0 => Zpos mx | Zneg _ => 0 end).
  assert (Hm' : m' = Zpos mx * 2 ^ s).
  { subst m'. now apply shifted_mantissa. }
  pose proof (Z_div_mod m' (Zpos my) ltac:(lia)) as Hdiv.
  destruct (Z.div_eucl m' (Zpos my)) as [q r]. destruct Hdiv as [Hq Hr].
  pose proof (pow2_pos s Hs) as HPs.
  assert (Hq0 : 0 <= q) by nia.
  exists q, e', (new_location (Zpos my) r).
  split; [reflexivity|]. split; [exact Hq0|]. split; [subst e'; lia|]. split.
  - right. apply Z.le_trans with (fexp prec emax (d1 + ex - (d2 + ey))); [subst e'; lia|].
    apply fexp_mono.
    assert (d1 - d2 + s <= Zdigits2 q); [|subst s; lia].
    pose proof (Zdigits2_nonneg q).
    destruct (Z_lt_le_dec (d1 - 1 - d2 + s) 0) as [Hneg|Hpos]; [lia|].
    assert (2 ^ (d1 - 1 - d2 + s) <= q); [|pose proof (Zdigits2_ge q (d1 - 1 - d2 + s) Hpos); lia].
    destruct (Zdigits2_bounds (Zpos mx) ltac:(lia)) as (_ & Hlo1 & _).
    destruct (Zdigits2_bounds (Zpos my) ltac:(lia)) as (Hd2 & _ & Hhi2).
    fold d1 in Hlo1. fold d2 in Hd2, Hhi2.
    assert (Hd1 : 0 < d1) by (subst d1; simpl; lia).
    assert (HA : 2 ^ (d1 - 1 - d2 + s) * 2 ^ d2 = 2 ^ (d1 - 1) * 2 ^ s).
    { rewrite <- !pow2_add by lia. f_equal. lia. }
    pose proof (pow2_pos (d1 - 1 - d2 + s) Hpos) as HT.
    destruct (Z_lt_le_dec q (2 ^ (d1 - 1 - d2 + s))) as [Hlt|]; [exfalso|assumption].
    assert (m' < 2 ^ (d1 - 1 - d2 + s) * Zpos my) by nia.
    assert (2 ^ (d1 - 1 - d2 + s) * Zpos my < 2 ^ (d1 - 1 - d2 + s) * 2 ^ d2) by nia.
    assert (2 ^ (d1 - 1) * 2 ^ s <= m') by nia. lia.
  - intros el Hel. unfold brackets. rewrite record_of_loc_m, record_of_loc_inexact.
    pose proof (pow2_pos (e' - el) ltac:(lia)) as HP.
    assert (Hnum : Zpos mx * 2 ^ (ex - ey - el) = m' * 2 ^ (e' - el)).
    { rewrite Hm'. rewrite <- Z.mul_assoc, <- pow2_add by lia. f_equal. f_equal. subst s. lia. }
    rewrite Hnum. split; [exact Hq0|]. split; [nia|]. split.
    + intros Hin. assert (r <> 0).
      { intros E. apply (proj2 (new_location_exact (Zpos my) r)) in E.
        rewrite E in Hin. discriminate. }
      nia.
    + intros Hex. assert (r = 0).
      { apply (new_location_exact (Zpos my)). destruct (new_location (Zpos my) r); [reflexivity|discriminate]. }
      subst r. rewrite Hq. ring.
Qed.

(** A rounding whose value is at most the double [K * 2^E] is [+0] or a
    positive finite double that is at most [K * 2^E]. *)
Lemma rounded_le el num den m e l K E (z : float) :
  0 <= m -> el <= e -> el <= -1074 -> 0 < den ->
  brackets el num den (shr_record_of_loc m l) e ->
  (l = loc_Exact \/ e <= fexp prec emax (Zdigits2 m + e)) ->
  Prim2SF z = binary_round_aux prec emax false m e l ->
  0 <= K <= 2 ^ 53 -> -1074 <= E <= 900 ->
  num <= K * 2 ^ (E - el) * den ->
  nonneg_finite z /\ fo z <= K * 2 ^ (E + 1074).
Proof.
  intros Hm He Hel Hden Hbr Hprec Hz HK HE Hnum.
  destruct (round_me_bounds el num den m e l Hm He Hel Hden Hbr Hprec)
    as (mf & ef & Hr & Hmf & Hef & Hub & _).
  specialize (Hub K E HK ltac:(lia) Hnum).
  rewrite binary_round_aux_eq, Hr in Hz. cbn [fst snd] in Hz.
  pose proof (pow2_pos (E + 1074) ltac:(lia)) as HPE.
  destruct mf as [|q|q]; try lia.
  - split; [now left|]. unfold fo. rewrite Hz. simpl. nia.
  - pose proof (pow2_pos (ef - el) ltac:(lia)) as HPf.
    assert (Hsmall : ef <= E + 53).
    { destruct (Z_lt_le_dec (E + 53) ef) as [Hgt|]; [exfalso|lia].
      assert (2 ^ 53 * 2 ^ (E - el) < 2 ^ (ef - el)).
      { rewrite <- pow2_add by lia. apply pow2_lt. lia. }
      pose proof (pow2_pos (E - el) ltac:(lia)). nia. }
    change (emax - prec) with 971 in Hz.
    destruct (Z.leb_spec ef 971) as [_|]; [|lia].
    pose proof (Prim2SF_valid z) as Hv. rewrite Hz in Hv.
    destruct (valid_finite _ _ _ Hv) as (Hef' & _).
    split; [right; now exists q, ef|]. unfold fo. rewrite Hz. cbn [ord cond_Zopp].
    rewrite (pow2_split (-1074 - el) (ef - el)) in Hub by lia.
    rewrite (pow2_split (-1074 - el) (E - el)) in Hub by lia.
    replace (ef - el - (-1074 - el)) with (ef + 1074) in Hub by lia.
    replace (E - el - (-1074 - el)) with (E + 1074) in Hub by lia.
    pose proof (pow2_pos (-1074 - el) ltac:(lia)) as HP0.
    apply Z.mul_le_mono_pos_l with (p := 2 ^ (-1074 - el)); [exact HP0|]. lia.
Qed.

Lemma nonneg_finite_ord x : nonneg_finite x -> 0 <= fo x /\ PrimFloat.is_nan x = false.
Proof.
  intros Hx. split.
  - unfold fo. destruct Hx as [H|(m & e & H)].
    + rewrite H. simpl. lia.
    + pose proof (Prim2SF_valid x) as Hv. rewrite H in Hv |- *.
      pose proof (ord_finite _ _ _ Hv). cbn [ord cond_Zopp]. lia.
  - apply is_nan_false. destruct Hx as [H|(m & e & H)]; rewrite H; discriminate.
Qed.

Lemma div_le_one x y :
  nonneg_finite x -> (exists my ey, Prim2SF y = S754_finite false my ey) ->
  fo x <= fo y ->
  nonneg_finite (x / y) /\ fo (x / y) <= 2 ^ 1074.
Proof.
  intros Hx (my & ey & Hy) Hle.
  pose proof (div_spec x y) as Hd. rewrite Hy in Hd.
  destruct Hx as [Hx|(mx & ex & Hx)]; rewrite Hx in Hd.
  - split; [now left|]. unfold fo. rewrite Hd. change (0 <= 2 ^ 1074).
    apply Z.lt_le_incl, pow2_pos. lia.
  - unfold SF64div, SFdiv in Hd.
    destruct (SFdiv_core_brackets mx ex my ey) as (q & e' & l & Hcore & Hq & He' & Hprec & Hbr).
    rewrite Hcore in Hd.
    pose proof (Prim2SF_valid x) as Hvx. rewrite Hx in Hvx.
    pose proof (Prim2SF_valid y) as Hvy. rewrite Hy in Hvy.
    destruct (valid_finite _ _ _ Hvx) as (Hex & _). destruct (valid_finite _ _ _ Hvy) as (Hey & _).
    unfold fo in Hle. rewrite Hx, Hy in Hle. cbn [ord cond_Zopp] in Hle.
    set (el := Z.min (-1074) e').
    replace (2 ^ 1074) with (1 * 2 ^ (0 + 1074)) by (rewrite Z.mul_1_l; reflexivity).
    apply (rounded_le el (Zpos mx * 2 ^ (ex - ey - el)) (Zpos my) q e' l 1 0);
      try (subst el; lia); try assumption.
    + apply Hbr. subst el. lia.
    + assert (He : el <= -1074 /\ el <= e') by (subst el; lia). clearbody el.
      rewrite Z.mul_1_l.
      pose proof (pow2_pos (ey + 1074) ltac:(lia)) as HPb.
      apply Z.mul_le_mono_pos_r with (p := 2 ^ (ey + 1074)); [exact HPb|].
      replace (Zpos mx * 2 ^ (ex - ey - el) * 2 ^ (ey + 1074))
        with (Zpos mx * 2 ^ (ex + 1074) * 2 ^ (0 - el)).
      * replace (2 ^ (0 - el) * Zpos my * 2 ^ (ey + 1074))
          with (Zpos my * 2 ^ (ey + 1074) * 2 ^ (0 - el)) by ring.
        apply Z.mul_le_mono_nonneg_r; [apply Z.lt_le_incl, pow2_pos; lia|exact Hle].
      * rewrite <- !Z.mul_assoc, <- !pow2_add by lia. f_equal. f_equal. lia.
Qed.

Lemma mul_percent q :
  nonneg_finite q -> fo q <= 2 ^ 1074 ->
  nonneg_finite (q * 100) /\ fo (q * 100) <= 100 * 2 ^ 1074.
Proof.
  intros Hq Hle.
  pose proof (mul_spec q 100) as Hm.
  change (Prim2SF 100) with (S754_finite false 7036874417766400 (-46)) in Hm.
  destruct Hq as [Hq|(mq & eq & Hq)]; rewrite Hq in Hm.
  - split; [now left|]. unfold fo. rewrite Hm. change (0 <= 100 * 2 ^ 1074).
    pose proof (pow2_pos 1074 ltac:(lia)). lia.
  - unfold SF64mul, SFmul in Hm.
    pose proof (Prim2SF_valid q) as Hv. rewrite Hq in Hv.
    destruct (valid_finite _ _ _ Hv) as (Heq & _).
    unfold fo in Hle. rewrite Hq in Hle. cbn [ord cond_Zopp] in Hle.
    set (el := Z.min (-1074) (eq + -46)).
    assert (He : el <= -1074 /\ el <= eq + -46) by (subst el; lia). clearbody el.
    replace (100 * 2 ^ 1074) with (100 * 2 ^ (0 + 1074)) by reflexivity.
    apply (rounded_le el (Zpos (mq * 7036874417766400) * 2 ^ (eq + -46 - el)) 1
             (Zpos (mq * 7036874417766400)) (eq + -46) loc_Exact 100 0);
      try lia; try assumption.
    + apply exact_brackets; lia.
    + now left.
    + rewrite Z.mul_1_r, Pos2Z.inj_mul.
      change (Zpos 7036874417766400) with (100 * 2 ^ 46).
      pose proof (pow2_pos 1074 ltac:(lia)) as HP.
      apply Z.mul_le_mono_pos_r with (p := 2 ^ 1074); [exact HP|].
      replace (Zpos mq * (100 * 2 ^ 46) * 2 ^ (eq + -46 - el) * 2 ^ 1074)
        with (100 * (Zpos mq * 2 ^ (eq + 1074)) * 2 ^ (0 - el)).
      * replace (100 * 2 ^ (0 - el) * 2 ^ 1074) with (100 * 2 ^ 1074 * 2 ^ (0 - el)) by ring.
        apply Z.mul_le_mono_nonneg_r; [apply Z.lt_le_incl, pow2_pos; lia|lia].
      * replace (Zpos mq * (100 * 2 ^ 46) * 2 ^ (eq + -46 - el) * 2 ^ 1074)
          with (100 * Zpos mq * (2 ^ 46 * 2 ^ (eq + -46 - el) * 2 ^ 1074)) by ring.
        rewrite <- !pow2_add by lia.
        replace (100 * (Zpos mq * 2 ^ (eq + 1074)) * 2 ^ (0 - el))
          with (100 * Zpos mq * (2 ^ (eq + 1074) * 2 ^ (0 - el))) by ring.
        rewrite <- pow2_add by lia. f_equal. f_equal. lia.
Qed.

Lemma finite_unique m e :
  valid_binary (S754_finite false m e) = true ->
  Zpos m * 2 ^ (e + 1074) = 2 ^ 53 * 2 ^ 1074 ->
  m = 4503599627370496%positive /\ e = 1.
Proof.
  intros Hv Hval.
  pose proof (compare_magnitude m e 4503599627370496 1 Hv eq_refl) as H.
  replace (Zpos 4503599627370496 * 2 ^ (1 + 1074)) with (2 ^ 53 * 2 ^ 1074) in H by reflexivity.
  rewrite Hval, Z.compare_refl in H.
  destruct (Z.compare_spec e 1) as [->|?|?]; try discriminate.
  split; [|reflexivity]. now apply Pos.compare_eq.
Qed.

(** One more [++] on a counter that holds [k]: the double holds [k + 1],
    or stays at [2^53]. *)
Lemma increment_count x k :
  nonneg_finite x -> 0 <= k <= 2 ^ 53 -> fo x = k * 2 ^ 1074 ->
  (exists m e, Prim2SF (x + 1) = S754_finite false m e) /\
  fo (x + 1) = Z.min (k + 1) (2 ^ 53) * 2 ^ 1074.
Proof.
  intros Hx Hk Hfo.
  pose proof (add_spec x 1) as Ha.
  change (Prim2SF 1) with (S754_finite false 4503599627370496 (-52)) in Ha.
  pose proof (pow2_pos 1074 ltac:(lia)) as HP.
  assert (H53 : 0 < 2 ^ 53) by (apply pow2_pos; lia).
  destruct Hx as [Hx|(mx & ex & Hx)]; unfold fo in Hfo; rewrite Hx in Hfo, Ha.
  - cbn [ord] in Hfo. assert (k = 0) by nia. subst k.
    split; [eexists; eexists; exact Ha|]. unfold fo. rewrite Ha.
    rewrite Z.min_l by lia. reflexivity.
  - cbn [ord cond_Zopp] in Hfo.
    pose proof (Prim2SF_valid x) as Hv. rewrite Hx in Hv.
    destruct (valid_finite _ _ _ Hv) as (Hex & _).
    destruct (Z_lt_le_dec k (2 ^ 53)) as [Hlt|Hge].
    + unfold SF64add, SFadd in Ha. set (ez := Z.min ex (-52)) in Ha.
      pose proof (aligned_ord false mx ex ez ltac:(lia) ltac:(lia)) as Ax.
      pose proof (aligned_ord false 4503599627370496 (-52) ez ltac:(lia) ltac:(lia)) as A1.
      cbn [cond_Zopp] in Ax, A1, Ha.
      set (a := fst (shl_align mx ex ez)) in *.
      set (b := fst (shl_align 4503599627370496 (-52) ez)) in *.
      change (Zpos a + Zpos b) with (Zpos (a + b)) in Ha. unfold binary_normalize in Ha.
      assert (Hval : Zpos (a + b) * 2 ^ (ez + 1074) = (k + 1) * 2 ^ (0 + 1074)).
      { rewrite Pos2Z.inj_add, Z.mul_add_distr_r, Ax, A1, Hfo.
        change (Zpos 4503599627370496 * 2 ^ (-52 + 1074)) with (2 ^ 1074).
        change (0 + 1074) with 1074. ring. }
      destruct (binary_round_bounds false (a + b) ez ltac:(lia))
        as (mf & ef & Hr & Hmf & Hef & Hub & Hlb).
      specialize (Hub (k + 1) 0 ltac:(lia) ltac:(lia) ltac:(lia)).
      specialize (Hlb (k + 1) 0 ltac:(lia) ltac:(lia) ltac:(lia)).
      change (0 + 1074) with 1074 in *.
      assert (Hmfv : mf * 2 ^ (ef + 1074) = (k + 1) * 2 ^ 1074) by lia.
      rewrite Hr in Ha. pose proof (pow2_pos (ef + 1074) ltac:(lia)) as HPf.
      destruct mf as [|q|q]; try nia.
      assert (Hsmall : ef <= 53).
      { destruct (Z_lt_le_dec 53 ef) as [Hgt|]; [exfalso|lia].
        assert (2 ^ 53 * 2 ^ 1074 < 2 ^ (ef + 1074)).
        { rewrite <- pow2_add by lia. apply pow2_lt. lia. }
        nia. }
      change (emax - prec) with 971 in Ha.
      destruct (Z.leb_spec ef 971) as [_|]; [|lia].
      split; [eexists; eexists; exact Ha|]. unfold fo. rewrite Ha. cbn [ord cond_Zopp].
      rewrite Z.min_l by lia. exact Hmfv.
    + assert (k = 2 ^ 53) by lia. subst k.
      destruct (finite_unique mx ex Hv Hfo) as [-> ->].
      assert (Hsat : SF64add (S754_finite false 4503599627370496 1)
                       (S754_finite false 4503599627370496 (-52)) =
                     S754_finite false 4503599627370496 1) by (vm_compute; reflexivity).
      rewrite Hsat in Ha.
      split; [eexists; eexists; exact Ha|]. unfold fo. rewrite Ha.
      rewrite Z.min_r by lia. reflexivity.
Qed.

Lemma count_number_spec n :
  nonneg_finite (count_number n) /\
  fo (count_number n) = Z.min (Z.of_nat n) (2 ^ 53) * 2 ^ 1074 /\
  (0 < n -> exists m e, Prim2SF (count_number n) = S754_finite false m e)%nat.
Proof.
  assert (H53 : 0 < 2 ^ 53) by (apply pow2_pos; lia).
  induction n as [|n (Hnn & Hfo & _)].
  - split; [now left|]. split; [reflexivity|lia].
  - change (count_number (S n)) with (count_number n + 1)%float.
    destruct (increment_count _ (Z.min (Z.of_nat n) (2 ^ 53)) Hnn ltac:(lia) Hfo)
      as [Hfin Hfo'].
    split; [now right|]. split; [|intros _; exact Hfin].
    rewrite Hfo'. f_equal. lia.
Qed.

Lemma small_integer_percent n :
  0 < n <= 100 ->
  (0 <=? of_uint63 (Uint63.of_Z n))%float = true /\
  (of_uint63 (Uint63.of_Z n) <=? 100)%float = true.
Proof.
  intros Hn.
  assert (H : forallb (fun k => let x := of_uint63 (Uint63.of_Z (Z.of_nat k)) in
                                (0 <=? x)%float && (x <=? 100)%float) (seq 0 101) = true)
    by (vm_compute; reflexivity).
  rewrite forallb_forall in H. specialize (H (Z.to_nat n)).
  rewrite Z2Nat.id in H by lia. cbv zeta in H.
  apply andb_true_iff. apply H. apply in_seq. lia.
Qed.

Lemma percent_itself p :
  nonneg_finite p -> fo p <= 100 * 2 ^ 1074 ->
  (0 <=? p)%float = true /\ (p <=? 100)%float = true.
Proof.
  intros Hp Hle. destruct (nonneg_finite_ord p Hp) as [H0 Hn].
  rewrite !leb_ord by (assumption || reflexivity).
  change (fo 0) with 0. change (fo 100) with (7036874417766400 * 2 ^ (-46 + 1074)).
  replace (7036874417766400 * 2 ^ (-46 + 1074)) with (100 * 2 ^ 1074) by reflexivity.
  split; apply Z.leb_le; lia.
Qed.

Lemma Math_round_percent p :
  nonneg_finite p -> fo p <= 100 * 2 ^ 1074 ->
  (0 <=? Math_round p)%float = true /\ (Math_round p <=? 100)%float = true.
Proof.
  intros Hp Hle. pose proof (percent_itself p Hp Hle) as Hself.
  unfold Math_round. destruct Hp as [Hp|(m & e & Hp)]; rewrite Hp; [exact Hself|].
  destruct (Z.leb_spec 0 e) as [|He]; [exact Hself|].
  pose proof (Prim2SF_valid p) as Hv. rewrite Hp in Hv.
  destruct (valid_finite _ _ _ Hv) as (Hev & _).
  unfold fo in Hle. rewrite Hp in Hle. cbn [ord cond_Zopp] in Hle. cbn [cond_Zopp].
  set (n := (2 * Zpos m + 2 ^ (- e)) / 2 ^ (1 - e)).
  pose proof (pow2_pos (- e) ltac:(lia)) as HP.
  assert (HP1 : 2 ^ (1 - e) = 2 * 2 ^ (- e)).
  { replace (1 - e) with (- e + 1) by lia. apply pow2_succ. lia. }
  assert (Hm : Zpos m <= 100 * 2 ^ (- e)).
  { pose proof (pow2_pos (e + 1074) ltac:(lia)) as HPe.
    apply Z.mul_le_mono_pos_r with (p := 2 ^ (e + 1074)); [exact HPe|].
    rewrite <- Z.mul_assoc, <- pow2_add by lia.
    replace (- e + (e + 1074)) with 1074 by lia. exact Hle. }
  assert (Hn : 0 <= n <= 100).
  { subst n. rewrite HP1. split.
    - apply Z.div_pos; lia.
    - apply Z.lt_succ_r. apply Z.div_lt_upper_bound; lia. }
  destruct (Z.eqb_spec n 0) as [|Hn0].
  - split; reflexivity.
  - destruct (Z.ltb_spec 0 n) as [|]; [|lia].
    apply small_integer_percent. lia.
Qed.

Lemma rateOf_percent agent :
  (bountiesCompleted agent <= bountiesClaimed agent)%nat ->
  (0 <=? rateOf agent)%float = true /\ (rateOf agent <=? 100)%float = true.
Proof.
  intros Hle. unfold rateOf.
  destruct (Nat.ltb_spec 0 (bountiesClaimed agent)) as [Hpos|]; [|split; reflexivity].
  destruct (count_number_spec (bountiesCompleted agent)) as (Hc & Hfc & _).
  destruct (count_number_spec (bountiesClaimed agent)) as (_ & Hfn & Hn).
  destruct (div_le_one _ _ Hc (Hn Hpos)) as [Hq Hq1].
  { rewrite Hfc, Hfn. apply Z.mul_le_mono_nonneg_r; [apply Z.lt_le_incl, pow2_pos|]; lia. }
  destruct (mul_percent _ Hq Hq1) as [Hp Hp1].
  now apply Math_round_percent.
Qed.

End Percent.

(** ** C1: one profile per address *)

Section OneProfilePerAddress.

Variable Number : string -> float.
Variables (bounties : list Bounty) (onChainData : Map OnChainReputation).

Lemma claimsOf_In k b :
  In b (claimsOf k bounties) <-> In b bounties /\ claimantKey b = Some k.
Proof.
  unfold claimsOf. rewrite filter_In. split; intros [Hb Hk]; split; try exact Hb.
  - destruct (claimantKey b) as [k'|]; [|discriminate].
    now apply String.eqb_eq in Hk; subst.
  - now rewrite Hk, String.eqb_refl.
Qed.

Lemma claimant_key x :
  claimant bounties x -> claimsOf (toLowerCase x) bounties <> [].
Proof.
  intros (Hx & b & Hb & Hc) Hnil.
  assert (Hin : In b (claimsOf (toLowerCase x) bounties)).
  { apply claimsOf_In. split; [exact Hb|].
    unfold claimantKey, or_else. rewrite Hc.
    now apply truthy_string_true in Hx; rewrite Hx. }
  now rewrite Hnil in Hin.
Qed.

(** The first claimant's address, lower-cased, is the key. *)
Lemma profileAt_claimed_address k p :
  profileAt Number bounties onChainData k = Some p ->
  claimsOf k bounties <> [] ->
  exists b a, In b bounties /\ claimedBy b = Some a /\ a <> EmptyString /\
              k = toLowerCase a /\ address p = a.
Proof.
  unfold profileAt. destruct (claimsOf k bounties) as [|b0 rest] eqn:Hcl; [congruence|].
  intros [= <-] _.
  assert (Hin : In b0 (claimsOf k bounties)) by (rewrite Hcl; now left).
  apply claimsOf_In in Hin. destruct Hin as [Hb Hk].
  destruct (claimantKey_Some _ _ Hk) as (a & Ha & Ht & ->).
  exists b0, a. rewrite Ha. repeat split; try assumption.
  - now apply truthy_string_true.
  - simpl. now destruct (recordAll_fields Number rest
                           (recordBounty Number b0
                              (claimantProfile a (Map_get onChainData (toLowerCase a)))))
      as (-> & _).
Qed.

Lemma profileAt_onchain_address k p :
  profileAt Number bounties onChainData k = Some p ->
  claimsOf k bounties = [] ->
  exists oc, In (k, oc) onChainData /\ address p = oc_address oc /\
             bountiesClaimed p = 0 /\ history p = [] /\
             totalEarnings p = 0%float.
Proof.
  unfold profileAt. intros H Hcl. rewrite Hcl in H.
  destruct (Map_get onChainData k) as [oc|] eqn:E; [|discriminate].
  injection H as <-. exists oc. repeat split. now apply Map_get_In.
Qed.

Hypothesis keyed : keyedByLowerCase onChainData.

Lemma profile_key k p :
  In (k, p) (agentsMap Number bounties onChainData) -> toLowerCase (address p) = k.
Proof.
  intros H. apply agentsMap_In in H.
  destruct (claimsOf k bounties) as [|b0 rest] eqn:Hcl.
  - destruct (profileAt_onchain_address _ _ H Hcl) as (oc & Hoc & -> & _).
    symmetry. now apply keyed.
  - destruct (profileAt_claimed_address k p H) as (b & a & _ & _ & _ & -> & ->);
      [congruence|reflexivity].
Qed.

Lemma onchain_key_lower k : In k (Map_keys onChainData) -> toLowerCase k = k.
Proof.
  intros H. apply in_map_iff in H. destruct H as ([k' oc] & <- & H). simpl.
  rewrite (keyed _ _ H). apply toLowerCase_idempotent.
Qed.

Lemma known_key x :
  known bounties onChainData x ->
  In (toLowerCase x) (Map_keys (agentsMap Number bounties onChainData)).
Proof.
  intros Hx. apply Map_has_true. unfold Map_has.
  rewrite agentsMap_get. unfold profileAt.
  destruct Hx as [Hx|Hx].
  - apply claimant_key in Hx. now destruct (claimsOf (toLowerCase x) bounties).
  - rewrite (onchain_key_lower _ Hx).
    apply Map_has_true in Hx. unfold Map_has in Hx.
    destruct (claimsOf x bounties); [|reflexivity].
    now destruct (Map_get onChainData x).
Qed.

(** C1 (amended): when every entry of the on-chain map is stored under the
    lower-cased address it carries, each address that is a non-empty
    [claimedBy] of a bounty or a key of the map is the address, compared
    case-insensitively, of exactly one profile of [aggregateAgents], and
    every profile carries such an address. *)
Theorem aggregate_one_profile_per_address :
  (forall x, known bounties onChainData x ->
             occurrences x (aggregateAgents Number bounties onChainData) = 1) /\
  (forall p, In p (aggregateAgents Number bounties onChainData) ->
             exists x, known bounties onChainData x /\
                       toLowerCase (address p) = toLowerCase x).
Proof.
  split.
  - intros x Hx. unfold occurrences, aggregateAgents.
    rewrite (filter_length_perm _ _ _ (sort_perm _ _)).
    rewrite (count_values_by_key _ _ (toLowerCase x)).
    + apply count_key_once; [apply agentsMap_NoDup|now apply known_key].
    + intros k p H. now rewrite (profile_key _ _ H).
  - intros p Hp. unfold aggregateAgents in Hp.
    apply (Permutation_in _ (sort_perm _ _)) in Hp.
    apply in_map_iff in Hp. destruct Hp as ([k q] & Heq & Hin). simpl in Heq. subst q.
    pose proof (profile_key _ _ Hin) as Hk.
    apply agentsMap_In in Hin.
    destruct (claimsOf k bounties) as [|b0 rest] eqn:Hcl.
    + destruct (profileAt_onchain_address _ _ Hin Hcl) as (oc & Hoc & _).
      assert (Hkeys : In k (Map_keys onChainData)).
      { change k with (fst (k, oc)). now apply in_map. }
      exists k. split; [now right|]. now rewrite (onchain_key_lower _ Hkeys).
    + destruct (profileAt_claimed_address k p Hin) as (b & a & Hb & Ha & Hne & -> & ->);
        [congruence|].
      exists a. split; [|reflexivity]. left. split; [exact Hne|]. now exists b.
Qed.

End OneProfilePerAddress.

Lemma aggregate_In Number bounties onChainData p :
  In p (aggregateAgents Number bounties onChainData) <->
  exists k, In (k, p) (agentsMap Number bounties onChainData).
Proof.
  unfold aggregateAgents. split.
  - intros Hp. apply (Permutation_in _ (sort_perm _ _)) in Hp.
    apply in_map_iff in Hp. destruct Hp as ([k q] & Heq & Hin). simpl in Heq. subst q.
    now exists k.
  - intros [k Hin]. apply (Permutation_in _ (Permutation_sym (sort_perm _ _))).
    change p with (snd (k, p)). now apply in_map.
Qed.

(** A map with an entry under a key that is not lower-cased: the claimant
    "0xABC" gets a profile of its own under "0xabc" and the entry another. *)
Lemma one_profile_per_address_counterexample :
  ~ (forall x, known [exampleBounty "completed" "0xABC" (Some "5000000")] upperCaseKeyMap x ->
               occurrences x
                 (aggregateAgents Number_decimal
                    [exampleBounty "completed" "0xABC" (Some "5000000")] upperCaseKeyMap) = 1).
Proof.
  intros H. specialize (H "0xABC").
  assert (Hk : known [exampleBounty "completed" "0xABC" (Some "5000000")] upperCaseKeyMap "0xABC").
  { right. simpl. now left. }
  specialize (H Hk). vm_compute in H. discriminate.
Qed.

Lemma aggregate_one_profile_per_address_witness :
  keyedByLowerCase lowerCaseKeyMap /\
  occurrences "0xdef"
    (aggregateAgents Number_decimal
       [exampleBounty "completed" "0xABC" (Some "5000000")] lowerCaseKeyMap) = 1.
Proof.
  assert (Hk : keyedByLowerCase lowerCaseKeyMap).
  { intros k v [H|[]]. inversion H. reflexivity. }
  split; [exact Hk|].
  apply (aggregate_one_profile_per_address Number_decimal _ _ Hk).
  right. simpl. left. reflexivity.
Defined.

(** ** C10: one history entry per claimed bounty *)

(** C10: in every profile of [aggregateAgents], [bountiesClaimed] is the
    length of [history]: both are the number of bounties recorded under the
    profile's key, and a profile that comes from the on-chain map alone has
    [bountiesClaimed = 0] and an empty history. *)
Theorem claimed_is_history_length Number bounties onChainData p :
  In p (aggregateAgents Number bounties onChainData) ->
  bountiesClaimed p = List.length (history p) /\
  exists k, In (k, p) (agentsMap Number bounties onChainData) /\
            bountiesClaimed p = List.length (claimsOf k bounties) /\
            (claimsOf k bounties = [] -> bountiesClaimed p = 0 /\ history p = []).
Proof.
  intros Hp. apply aggregate_In in Hp. destruct Hp as [k Hin].
  pose proof Hin as Hat. apply agentsMap_In in Hat. unfold profileAt in Hat.
  assert (H : bountiesClaimed p = List.length (claimsOf k bounties) /\
              List.length (history p) = List.length (claimsOf k bounties) /\
              (claimsOf k bounties = [] -> history p = [])).
  { destruct (claimsOf k bounties) as [|b0 rest] eqn:Hcl.
    - destruct (Map_get onChainData k); [|discriminate].
      injection Hat as <-. simpl. auto.
    - injection Hat as <-.
      destruct (recordAll_fields Number (b0 :: rest)
                  (claimantProfile (match claimedBy b0 with Some a => a | None => EmptyString end)
                     (Map_get onChainData k))) as (_ & _ & _ & Hc & _ & Hh & _).
      simpl in *. repeat split; try lia. discriminate. }
  destruct H as (Hc & Hh & H0). split; [lia|].
  exists k. split; [exact Hin|]. split; [exact Hc|].
  intros E. split; [now rewrite E in Hc|now apply H0].
Qed.

Lemma claimed_is_history_length_witness :
  bountiesClaimed exampleProfile = List.length (history exampleProfile).
Proof.
  apply (claimed_is_history_length Number_decimal
           [exampleBounty "completed" "0xABC" (Some "5000000")] []).
  left. reflexivity.
Defined.


(** ** C3: earnings count completed bounties only *)

Lemma rewardOf_completed Number b :
  isCompleted b = true -> rewardOf Number b = amountOf Number b.
Proof.
  unfold isCompleted, rewardOf, amountOf, paymentAmount. intros ->.
  destruct (payment b) as [pay|]; [|reflexivity].
  unfold or_else, nonEmpty, truthy_string.
  destruct (grossAmount pay) as [ga|], (grossReward pay) as [gr|];
    try destruct (ga =? EmptyString); try destruct (gr =? EmptyString); reflexivity.
Qed.

Lemma earnings_completed Number l e0 :
  fold_left (fun e b => (e + rewardOf Number b)%float) (filter isCompleted l) e0 =
  fold_left (fun e b => (e + amountOf Number b)%float) (filter isCompleted l) e0.
Proof.
  revert e0. induction l as [|b l IH]; intros e0; simpl; [reflexivity|].
  destruct (isCompleted b) eqn:E; simpl; [|apply IH].
  now rewrite IH, rewardOf_completed.
Qed.

(** C3 (amended): the [totalEarnings] of every profile of [aggregateAgents]
    is the sum, over exactly those bounties recorded under the profile's key
    (its lower-cased address, for a profile with bounties) whose status is
    "completed", of the bounty's amount: [payment.grossAmount] when present
    and not empty, otherwise [payment.grossReward] when present and not
    empty, else 0, divided by 1,000,000. A single completed bounty with
    [grossAmount] "5000000" and an empty on-chain map yields
    [totalEarnings = 5]. *)
Theorem total_earnings_completed_only Number :
  (forall bounties onChainData p,
      In p (aggregateAgents Number bounties onChainData) ->
      exists k, In (k, p) (agentsMap Number bounties onChainData) /\
                (claimsOf k bounties <> [] -> k = toLowerCase (address p)) /\
                totalEarnings p =
                earnings (amountOf Number) (filter isCompleted (claimsOf k bounties))) /\
  (Number "5000000" = 5000000%float ->
   aggregateAgents Number [exampleBounty "completed" "0xABC" (Some "5000000")] [] =
   [exampleProfile]).
Proof.
  split.
  - intros bounties onChainData p Hp.
    apply aggregate_In in Hp. destruct Hp as [k Hin]. exists k. split; [exact Hin|].
    apply agentsMap_In in Hin.
    destruct (claimsOf k bounties) as [|b0 rest] eqn:Hcl.
    + split; [congruence|].
      now destruct (profileAt_onchain_address Number _ _ _ _ Hin Hcl) as (_ & _ & _ & _ & _ & ->).
    + split.
      * intros _.
        destruct (profileAt_claimed_address Number bounties onChainData k p Hin)
          as (_ & a & _ & _ & _ & -> & ->); [congruence|reflexivity].
      * unfold profileAt in Hin. rewrite Hcl in Hin. injection Hin as <-.
        destruct (recordAll_fields Number (b0 :: rest)
                    (claimantProfile (match claimedBy b0 with Some a => a | None => EmptyString end)
                       (Map_get onChainData k))) as (_ & _ & _ & _ & _ & _ & He).
        unfold earnings. rewrite <- earnings_completed. exact He.
  - intros HN. unfold aggregateAgents, agentsMap. simpl.
    unfold bountyStep, recordBounty, rewardOf, paymentAmount. simpl. rewrite HN.
    reflexivity.
Qed.

Lemma total_earnings_completed_only_witness :
  aggregateAgents Number_decimal [exampleBounty "completed" "0xABC" (Some "5000000")] [] =
  [exampleProfile].
Proof.
  apply (proj2 (total_earnings_completed_only Number_decimal)). reflexivity.
Defined.

(** With an empty [grossAmount] the engine falls through to [grossReward]:
    it credits 5 where the amount taken from the present [grossAmount] is 0. *)
Lemma total_earnings_counterexample :
  ~ (forall p, In p (aggregateAgents Number_decimal [emptyAmountBounty] []) ->
               totalEarnings p =
               earnings (amountOfPresent Number_decimal)
                 (filter isCompleted
                    (claimsOf (toLowerCase (address p)) [emptyAmountBounty]))).
Proof.
  intros H.
  specialize (H _ (or_introl eq_refl)).
  apply (f_equal (fun x => PrimFloat.eqb x 5)) in H.
  vm_compute in H. discriminate.
Qed.


(** ** C2: a reputation read never fails *)

(** C2: [fetchOnChainReputation] completes normally for every registry and
    address, with a record for that address: the score is 0 if the score
    read fails, the feedback is empty if the feedback read fails or yields
    something that is not an array, and when both reads fail the result is
    [{address, reputationScore: 0, feedback: []}]. *)
Theorem fetchOnChainReputation_never_throws reg address :
  exists r,
    fetchOnChainReputation reg address = Normal r /\
    oc_address r = address /\
    (getReputation reg address = Rejected -> reputationScore r = 0%float) /\
    (getFeedback reg address = Rejected \/
     getFeedback reg address = Fulfilled FeedbackOther -> feedback r = []) /\
    (getReputation reg address = Rejected -> getFeedback reg address = Rejected ->
     r = {| oc_address := address; reputationScore := 0; feedback := [] |}).
Proof.
  unfold fetchOnChainReputation, fetchOnChainReputation_try.
  eexists. split; [reflexivity|].
  destruct (getFeedback reg address) as [[elems|]|] eqn:Hf; simpl;
    [destruct (feedbackEntries elems) as [entries|]; simpl| |];
    repeat split; intros;
    try reflexivity; try discriminate;
    try match goal with
        | H : _ \/ _ |- _ => destruct H; discriminate
        | H : getReputation _ _ = Rejected |- _ => rewrite H; reflexivity
        end.
Qed.

Lemma fetchOnChainReputation_never_throws_witness :
  exists r,
    fetchOnChainReputation deadRegistry "0xABC" = Normal r /\
    r = {| oc_address := "0xABC"; reputationScore := 0; feedback := [] |}.
Proof.
  destruct (fetchOnChainReputation_never_throws deadRegistry "0xABC")
    as (r & Hr & _ & _ & _ & Hdead).
  exists r. split; [exact Hr|exact (Hdead eq_refl eq_refl)].
Defined.

Lemma fetchOnChainReputation_address reg address :
  exists r, fetchOnChainReputation reg address = Normal r /\ oc_address r = address.
Proof.
  unfold fetchOnChainReputation, fetchOnChainReputation_try.
  eexists. split; [reflexivity|].
  destruct (getFeedback reg address) as [[elems|]|]; simpl; try reflexivity.
  destruct (feedbackEntries elems); reflexivity.
Qed.

(** ** A refresh on any array *)



Lemma filterTitled_typed items :
  filterTitled (JsonArray items) = Normal (map Typed (filter isTitled items)).
Proof.
  unfold filterTitled.
  induction items as [|b items IH]; simpl; [reflexivity|].
  rewrite IH. simpl. unfold isTitled. now destruct (or_else (title b) (fun _ => true) false).
Qed.

Lemma asBounty_typed items : Array_map asBounty (map Typed items) = Normal items.
Proof. induction items as [|b items IH]; simpl; [reflexivity|now rewrite IH]. Qed.

(** The addresses read from elements that [aggregateAgents] can read. *)
Lemma claimed_read elements bounties :
  Array_map asBounty elements = Normal bounties ->
  exists claimed,
    Array_filter hasClaimedBy elements = Normal claimed /\
    Array_map claimedByLowerCase claimed =
    Normal (flat_map (fun b => or_else (claimedBy b) (fun a => [toLowerCase a]) []) bounties).
Proof.
  revert bounties. induction elements as [|e elements IH]; intros bounties H; simpl in *.
  - injection H as <-. exists []. auto.
  - destruct (asBounty e) as [b|] eqn:E; [|discriminate]. simpl in H.
    destruct (Array_map asBounty elements) as [bs|]; [|discriminate].
    injection H as <-. destruct (IH bs eq_refl) as (claimed & -> & Hc).
    assert (Hb : hasClaimedBy e = Normal (or_else (claimedBy b) (fun _ => true) false) /\
                 (or_else (claimedBy b) (fun _ => true) false = true ->
                  exists a, claimedBy b = Some a /\
                            claimedByLowerCase e = Normal (toLowerCase a))).
    { assert (Hs : forall b0, e = Typed b0 \/ e = TagsUnreadable b0 \/ e = AmountUnreadable b0 ->
                     b0 = b ->
                     hasClaimedBy e = Normal (or_else (claimedBy b) (fun _ => true) false) /\
                     (or_else (claimedBy b) (fun _ => true) false = true ->
                      exists a, claimedBy b = Some a /\
                                claimedByLowerCase e = Normal (toLowerCase a))).
      { intros b0 He ->. split; [now destruct He as [->|[->| ->]]|].
        unfold or_else. destruct (claimedBy b) as [a|] eqn:Ea; [|discriminate].
        intros _. exists a. destruct He as [->|[->| ->]]; simpl; now rewrite Ea. }
      destruct e as [b0| |b0|b0|b0]; simpl in E; try discriminate.
      - injection E as E. apply (Hs b0); auto.
      - destruct (or_else (claimedBy b0) (fun _ => true) false); [discriminate|].
        injection E as E. apply (Hs b0); auto.
      - destruct (or_else (claimedBy b0) (fun _ => true) false && (status b0 =? "completed"));
          [discriminate|].
        injection E as E. apply (Hs b0); auto. }
    destruct Hb as [-> Hb]. cbn [bind flat_map].
    destruct (or_else (claimedBy b) (fun _ => true) false) eqn:Ec.
    + destruct (Hb eq_refl) as (a & Ea & El). exists (e :: claimed). split; [reflexivity|].
      simpl. rewrite El, Hc. simpl. unfold or_else in *. rewrite Ea in *.
      now destruct (truthy_string a).
    + exists claimed. split; [reflexivity|]. rewrite Hc. f_equal.
      unfold or_else in *. destruct (claimedBy b) as [a|]; [|reflexivity].
      now destruct (truthy_string a).
Qed.

Lemma uniqueAddressesOf_read elements bounties :
  Array_map asBounty elements = Normal bounties ->
  uniqueAddressesOf elements = Normal (uniqueAddresses bounties).
Proof.
  intros H. destruct (claimed_read _ _ H) as (claimed & Hf & Hm).
  unfold uniqueAddressesOf. rewrite Hf. cbn [bind]. now rewrite Hm.
Qed.

(** A refresh that can read the array aggregates it as an array of
    bounties of the declared type. *)
Lemma refresh_eq Number cache w later bounties :
  titledBounties w = Normal bounties ->
  refresh Number cache w later =
  (Normal (aggregateAgents Number bounties (backfilled w bounties)),
   {| cachedAgents := Some (aggregateAgents Number bounties (backfilled w bounties));
      cacheTime := later |},
   [FetchBounties; EnumerateAgents]
     ++ map BackfillReputation (missingAddresses w bounties) ++ [Aggregate]).
Proof.
  unfold titledBounties, refresh. intros H.
  destruct (match bountyApi w with
            | Fulfilled value => filterTitled value
            | Rejected => Normal []
            end) as [elements|]; [|discriminate].
  cbn [bind] in *. rewrite (uniqueAddressesOf_read _ _ H). cbn [bind].
  unfold aggregateElements. rewrite H. reflexivity.
Qed.

(** A refresh that cannot read the array throws and leaves the cache. *)
Lemma refresh_throw Number cache w later :
  titledBounties w = Throw ->
  exists effects, refresh Number cache w later = (Throw, cache, effects).
Proof.
  unfold titledBounties, refresh. intros H.
  destruct (match bountyApi w with
            | Fulfilled value => filterTitled value
            | Rejected => Normal []
            end) as [elements|]; cbn [bind] in *; [|now eexists].
  destruct (uniqueAddressesOf elements) as [addresses|]; cbn [bind]; [|now eexists].
  unfold aggregateElements. rewrite H. cbn [bind]. now eexists.
Qed.

Lemma titledBounties_typed w items :
  bountyApi w = Fulfilled (JsonArray items) ->
  titledBounties w = Normal (filter isTitled items).
Proof.
  intros H. unfold titledBounties. rewrite H, filterTitled_typed. apply asBounty_typed.
Qed.

Lemma titledBounties_rejected w : bountyApi w = Rejected -> titledBounties w = Normal [].
Proof. intros H. unfold titledBounties. now rewrite H. Qed.





(** ** C7: the cache *)

Lemma refresh_effects Number cache w later :
  exists effects,
    snd (refresh Number cache w later) = FetchBounties :: EnumerateAgents :: effects.
Proof.
  unfold refresh.
  destruct (bounties <- match bountyApi w with
                        | Fulfilled value => filterTitled value
                        | Rejected => Normal []
                        end ;;
            uniqueAddresses <- uniqueAddressesOf bounties ;;
            Normal (bounties, uniqueAddresses)) as [[bounties addresses]|];
    [|now exists []].
  cbv zeta. destruct (aggregateElements Number bounties _); simpl; now eexists.
Qed.

(** C7: a call of [getAgents] made while a cached result exists and less
    than 60 seconds (60000 ms) have elapsed since [cacheTime] returns the
    stored sequence, leaves the cache as it is and issues no fetch, read or
    aggregation; [cacheTime] is the clock reading taken when the
    computation that stored the result completed; and a call made when
    nothing is cached, or 60000 ms or more after [cacheTime], computes
    again: it is the refresh, which starts by fetching the bounties and
    enumerating the registry. *)
Theorem getAgents_memoized Number :
  (forall cache w now later agents,
      cachedAgents cache = Some agents ->
      (now - cacheTime cache < 60000)%Z ->
      getAgents Number cache w now later = (Normal agents, cache, [])) /\
  (forall cache w now later agents cache' effects,
      cacheHit cache now = None ->
      getAgents Number cache w now later = (Normal agents, cache', effects) ->
      cachedAgents cache' = Some agents /\ cacheTime cache' = later /\
      effects <> []) /\
  (forall cache w now later,
      cachedAgents cache = None \/ (60000 <= now - cacheTime cache)%Z ->
      cacheHit cache now = None /\
      getAgents Number cache w now later = refresh Number cache w later /\
      exists effects,
        snd (getAgents Number cache w now later) =
        FetchBounties :: EnumerateAgents :: effects).
Proof.
  split; [|split].
  - intros cache w now later agents Hc Ht. unfold getAgents, cacheHit. rewrite Hc.
    unfold CACHE_TTL. destruct (Z.ltb_spec (now - cacheTime cache) 60000); [reflexivity|lia].
  - intros cache w now later agents cache' effects Hmiss H.
    unfold getAgents in H. rewrite Hmiss in H.
    destruct (titledBounties w) as [bounties|] eqn:E.
    + rewrite (refresh_eq _ _ _ _ _ E) in H. injection H as <- <- <-.
      simpl. repeat split. discriminate.
    + destruct (refresh_throw Number cache w later E) as (effects' & Hr).
      rewrite Hr in H. discriminate.
  - intros cache w now later Hold.
    assert (Hmiss : cacheHit cache now = None).
    { unfold cacheHit, CACHE_TTL. destruct (cachedAgents cache) as [agents|]; [|reflexivity].
      destruct Hold as [H|H]; [discriminate|].
      destruct (Z.ltb_spec (now - cacheTime cache) 60000); [lia|reflexivity]. }
    split; [exact Hmiss|]. unfold getAgents. rewrite Hmiss. split; [reflexivity|].
    apply refresh_effects.
Qed.

Lemma getAgents_memoized_witness :
  getAgents Number_decimal
    {| cachedAgents := Some [exampleProfile]; cacheTime := 1000 |}
    objectBodyWorld 60999 61500 =
  (Normal [exampleProfile], {| cachedAgents := Some [exampleProfile]; cacheTime := 1000 |}, []) /\
  getAgents Number_decimal
    {| cachedAgents := Some [exampleProfile]; cacheTime := 1000 |}
    objectBodyWorld 61000 61500 =
  refresh Number_decimal
    {| cachedAgents := Some [exampleProfile]; cacheTime := 1000 |} objectBodyWorld 61500.
Proof.
  split.
  - apply (proj1 (getAgents_memoized Number_decimal)); [reflexivity|]. simpl. lia.
  - apply (proj2 (proj2 (getAgents_memoized Number_decimal))). right. simpl. lia.
Defined.

(** ** C8: enumeration of the registry *)

Lemma place_perm {A : Type} latency (t : nat * A) l :
  Permutation (place latency t l) (t :: l).
Proof.
  induction l as [|u l IH]; simpl; [reflexivity|].
  destruct (latency (fst u) <? latency (fst t))%nat; [|reflexivity].
  rewrite IH. apply perm_swap.
Qed.

Lemma combine_seq_snd {A : Type} (l : list A) n :
  map snd (combine (seq n (List.length l)) l) = l.
Proof.
  revert n. induction l as [|x l IH]; intros n; simpl; [reflexivity|]. now rewrite IH.
Qed.

Lemma completion_order_perm {A : Type} latency (tasks : list A) :
  Permutation (completion_order latency tasks) tasks.
Proof.
  unfold completion_order.
  transitivity (map snd (combine (seq 0 (List.length tasks)) tasks)).
  - apply Permutation_map.
    induction (combine (seq 0 (List.length tasks)) tasks) as [|t l IH]; simpl; [reflexivity|].
    rewrite place_perm. now constructor.
  - now rewrite combine_seq_snd.
Qed.

Lemma Map_set_In {V : Type} (m : Map V) k v k' v' :
  In (k', v') (Map_set m k v) -> (k', v') = (k, v) \/ In (k', v') m.
Proof.
  induction m as [|[k0 v0] m IH]; simpl.
  - intros [H|[]]. now left.
  - destruct (String.eqb_spec k0 k) as [->|Hne]; simpl.
    + intros [H|H]; [now left|right; now right].
    + intros [H|H]; [right; now left|].
      destruct (IH H) as [E|E]; [now left|right; now right].
Qed.

Lemma Map_keys_set_In {V : Type} (m : Map V) k v k' :
  In k' (Map_keys (Map_set m k v)) <-> k' = k \/ In k' (Map_keys m).
Proof.
  destruct (Map_has m k) eqn:E.
  - rewrite Map_keys_set_old by exact E. apply Map_has_true in E.
    split; [now right|]. intros [->|H]; assumption.
  - rewrite Map_keys_set_new by exact E. rewrite in_app_iff. simpl.
    split; [intros [H|[H|[]]]|intros [H|H]]; auto.
Qed.

Section Enumeration.

Variable reg : Registry.

Lemma enumerateTask_cases i m :
  (exists a rep, getAgentByIndex reg (Z.of_nat i) = Fulfilled a /\
                 oc_address rep = a /\
                 enumerateTask reg i m = Map_set m (toLowerCase a) rep) \/
  (getAgentByIndex reg (Z.of_nat i) = Rejected /\ enumerateTask reg i m = m).
Proof.
  unfold enumerateTask. destruct (getAgentByIndex reg (Z.of_nat i)) as [a|] eqn:E.
  - left. destruct (fetchOnChainReputation_address reg a) as (rep & Hrep & Ha).
    exists a, rep. rewrite Hrep. simpl. auto.
  - right. auto.
Qed.

Lemma enumerate_loop_keyed l m :
  keyedByLowerCase m ->
  keyedByLowerCase (fold_left (fun reputationMap i => enumerateTask reg i reputationMap) l m).
Proof.
  revert m. induction l as [|i l IH]; intros m Hm; simpl; [exact Hm|].
  apply IH. destruct (enumerateTask_cases i m) as [(a & rep & _ & Ha & ->)|[_ ->]];
    [|exact Hm].
  intros k v H. apply Map_set_In in H. destruct H as [H|H]; [|now apply Hm].
  inversion H; subst. reflexivity.
Qed.

Lemma enumerate_loop_length l m :
  List.length (fold_left (fun reputationMap i => enumerateTask reg i reputationMap) l m)
  <= List.length m + List.length l.
Proof.
  revert m. induction l as [|i l IH]; intros m; simpl; [lia|].
  specialize (IH (enumerateTask reg i m)).
  destruct (enumerateTask_cases i m) as [(a & rep & _ & _ & E)|[_ E]]; rewrite E in *.
  - pose proof (Map_set_length m (toLowerCase a) rep). lia.
  - lia.
Qed.

Lemma enumerate_loop_keys l m k :
  In k (Map_keys (fold_left (fun reputationMap i => enumerateTask reg i reputationMap) l m))
  <-> In k (Map_keys m) \/
      exists i a, In i l /\ getAgentByIndex reg (Z.of_nat i) = Fulfilled a /\
                  k = toLowerCase a.
Proof.
  revert m. induction l as [|i l IH]; intros m; simpl.
  - split; [now left|]. intros [H|(i & a & [] & _)]. exact H.
  - rewrite IH.
    destruct (enumerateTask_cases i m) as [(a & rep & Hi & _ & ->)|[Hi ->]].
    + rewrite Map_keys_set_In. split.
      * intros [[->|H]|(j & b & Hj & Hb & ->)].
        -- right. exists i, a. auto.
        -- now left.
        -- right. exists j, b. auto.
      * intros [H|(j & b & [<-|Hj] & Hb & ->)].
        -- left. now right.
        -- left. left. congruence.
        -- right. exists j, b. auto.
    + split.
      * intros [H|(j & b & Hj & Hb & ->)]; [now left|]. right. exists j, b. auto.
      * intros [H|(j & b & [<-|Hj] & Hb & ->)]; [now left|congruence|].
        right. exists j, b. auto.
Qed.

(** C8: [fetchAllOnChainAgents] returns the empty map when the agent-count
    read fails. Otherwise every entry of the map is stored under the
    lower-cased address it carries, there are at most [min(count, 50)]
    entries, and the keys are exactly the lower-cased addresses read at the
    indices below [min(count, 50)] whose read succeeds: an index whose read
    fails contributes nothing. This holds whatever the order in which the
    concurrent tasks complete. *)
Theorem fetchAllOnChainAgents_bounded latency :
  (getAgentCount reg = Rejected -> fetchAllOnChainAgents reg latency = []) /\
  (forall count, getAgentCount reg = Fulfilled count ->
     keyedByLowerCase (fetchAllOnChainAgents reg latency) /\
     List.length (fetchAllOnChainAgents reg latency) <= Z.to_nat (Z.min count 50) /\
     forall k, In k (Map_keys (fetchAllOnChainAgents reg latency)) <->
               exists i a, (0 <= i < Z.min count 50)%Z /\
                           getAgentByIndex reg i = Fulfilled a /\
                           k = toLowerCase a).
Proof.
  unfold fetchAllOnChainAgents. split.
  - intros ->. reflexivity.
  - intros count ->. destruct (Z.ltb_spec 0 count) as [Hpos|Hneg].
    + set (n := Z.to_nat (Z.min count 50)).
      pose proof (completion_order_perm latency (seq 0 n)) as Hperm.
      split; [|split].
      * apply enumerate_loop_keyed. intros k v [].
      * pose proof (enumerate_loop_length (completion_order latency (seq 0 n)) []) as H.
        rewrite (Permutation_length Hperm), length_seq in H. simpl in H. exact H.
      * intros k. rewrite enumerate_loop_keys. simpl. split.
        -- intros [[]|(i & a & Hi & Ha & ->)].
           apply (Permutation_in _ Hperm), in_seq in Hi.
           exists (Z.of_nat i), a. repeat split; try assumption; subst n; lia.
        -- intros (i & a & Hi & Ha & ->). right.
           exists (Z.to_nat i), a. rewrite Z2Nat.id by lia. repeat split; try assumption.
           apply (Permutation_in _ (Permutation_sym Hperm)), in_seq. subst n. lia.
    + split; [intros k v []|split; [simpl; lia|]].
      intros k. simpl. split; [tauto|]. intros (i & a & Hi & _). lia.
Qed.

End Enumeration.

Lemma fetchAllOnChainAgents_bounded_witness :
  keyedByLowerCase (fetchAllOnChainAgents sampleRegistry (fun i => 3 - i)) /\
  List.length (fetchAllOnChainAgents sampleRegistry (fun i => 3 - i)) <= 3 /\
  forall k, In k (Map_keys (fetchAllOnChainAgents sampleRegistry (fun i => 3 - i))) <->
            exists i a, (0 <= i < 3)%Z /\
                        getAgentByIndex sampleRegistry i = Fulfilled a /\
                        k = toLowerCase a.
Proof.
  exact (proj2 (fetchAllOnChainAgents_bounded sampleRegistry (fun i => 3 - i)) 3%Z eq_refl).
Defined.

(** ** C9: the single-profile request *)





(** ** C4: the ranking *)

(** C4 (amended): when no profile of the output has a NaN
    [onChainReputation] or [totalEarnings], any profile [a] whose
    reputation is greater than that of a profile [b] precedes [b], and of two
    profiles with equal reputations the one that precedes has
    [totalEarnings] greater than or equal to the other's. *)
Theorem aggregate_ranked Number bounties onChainData :
  (forall p, In p (aggregateAgents Number bounties onChainData) -> numericProfile p) ->
  forall i j a b,
    nth_error (aggregateAgents Number bounties onChainData) i = Some a ->
    nth_error (aggregateAgents Number bounties onChainData) j = Some b ->
    ((onChainReputation b <? onChainReputation a)%float = true -> i < j) /\
    (i < j -> (onChainReputation a =? onChainReputation b)%float = true ->
     (totalEarnings b <=? totalEarnings a)%float = true).
Proof.
  intros Hnum i j a b Hi Hj.
  destruct (Hnum a (nth_error_In _ _ Hi)) as [Ha1 Ha2].
  destruct (Hnum b (nth_error_In _ _ Hj)) as [Hb1 Hb2].
  assert (Hsorted : StronglySorted ranksBefore (aggregateAgents Number bounties onChainData)).
  { unfold aggregateAgents in *. apply sort_sorted. apply Forall_forall. intros p Hp.
    apply Hnum. apply (Permutation_in _ (Permutation_sym (sort_perm _ _))). exact Hp. }
  rewrite ltb_ord, eqb_ord, leb_ord by assumption.
  rewrite Z.ltb_lt, Z.eqb_eq, Z.leb_le. split.
  - intros Hlt. destruct (Nat.lt_trichotomy i j) as [H|[H|H]]; [exact H| |].
    + subst j. rewrite Hi in Hj. injection Hj as <-. lia.
    + pose proof (sorted_nth _ _ Hsorted j i b a H Hj Hi) as Hr.
      unfold ranksBefore, rankKey in Hr. cbn [fst snd] in Hr. lia.
  - intros Hij Heq.
    pose proof (sorted_nth _ _ Hsorted i j a b Hij Hi Hj) as Hr.
    unfold ranksBefore, rankKey in Hr. cbn [fst snd] in Hr. lia.
Qed.

Lemma aggregate_ranked_witness :
  (forall p, In p (aggregateAgents Number_decimal twoBounties []) -> numericProfile p) /\
  (forall i j a b,
      nth_error (aggregateAgents Number_decimal twoBounties []) i = Some a ->
      nth_error (aggregateAgents Number_decimal twoBounties []) j = Some b ->
      ((onChainReputation b <? onChainReputation a)%float = true -> i < j) /\
      (i < j -> (onChainReputation a =? onChainReputation b)%float = true ->
       (totalEarnings b <=? totalEarnings a)%float = true)).
Proof.
  assert (H : forall p, In p (aggregateAgents Number_decimal twoBounties []) ->
                        numericProfile p).
  { intros p [<-|[<-|[]]]; split; reflexivity. }
  split; [exact H|exact (aggregate_ranked Number_decimal twoBounties [] H)].
Defined.

(** A [grossAmount] that is not a number makes [totalEarnings] NaN: that
    profile stays in front of one with the same reputation and earnings 5,
    and NaN is not greater than or equal to 5. *)
Lemma aggregate_ranked_counterexample :
  ~ (forall i j a b,
        nth_error (aggregateAgents Number_decimal notANumberBounties []) i = Some a ->
        nth_error (aggregateAgents Number_decimal notANumberBounties []) j = Some b ->
        ((onChainReputation b <? onChainReputation a)%float = true -> i < j) /\
        (i < j -> (onChainReputation a =? onChainReputation b)%float = true ->
         (totalEarnings b <=? totalEarnings a)%float = true)).
Proof.
  intros H.
  destruct (H 0 1 _ _ eq_refl eq_refl) as [_ H1].
  specialize (H1 ltac:(repeat constructor) eq_refl).
  vm_compute in H1. discriminate.
Qed.

(** ** C5 and C6: the success rate *)

Lemma profileAt_rate Number bounties onChainData k p :
  profileAt Number bounties onChainData k = Some p ->
  exists q, p = withRate q /\ bountiesCompleted q <= bountiesClaimed q.
Proof.
  unfold profileAt. destruct (claimsOf k bounties) as [|b0 rest].
  - destruct (Map_get onChainData k) as [oc|]; [|discriminate].
    intros [= <-]. exists (onChainProfile oc). split; [reflexivity|]. simpl. lia.
  - intros [= <-].
    exists (recordAll Number (b0 :: rest)
              (claimantProfile (match claimedBy b0 with Some a => a | None => EmptyString end)
                 (Map_get onChainData k))).
    split; [reflexivity|].
    destruct (recordAll_fields Number (b0 :: rest)
                (claimantProfile (match claimedBy b0 with Some a => a | None => EmptyString end)
                   (Map_get onChainData k))) as (_ & _ & _ & Hc & Hd & _).
    rewrite Hc, Hd. cbn [claimantProfile bountiesCompleted bountiesClaimed].
    pose proof (filter_length_le isCompleted (b0 :: rest)). lia.
Qed.

(** C5: every profile of [aggregateAgents] has
    [bountiesCompleted <= bountiesClaimed] and [0 <= successRate <= 100]. *)
Theorem completed_and_rate_bounded Number bounties onChainData p :
  In p (aggregateAgents Number bounties onChainData) ->
  bountiesCompleted p <= bountiesClaimed p /\
  (0 <=? successRate p)%float = true /\ (successRate p <=? 100)%float = true.
Proof.
  intros Hp. apply aggregate_In in Hp. destruct Hp as [k Hin].
  apply agentsMap_In in Hin.
  destruct (profileAt_rate _ _ _ _ _ Hin) as (q & -> & Hle).
  split; [exact Hle|]. now apply rateOf_percent.
Qed.

Lemma completed_and_rate_bounded_witness :
  bountiesCompleted exampleProfile <= bountiesClaimed exampleProfile /\
  (0 <=? successRate exampleProfile)%float = true /\
  (successRate exampleProfile <=? 100)%float = true.
Proof.
  apply (completed_and_rate_bounded Number_decimal
           [exampleBounty "completed" "0xABC" (Some "5000000")] []).
  left. reflexivity.
Defined.

(** C6 (amended): the [successRate] of every profile of [aggregateAgents]
    is 0 when [bountiesClaimed = 0], and otherwise [Math.round] of the
    double [(bountiesCompleted / bountiesClaimed) * 100], in which the
    quotient is rounded to a double before it is multiplied by 100. *)
Theorem success_rate_formula Number bounties onChainData p :
  In p (aggregateAgents Number bounties onChainData) ->
  (bountiesClaimed p = 0 -> successRate p = 0%float) /\
  (bountiesClaimed p <> 0 ->
   successRate p =
   Math_round
     ((count_number (bountiesCompleted p) / count_number (bountiesClaimed p)) * 100)%float).
Proof.
  intros Hp. apply aggregate_In in Hp. destruct Hp as [k Hin].
  apply agentsMap_In in Hin.
  destruct (profileAt_rate _ _ _ _ _ Hin) as (q & -> & _).
  simpl. unfold rateOf.
  destruct (Nat.ltb_spec 0 (bountiesClaimed q)); split; intros; try reflexivity; lia.
Qed.

Lemma success_rate_formula_witness :
  (bountiesClaimed exampleProfile = 0 -> successRate exampleProfile = 0%float) /\
  (bountiesClaimed exampleProfile <> 0 ->
   successRate exampleProfile =
   Math_round
     ((count_number (bountiesCompleted exampleProfile) /
       count_number (bountiesClaimed exampleProfile)) * 100)%float).
Proof.
  apply (success_rate_formula Number_decimal
           [exampleBounty "completed" "0xABC" (Some "5000000")] []).
  left. reflexivity.
Defined.

(** With 23 of 40 bounties completed the percentage is 57.5, which rounds
    to 58, on exact quotients as well as in [Math.round(100 * 23 / 40)]; the
    engine takes the double nearest 23/40 first, whose product with 100 is
    57.49999999999999, and stores 57. *)
Lemma success_rate_counterexample :
  ~ (forall p, In p (aggregateAgents Number_decimal fortyBounties []) ->
               successRate p =
               Number_of_bigint (roundedPercent (bountiesCompleted p) (bountiesClaimed p)) \/
               successRate p =
               percentAsWritten (bountiesCompleted p) (bountiesClaimed p)).
Proof.
  intros H.
  assert (Hall : forallb
                   (fun p =>
                      PrimFloat.Leibniz.eqb (successRate p)
                        (Number_of_bigint
                           (roundedPercent (bountiesCompleted p) (bountiesClaimed p)))
                      || PrimFloat.Leibniz.eqb (successRate p)
                           (percentAsWritten (bountiesCompleted p) (bountiesClaimed p)))
                   (aggregateAgents Number_decimal fortyBounties []) = true).
  { refine (proj2 (forallb_forall _ _) _). intros p Hp.
    refine (proj2 (orb_true_iff _ _) _).
    destruct (H p Hp) as [E|E]; [left|right];
      refine (proj2 (FloatAxioms.Leibniz.eqb_spec _ _) _); exact E. }
  vm_compute in Hall. discriminate.
Qed.

(** * The rest of the engine: further properties *)

(** ** Insertion order *)

Lemma mem_In x l : mem x l = true <-> In x l.
Proof.
  unfold mem. rewrite existsb_exists. split.
  - intros (y & Hy & E). apply String.eqb_eq in E. now subst.
  - intros H. exists x. split; [exact H|apply String.eqb_refl].
Qed.

Lemma mem_app x l1 l2 : mem x (l1 ++ l2) = mem x l1 || mem x l2.
Proof. unfold mem. apply existsb_app. Qed.

Lemma Map_has_mem {V : Type} (m : Map V) k : Map_has m k = mem k (Map_keys m).
Proof.
  destruct (Map_has m k) eqn:E; symmetry.
  - apply mem_In. now apply Map_has_true.
  - destruct (mem k (Map_keys m)) eqn:F; [|reflexivity].
    apply mem_In, Map_has_true in F. congruence.
Qed.

Lemma Set_of_In x l : In x (Set_of l) <-> In x l.
Proof.
  induction l as [|y l IH]; simpl; [tauto|].
  rewrite filter_In, IH. destruct (String.eqb_spec x y) as [->|Hne]; simpl.
  - split; auto.
  - split; [intros [H|[H _]]; auto|intros [H|H]; [now left|right; now split]].
Qed.

Lemma Set_of_NoDup l : NoDup (Set_of l).
Proof.
  induction l as [|y l IH]; simpl; constructor.
  - rewrite filter_In. intros [_ H]. now rewrite String.eqb_refl in H.
  - now apply NoDup_filter.
Qed.

Lemma Set_of_id l : NoDup l -> Set_of l = l.
Proof.
  induction 1 as [|x l Hx Hl IH]; simpl; [reflexivity|]. rewrite IH. f_equal.
  apply forallb_filter_id. apply forallb_forall. intros y Hy.
  destruct (String.eqb_spec y x) as [->|]; [contradiction|reflexivity].
Qed.

Lemma filter_filter_absorb (ks l : list string) k :
  mem k ks = true ->
  filter (fun y => negb (mem y ks)) (filter (fun y => negb (y =? k)) l) =
  filter (fun y => negb (mem y ks)) l.
Proof.
  intros Hk. induction l as [|y l IH]; simpl; [reflexivity|].
  destruct (String.eqb_spec y k) as [->|Hne]; simpl.
  - now rewrite Hk.
  - now rewrite IH.
Qed.

Lemma filter_mem_snoc (ks l : list string) k :
  filter (fun y => negb (mem y (ks ++ [k]))) l =
  filter (fun y => negb (mem y ks)) (filter (fun y => negb (y =? k)) l).
Proof.
  induction l as [|y l IH]; simpl; [reflexivity|].
  rewrite mem_app. unfold mem at 2. simpl. rewrite orb_false_r.
  destruct (String.eqb_spec y k) as [->|Hne]; simpl.
  - rewrite orb_true_r. simpl. exact IH.
  - rewrite orb_false_r. destruct (mem y ks); simpl; now rewrite IH.
Qed.

(** What a loop does to the list of keys when it adds each key that is
    not there yet at the end. *)
Lemma add_keys_order l ks :
  fold_left add_key l ks = ks ++ filter (fun k => negb (mem k ks)) (Set_of l).
Proof.
  revert ks. induction l as [|k l IH]; intros ks; simpl.
  - now rewrite app_nil_r.
  - rewrite IH. unfold add_key. destruct (mem k ks) eqn:E; simpl.
    + now rewrite filter_filter_absorb.
    + rewrite <- app_assoc. simpl. now rewrite filter_mem_snoc.
Qed.

Lemma keysOf_claimantKey b :
  keysOf b = match claimantKey b with Some k => [k] | None => [] end.
Proof.
  unfold keysOf, claimantKey, or_else.
  destruct (claimedBy b) as [a|]; [|reflexivity]. now destruct (truthy_string a).
Qed.

Lemma bountyStep_keys Number onChainData agents b :
  Map_keys (bountyStep Number onChainData agents b) =
  fold_left add_key (keysOf b) (Map_keys agents).
Proof.
  rewrite keysOf_claimantKey. destruct (claimantKey b) as [k|] eqn:E.
  - rewrite (bountyStep_keyed _ _ _ _ _ E), Map_keys_mutate. simpl. unfold add_key.
    rewrite <- Map_has_mem. destruct (Map_has agents k) eqn:H; [reflexivity|].
    now apply Map_keys_set_new.
  - now rewrite bountyStep_unkeyed.
Qed.

Lemma bounty_loop_keys Number onChainData bounties agents :
  Map_keys (fold_left (bountyStep Number onChainData) bounties agents) =
  fold_left add_key (flat_map keysOf bounties) (Map_keys agents).
Proof.
  revert agents. induction bounties as [|b l IH]; intros agents; simpl; [reflexivity|].
  now rewrite IH, bountyStep_keys, fold_left_app.
Qed.

Lemma onChain_loop_keys (entries : Map OnChainReputation) agents :
  Map_keys (fold_left onChainStep entries agents) =
  fold_left add_key (Map_keys entries) (Map_keys agents).
Proof.
  revert agents. induction entries as [|[k oc] l IH]; intros agents; simpl; [reflexivity|].
  rewrite IH. f_equal. unfold add_key. rewrite <- Map_has_mem.
  destruct (Map_has agents k) eqn:H; [reflexivity|]. now apply Map_keys_set_new.
Qed.

(** The keys of the map, in insertion order: the claimants in the order
    of their first bounty, then the on-chain agents that claimed none. *)
Lemma agentsMap_keys Number bounties onChainData :
  Map_keys (agentsMap Number bounties onChainData) =
  uniqueAddresses bounties ++
  filter (fun k => negb (mem k (uniqueAddresses bounties)))
    (Set_of (Map_keys onChainData)).
Proof.
  unfold agentsMap. rewrite Map_keys_map_values, onChain_loop_keys, bounty_loop_keys.
  rewrite !add_keys_order. simpl.
  assert (E : forall l : list string, filter (fun k => negb (mem k [])) l = l).
  { intros l. apply forallb_filter_id. now apply forallb_forall. }
  rewrite E. reflexivity.
Qed.

Lemma aggregate_length Number bounties onChainData :
  List.length (aggregateAgents Number bounties onChainData) =
  List.length (Map_keys (agentsMap Number bounties onChainData)).
Proof.
  unfold aggregateAgents. rewrite (Permutation_length (sort_perm _ _)).
  unfold Map_values, Map_keys. now rewrite !length_map.
Qed.

Lemma uniqueAddresses_In k bounties :
  In k (uniqueAddresses bounties) <-> claimsOf k bounties <> [].
Proof.
  unfold uniqueAddresses. rewrite Set_of_In, in_flat_map. split.
  - intros (b & Hb & Hk) Hnil.
    change (In k (keysOf b)) in Hk.
    rewrite keysOf_claimantKey in Hk.
    destruct (claimantKey b) as [k'|] eqn:E; [|destruct Hk].
    destruct Hk as [->|[]].
    assert (Hin : In b (claimsOf k bounties)) by (apply claimsOf_In; auto).
    now rewrite Hnil in Hin.
  - intros Hne. destruct (claimsOf k bounties) as [|b rest] eqn:E; [congruence|].
    assert (Hin : In b (claimsOf k bounties)) by (rewrite E; now left).
    apply claimsOf_In in Hin. destruct Hin as [Hb Hk]. exists b. split; [exact Hb|].
    change (In k (keysOf b)). rewrite keysOf_claimantKey, Hk. now left.
Qed.

Lemma uniqueAddresses_lower k bounties :
  In k (uniqueAddresses bounties) -> toLowerCase k = k.
Proof.
  intros H. apply uniqueAddresses_In in H.
  destruct (claimsOf k bounties) as [|b rest] eqn:E; [congruence|].
  assert (Hin : In b (claimsOf k bounties)) by (rewrite E; now left).
  apply claimsOf_In in Hin. destruct Hin as [_ Hk].
  destruct (claimantKey_Some _ _ Hk) as (a & _ & _ & ->). apply toLowerCase_idempotent.
Qed.

(** X1: when the keys of the on-chain map are distinct, [aggregateAgents]
    returns one profile for each distinct lower-cased claimant address and
    one for each key of the on-chain map that is not such an address. *)
Theorem aggregate_profile_count Number bounties onChainData :
  NoDup (Map_keys onChainData) ->
  List.length (aggregateAgents Number bounties onChainData) =
  List.length (uniqueAddresses bounties) +
  List.length (filter (fun k => negb (existsb (String.eqb k) (uniqueAddresses bounties)))
                 (Map_keys onChainData)).
Proof.
  intros Hnd. rewrite aggregate_length, agentsMap_keys, length_app.
  now rewrite (Set_of_id _ Hnd).
Qed.

Lemma aggregate_profile_count_witness :
  List.length (aggregateAgents Number_decimal twoBounties lowerCaseKeyMap) =
  List.length (uniqueAddresses twoBounties) +
  List.length (filter (fun k => negb (existsb (String.eqb k) (uniqueAddresses twoBounties)))
                 (Map_keys lowerCaseKeyMap)).
Proof.
  apply aggregate_profile_count. simpl. constructor; [intros []|constructor].
Defined.

Lemma hasRank_ranksBefore K a b :
  hasRank K a = true -> hasRank K b = true -> ranksBefore a b.
Proof.
  unfold hasRank, ranksBefore. rewrite !andb_true_iff, !Z.eqb_eq.
  intros [H1 H2] [H3 H4]. right. split; [congruence|]. rewrite H2, H4. apply Z.le_refl.
Qed.

Lemma sort_insert_filter K x l :
  numericProfile x -> Forall numericProfile l ->
  filter (hasRank K) (sort_insert byReputationThenEarnings x l) =
  filter (hasRank K) (x :: l).
Proof.
  intros Hx Hl. induction Hl as [|y l Hy Hl IH]; [reflexivity|].
  cbn [sort_insert].
  destruct (0 <? byReputationThenEarnings x y)%float eqn:E; [|reflexivity].
  apply (comparator_positive x y Hx Hy) in E.
  cbn [filter] in *. rewrite IH.
  destruct (hasRank K x) eqn:Px; [|reflexivity].
  destruct (hasRank K y) eqn:Py; [|reflexivity].
  exfalso. apply E. now apply (hasRank_ranksBefore K).
Qed.

Lemma sort_filter K l :
  Forall numericProfile l ->
  filter (hasRank K) (sort byReputationThenEarnings l) = filter (hasRank K) l.
Proof.
  induction 1 as [|x l Hx Hl IH]; [reflexivity|].
  change (sort byReputationThenEarnings (x :: l))
    with (sort_insert byReputationThenEarnings x (sort byReputationThenEarnings l)).
  rewrite sort_insert_filter; [cbn [filter]; now rewrite IH|exact Hx|].
  apply Forall_forall. intros p Hp. apply (Permutation_in _ (sort_perm _ _)) in Hp.
  revert p Hp. now apply Forall_forall.
Qed.

(** X2: when no profile of the output has a NaN reputation or a NaN
    [totalEarnings], the final sort is stable: the profiles that have the
    same reputation and the same earnings stand in the output in the order
    in which they were put into the map, which is the claimants in the order
    of their first bounty, followed by the keys of the on-chain map that
    claimed none, in the order of that map. *)
Theorem ties_keep_insertion_order Number bounties onChainData :
  (forall p, In p (aggregateAgents Number bounties onChainData) -> numericProfile p) ->
  (forall K,
      filter (hasRank K) (aggregateAgents Number bounties onChainData) =
      filter (hasRank K) (Map_values (agentsMap Number bounties onChainData))) /\
  Map_keys (agentsMap Number bounties onChainData) =
    uniqueAddresses bounties ++
    filter (fun k => negb (existsb (String.eqb k) (uniqueAddresses bounties)))
      (Set_of (Map_keys onChainData)).
Proof.
  intros Hnum. split; [|apply agentsMap_keys].
  intros K. unfold aggregateAgents. apply sort_filter.
  apply Forall_forall. intros p Hp. apply Hnum.
  apply (Permutation_in _ (Permutation_sym (sort_perm _ _))). exact Hp.
Qed.

Lemma ties_keep_insertion_order_witness :
  filter (hasRank (0, 0)%Z)
    (aggregateAgents Number_decimal
       [exampleBounty "claimed" "0xABC" None; exampleBounty "claimed" "0xDEF" None] []) =
  filter (hasRank (0, 0)%Z)
    (Map_values
       (agentsMap Number_decimal
          [exampleBounty "claimed" "0xABC" None; exampleBounty "claimed" "0xDEF" None] [])).
Proof.
  apply ties_keep_insertion_order.
  intros p [<-|[<-|[]]]; split; reflexivity.
Defined.

(** ** Conservation of claims *)

Lemma list_sum_perm l l' : Permutation l l' -> list_sum l = list_sum l'.
Proof. induction 1; simpl; lia. Qed.

Lemma claimsOf_count k bounties :
  List.length (claimsOf k bounties) = count_occ string_dec (flat_map keysOf bounties) k.
Proof.
  unfold claimsOf. induction bounties as [|b l IH]; simpl; [reflexivity|].
  rewrite keysOf_claimantKey, count_occ_app, <- IH.
  destruct (claimantKey b) as [k'|]; simpl; [|reflexivity].
  destruct (string_dec k' k) as [->|Hne].
  - now rewrite String.eqb_refl.
  - destruct (String.eqb_spec k' k); [contradiction|reflexivity].
Qed.

Lemma sum_indicator (ks : list string) x :
  NoDup ks ->
  list_sum (map (fun k => if string_dec x k then 1 else 0) ks) = if mem x ks then 1 else 0.
Proof.
  induction 1 as [|k ks Hk Hnd IH]; simpl; [reflexivity|].
  rewrite IH. unfold mem. simpl. fold (mem x ks).
  destruct (string_dec x k) as [->|Hne].
  - rewrite String.eqb_refl. simpl.
    destruct (mem k ks) eqn:E; [apply mem_In in E; contradiction|reflexivity].
  - destruct (String.eqb_spec x k); [contradiction|]. reflexivity.
Qed.

Lemma list_sum_map_add {A : Type} (f g : A -> nat) l :
  list_sum (map (fun k => f k + g k) l) = list_sum (map f l) + list_sum (map g l).
Proof. induction l as [|x l IH]; simpl; [reflexivity|]. rewrite IH. lia. Qed.

Lemma sum_counts (ks L : list string) :
  NoDup ks ->
  list_sum (map (count_occ string_dec L) ks) = List.length (filter (fun x => mem x ks) L).
Proof.
  intros Hnd. induction L as [|x L IH]; simpl.
  - induction ks as [|k ks IHk]; simpl; [reflexivity|].
    apply IHk. now inversion Hnd.
  - rewrite (map_ext (count_occ string_dec (x :: L))
               (fun k => (if string_dec x k then 1 else 0) + count_occ string_dec L k)).
    + rewrite list_sum_map_add, IH, sum_indicator by exact Hnd.
      now destruct (mem x ks).
    + intros k. simpl. now destruct (string_dec x k).
Qed.

Lemma values_sum_by_key {V : Type} (m : Map V) (f : V -> nat) (g : string -> nat) :
  (forall k v, In (k, v) m -> f v = g k) ->
  list_sum (map f (Map_values m)) = list_sum (map g (Map_keys m)).
Proof.
  unfold Map_values, Map_keys. rewrite !map_map.
  induction m as [|[k v] m IH]; intros H; simpl; [reflexivity|].
  rewrite IH by (intros k' v' Hin; apply H; now right).
  rewrite (H k v) by now left. reflexivity.
Qed.

Lemma profileAt_claimed Number bounties onChainData k p :
  profileAt Number bounties onChainData k = Some p ->
  bountiesClaimed p = List.length (claimsOf k bounties).
Proof.
  unfold profileAt. destruct (claimsOf k bounties) as [|b0 rest].
  - destruct (Map_get onChainData k); [|discriminate]. now intros [= <-].
  - intros [= <-].
    destruct (recordAll_fields Number (b0 :: rest)
                (claimantProfile
                   (match claimedBy b0 with Some a => a | None => EmptyString end)
                   (Map_get onChainData k))) as (_ & _ & _ & Hc & _).
    exact Hc.
Qed.

Lemma isClaimed_keys bounties :
  List.length (filter isClaimed bounties) = List.length (flat_map keysOf bounties).
Proof.
  induction bounties as [|b l IH]; simpl; [reflexivity|].
  rewrite length_app, <- IH. unfold isClaimed, keysOf, or_else.
  destruct (claimedBy b) as [a|]; [|reflexivity]. now destruct (truthy_string a).
Qed.

(** X3: the [bountiesClaimed] of the profiles of [aggregateAgents] add up
    to the number of bounties whose [claimedBy] is present and not empty: no
    claim is dropped and none is counted twice. *)
Theorem claims_are_conserved Number bounties onChainData :
  list_sum (map bountiesClaimed (aggregateAgents Number bounties onChainData)) =
  List.length (filter isClaimed bounties).
Proof.
  unfold aggregateAgents.
  rewrite (list_sum_perm _ _ (Permutation_map _ (sort_perm byReputationThenEarnings _))).
  rewrite (values_sum_by_key _ _ (fun k => List.length (claimsOf k bounties))).
  - rewrite agentsMap_keys, map_app, list_sum_app.
    replace (list_sum (map _ (filter _ (Set_of (Map_keys onChainData))))) with 0.
    + rewrite Nat.add_0_r.
      rewrite (map_ext _ (count_occ string_dec (flat_map keysOf bounties)))
        by (intros k; apply claimsOf_count).
      unfold uniqueAddresses. fold keysOf.
      change (fun b : Bounty => or_else (claimedBy b) (fun a => [toLowerCase a]) [])
        with keysOf.
      rewrite sum_counts by apply Set_of_NoDup.
      rewrite forallb_filter_id; [symmetry; apply isClaimed_keys|].
      apply forallb_forall. intros x Hx. apply mem_In, Set_of_In. exact Hx.
    + symmetry.
      induction (Set_of (Map_keys onChainData)) as [|k ks IH]; simpl; [reflexivity|].
      destruct (mem k (uniqueAddresses bounties)) eqn:E; simpl; [exact IH|].
      rewrite IH. destruct (claimsOf k bounties) eqn:Hcl; [reflexivity|].
      assert (Hin : In k (uniqueAddresses bounties))
        by (apply uniqueAddresses_In; congruence).
      apply mem_In in Hin. congruence.
  - intros k p Hin. apply agentsMap_In in Hin. now apply (profileAt_claimed Number _ onChainData).
Qed.

(** ** The fields of a profile *)

Lemma recordBounty_entry Number b agent :
  history (recordBounty Number b agent) = history agent ++ [historyEntryOf Number b].
Proof.
  unfold recordBounty, historyEntryOf. cbn [history]. do 2 f_equal.
  unfold isCompleted, rewardOf. f_equal.
  - unfold or_else, nonEmpty, truthy_string.
    destruct (title b) as [t|]; [|reflexivity]. now destruct (t =? EmptyString).
  - destruct (status b =? "completed") eqn:E; [|reflexivity].
    assert (H : isCompleted b = true) by exact E.
    pose proof (rewardOf_completed Number b H) as R. unfold rewardOf in R.
    now rewrite E in R.
  - unfold or_else, nonEmpty, truthy_string.
    destruct (createdAt b) as [t|]; [|reflexivity]. now destruct (t =? EmptyString).
Qed.

Lemma recordAll_more Number l p0 :
  let p := recordAll Number l p0 in
  history p = history p0 ++ map (historyEntryOf Number) l /\
  p_tags p = fold_left countTag (flat_map tagsOf l) (p_tags p0) /\
  recentFeedback p = recentFeedback p0.
Proof.
  unfold recordAll. revert p0. induction l as [|b l IH]; intros p0; simpl.
  - now rewrite app_nil_r.
  - destruct (IH (recordBounty Number b p0)) as (Hh & Ht & Hf).
    rewrite Hh, Ht, Hf, recordBounty_entry, <- app_assoc, fold_left_app. auto.
Qed.

(** The profile stored under a key, field by field. *)
Lemma profileAt_fields Number bounties onChainData k p :
  profileAt Number bounties onChainData k = Some p ->
  history p = map (historyEntryOf Number) (claimsOf k bounties) /\
  p_tags p = fold_left countTag (flat_map tagsOf (claimsOf k bounties)) [] /\
  recentFeedback p =
    match Map_get onChainData k with
    | Some oc => slice_last 10 (feedback oc)
    | None => []
    end /\
  onChainReputation p =
    match Map_get onChainData k with
    | Some oc =>
        match claimsOf k bounties with
        | [] => reputationScore oc
        | _ :: _ => or_zero (reputationScore oc)
        end
    | None => 0%float
    end /\
  bountiesCompleted p = List.length (filter isCompleted (claimsOf k bounties)) /\
  totalEarnings p =
    fold_left (fun e b => (e + rewardOf Number b)%float)
      (filter isCompleted (claimsOf k bounties)) 0%float.
Proof.
  unfold profileAt. destruct (claimsOf k bounties) as [|b0 rest] eqn:Hcl.
  - destruct (Map_get onChainData k) as [oc|]; [|discriminate].
    intros [= <-]. simpl. repeat split; reflexivity.
  - intros [= <-].
    set (p0 := claimantProfile (match claimedBy b0 with Some a => a | None => EmptyString end)
                 (Map_get onChainData k)).
    destruct (recordAll_more Number (b0 :: rest) p0) as (Hh & Ht & Hf).
    destruct (recordAll_fields Number (b0 :: rest) p0) as (_ & Hr & _ & _ & Hc & _ & He).
    cbn [withRate history p_tags recentFeedback onChainReputation bountiesCompleted
         totalEarnings].
    change (recordAll Number rest (recordBounty Number b0 p0))
      with (recordAll Number (b0 :: rest) p0).
    rewrite Hh, Ht, Hf, Hr, Hc, He. subst p0. cbn [claimantProfile history p_tags
      recentFeedback onChainReputation bountiesCompleted totalEarnings].
    destruct (Map_get onChainData k); repeat split; reflexivity.
Qed.

(** Under a map keyed by lower-cased address, a profile of the output is
    the one stored under its own lower-cased address. *)
Lemma aggregate_profileAt Number bounties onChainData p :
  keyedByLowerCase onChainData ->
  In p (aggregateAgents Number bounties onChainData) ->
  profileAt Number bounties onChainData (toLowerCase (address p)) = Some p.
Proof.
  intros Hk Hp. apply aggregate_In in Hp. destruct Hp as [k Hin].
  rewrite (profile_key Number bounties onChainData Hk k p Hin).
  now apply agentsMap_In.
Qed.

Lemma lowerCaseKeyMap_keyed : keyedByLowerCase lowerCaseKeyMap.
Proof. intros k v [H|[]]. now inversion H. Qed.

(** X4: under an on-chain map keyed by lower-cased address, the history of
    a profile of [aggregateAgents] lists exactly the bounties claimed under
    its lower-cased address, in input order and whatever their status, one
    entry per bounty: the id, the status, the title or "Untitled", the
    amount when the bounty is completed and 0 otherwise, the creation date or
    the empty string. The profile's address is spelled as the claimant of the
    first of these bounties. *)
Theorem history_in_claim_order Number bounties onChainData p :
  keyedByLowerCase onChainData ->
  In p (aggregateAgents Number bounties onChainData) ->
  history p =
    map (historyEntryOf Number) (claimsOf (toLowerCase (address p)) bounties) /\
  (forall b0 rest,
      claimsOf (toLowerCase (address p)) bounties = b0 :: rest ->
      claimedBy b0 = Some (address p)).
Proof.
  intros Hk Hp. pose proof (aggregate_profileAt _ _ _ _ Hk Hp) as Hat.
  split; [now destruct (profileAt_fields _ _ _ _ _ Hat) as (Hh & _)|].
  intros b0 rest Hcl.
  assert (Hin : In b0 (claimsOf (toLowerCase (address p)) bounties))
    by (rewrite Hcl; now left).
  apply claimsOf_In in Hin. destruct Hin as [_ Hkey].
  destruct (claimantKey_Some _ _ Hkey) as (a & Ha & _ & _).
  unfold profileAt in Hat. rewrite Hcl in Hat. injection Hat as Hp'.
  rewrite Ha in Hp'. rewrite Ha. f_equal.
  destruct (recordAll_fields Number (b0 :: rest)
              (claimantProfile a (Map_get onChainData (toLowerCase (address p)))))
    as (Haddr & _).
  apply (f_equal address) in Hp'. cbn [withRate address] in Hp'.
  change (recordAll Number rest (recordBounty Number b0 ?x))
    with (recordAll Number (b0 :: rest) x) in Hp'.
  rewrite Haddr in Hp'. exact Hp'.
Qed.

Lemma history_in_claim_order_witness :
  history exampleProfile =
    map (historyEntryOf Number_decimal)
      (claimsOf "0xabc" [exampleBounty "completed" "0xABC" (Some "5000000")]) /\
  (forall b0 rest,
      claimsOf "0xabc" [exampleBounty "completed" "0xABC" (Some "5000000")] = b0 :: rest ->
      claimedBy b0 = Some "0xABC").
Proof.
  apply (history_in_claim_order Number_decimal
           [exampleBounty "completed" "0xABC" (Some "5000000")] lowerCaseKeyMap exampleProfile).
  - exact lowerCaseKeyMap_keyed.
  - right. left. reflexivity.
Defined.

Lemma earnings_by_history Number l c0 e0 :
  c0 + List.length (filter isCompleted l) =
    c0 + List.length (filter (fun h => h_status h =? "completed")
                        (map (historyEntryOf Number) l)) /\
  fold_left (fun e b => (e + rewardOf Number b)%float) (filter isCompleted l) e0 =
  fold_left (fun e h => if h_status h =? "completed" then (e + reward h)%float else e)
    (map (historyEntryOf Number) l) e0.
Proof.
  split.
  - f_equal. induction l as [|b l IH]; simpl; [reflexivity|].
    unfold isCompleted at 1. destruct (status b =? "completed"); simpl; now rewrite IH.
  - revert e0. induction l as [|b l IH]; intros e0; simpl; [reflexivity|].
    destruct (isCompleted b) eqn:E; simpl.
    + rewrite IH. unfold isCompleted in E. rewrite E.
      now rewrite (rewardOf_completed Number b).
    + rewrite IH. unfold isCompleted in E. now rewrite E.
Qed.

(** X5: in every profile of [aggregateAgents], [bountiesCompleted] is the
    number of history entries whose status is "completed", [totalEarnings]
    is the sum of the rewards of these entries, added in history order from
    0, and every other entry has reward 0. *)
Theorem summary_matches_history Number bounties onChainData p :
  In p (aggregateAgents Number bounties onChainData) ->
  bountiesCompleted p =
    List.length (filter (fun h => h_status h =? "completed") (history p)) /\
  totalEarnings p =
    fold_left (fun e h => if h_status h =? "completed" then (e + reward h)%float else e)
      (history p) 0%float /\
  (forall h, In h (history p) -> h_status h <> "completed" -> reward h = 0%float).
Proof.
  intros Hp. apply aggregate_In in Hp. destruct Hp as [k Hin].
  apply agentsMap_In in Hin.
  destruct (profileAt_fields _ _ _ _ _ Hin) as (Hh & _ & _ & _ & Hc & He).
  rewrite Hh, Hc, He.
  destruct (earnings_by_history Number (claimsOf k bounties) 0 0%float) as [E1 E2].
  split; [exact E1|]. split; [exact E2|].
  intros h Hh' Hs. apply in_map_iff in Hh'. destruct Hh' as (b & <- & _).
  simpl in *. unfold isCompleted. destruct (String.eqb_spec (status b) "completed"); congruence.
Qed.

Lemma summary_matches_history_witness :
  bountiesCompleted exampleProfile =
    List.length (filter (fun h => h_status h =? "completed") (history exampleProfile)) /\
  totalEarnings exampleProfile =
    fold_left (fun e h => if h_status h =? "completed" then (e + reward h)%float else e)
      (history exampleProfile) 0%float /\
  (forall h, In h (history exampleProfile) -> h_status h <> "completed" ->
             reward h = 0%float).
Proof.
  apply (summary_matches_history Number_decimal
           [exampleBounty "completed" "0xABC" (Some "5000000")] []).
  left. reflexivity.
Defined.

Lemma countTag_get m x t :
  Map_get (countTag m x) t = if x =? t then bumped t (Map_get m t) else Map_get m t.
Proof.
  unfold countTag, bumped. destruct (String.eqb_spec x t) as [->|Hne].
  - destruct (Map_get m t) as [[n|method ones]|] eqn:E; try apply Map_get_set_eq.
    destruct (mem t Object_prototype); [|apply Map_get_set_eq].
    destruct (t =? "__proto__"); [exact E|apply Map_get_set_eq].
  - destruct (Map_get m x) as [[n|method ones]|]; try now apply Map_get_set_ne.
    destruct (mem x Object_prototype); [|now apply Map_get_set_ne].
    destruct (x =? "__proto__"); [reflexivity|now apply Map_get_set_ne].
Qed.

Lemma fold_countTag_get ts m t :
  Map_get (fold_left countTag ts m) t =
  Nat.iter (count_occ string_dec ts t) (bumped t) (Map_get m t).
Proof.
  revert m. induction ts as [|x ts IH]; intros m; simpl; [reflexivity|].
  rewrite IH, countTag_get. destruct (string_dec x t) as [->|Hne].
  - rewrite String.eqb_refl. now rewrite Nat.iter_succ_r.
  - destruct (String.eqb_spec x t) as [E|_]; [contradiction|reflexivity].
Qed.

Lemma bumped_iter t c :
  Nat.iter c (bumped t) None =
  match c with
  | 0 => None
  | S _ =>
      if mem t Object_prototype
      then (if t =? "__proto__" then None else Some (MethodText t c))
      else Some (Count c)
  end.
Proof.
  induction c as [|c IH]; [reflexivity|].
  change (Nat.iter (S c) (bumped t) None) with (bumped t (Nat.iter c (bumped t) None)).
  rewrite IH.
  destruct c as [|c]; [reflexivity|]. unfold bumped.
  destruct (mem t Object_prototype); [destruct (t =? "__proto__")|];
    try reflexivity; do 2 f_equal; lia.
Qed.

Lemma fold_countTag_NoDup ts m :
  NoDup (Map_keys m) -> NoDup (Map_keys (fold_left countTag ts m)).
Proof.
  revert m. induction ts as [|x ts IH]; intros m Hm; simpl; [exact Hm|].
  apply IH. unfold countTag.
  destruct (Map_get m x) as [[n|method ones]|]; try now apply Map_set_NoDup.
  destruct (mem x Object_prototype); [|now apply Map_set_NoDup].
  destruct (x =? "__proto__"); [exact Hm|now apply Map_set_NoDup].
Qed.

(** X6: under an on-chain map keyed by lower-cased address, the tag object
    of a profile has each key once, and what it holds under a name follows
    from the number of times the name occurs in the tags of the bounties
    claimed under the profile's lower-cased address, completed or not: a
    name that does not occur is no key; a name that occurs and that objects
    do not inherit is a key whose value is the number of its occurrences; a
    name that occurs and is an inherited method (constructor, toString, ...)
    is a key whose value is no count but a text, that of the method followed
    by one "1" for each occurrence; [__proto__] is never a key. *)
Theorem tags_count_occurrences Number bounties onChainData p :
  keyedByLowerCase onChainData ->
  In p (aggregateAgents Number bounties onChainData) ->
  NoDup (Map_keys (p_tags p)) /\
  forall tag,
    Map_get (p_tags p) tag =
    match count_occ string_dec
            (flat_map tagsOf (claimsOf (toLowerCase (address p)) bounties)) tag with
    | 0 => None
    | S c =>
        if mem tag Object_prototype
        then (if tag =? "__proto__" then None else Some (MethodText tag (S c)))
        else Some (Count (S c))
    end.
Proof.
  intros Hk Hp. pose proof (aggregate_profileAt _ _ _ _ Hk Hp) as Hat.
  destruct (profileAt_fields _ _ _ _ _ Hat) as (_ & Ht & _). rewrite Ht. split.
  - apply fold_countTag_NoDup. constructor.
  - intros tag. rewrite fold_countTag_get. cbn [Map_get]. rewrite bumped_iter.
    now destruct (count_occ string_dec _ tag).
Qed.

Lemma tags_count_occurrences_witness :
  NoDup (Map_keys (p_tags inheritedTagsProfile)) /\
  forall tag,
    Map_get (p_tags inheritedTagsProfile) tag =
    match count_occ string_dec
            (flat_map tagsOf (claimsOf "0xabc" [inheritedTagsBounty])) tag with
    | 0 => None
    | S c =>
        if mem tag Object_prototype
        then (if tag =? "__proto__" then None else Some (MethodText tag (S c)))
        else Some (Count (S c))
    end.
Proof.
  apply (tags_count_occurrences Number_decimal [inheritedTagsBounty] lowerCaseKeyMap
           inheritedTagsProfile).
  - exact lowerCaseKeyMap_keyed.
  - right. left. reflexivity.
Defined.

Lemma slice_last_suffix {A : Type} k (a : list A) :
  List.length (slice_last k a) <= k /\
  List.length (slice_last k a) = Nat.min k (List.length a) /\
  exists older, a = older ++ slice_last k a /\
                (List.length a <= k -> older = []).
Proof.
  unfold slice_last. split; [|split].
  - rewrite length_skipn. lia.
  - rewrite length_skipn. lia.
  - exists (firstn (List.length a - k) a). split; [now rewrite firstn_skipn|].
    intros H. replace (List.length a - k) with 0 by lia. reflexivity.
Qed.

Lemma busyKeyMap_keyed : keyedByLowerCase busyKeyMap.
Proof. intros k v [H|[]]. now inversion H. Qed.

(** X7: under an on-chain map keyed by lower-cased address, a profile takes
    its on-chain fields from the record stored under its lower-cased
    address: [recentFeedback] is the last ten entries of the record's
    feedback (the end of that list, ten entries long when the record has
    more than ten and all of them otherwise), [onChainReputation] is the
    record's score, with NaN and -0 replaced by 0 for an address that
    claimed a bounty; without a record the feedback is empty and the
    reputation 0. *)
Theorem onchain_fields_of_profile Number bounties onChainData p :
  keyedByLowerCase onChainData ->
  In p (aggregateAgents Number bounties onChainData) ->
  List.length (recentFeedback p) <= 10 /\
  match Map_get onChainData (toLowerCase (address p)) with
  | Some oc =>
      (exists older, feedback oc = older ++ recentFeedback p /\
                     (List.length (feedback oc) <= 10 -> older = [])) /\
      List.length (recentFeedback p) = Nat.min 10 (List.length (feedback oc)) /\
      onChainReputation p =
        match claimsOf (toLowerCase (address p)) bounties with
        | [] => reputationScore oc
        | _ :: _ => or_zero (reputationScore oc)
        end
  | None => recentFeedback p = [] /\ onChainReputation p = 0%float
  end.
Proof.
  intros Hk Hp. pose proof (aggregate_profileAt _ _ _ _ Hk Hp) as Hat.
  destruct (profileAt_fields _ _ _ _ _ Hat) as (_ & _ & Hf & Hr & _).
  rewrite Hf, Hr. destruct (Map_get onChainData (toLowerCase (address p))) as [oc|].
  - destruct (slice_last_suffix 10 (feedback oc)) as (Hl & Hm & He). auto.
  - simpl. split; [lia|auto].
Qed.

Lemma onchain_fields_of_profile_witness :
  List.length (recentFeedback busyProfile) <= 10 /\
  (exists older, twelveFeedback = older ++ recentFeedback busyProfile /\
                 (List.length twelveFeedback <= 10 -> older = [])) /\
  List.length (recentFeedback busyProfile) = Nat.min 10 (List.length twelveFeedback) /\
  onChainReputation busyProfile = 42%float.
Proof.
  exact (onchain_fields_of_profile Number_decimal
           [exampleBounty "completed" "0xABC" (Some "5000000")] busyKeyMap busyProfile
           busyKeyMap_keyed (or_introl eq_refl)).
Defined.

(** ** Earnings as doubles *)

Section Earnings.

Local Open Scope Z_scope.

Lemma amountOf_text Number b :
  amountOf Number b =
  (match amountText b with Some s => Number s | None => 0 end / 1000000)%float.
Proof.
  unfold amountOf, amountText. destruct (payment b) as [pay|]; [|reflexivity].
  destruct (nonEmpty (grossAmount pay)); [reflexivity|].
  now destruct (nonEmpty (grossReward pay)).
Qed.

Lemma is_nan_true x : PrimFloat.is_nan x = true <-> Prim2SF x = S754_nan.
Proof.
  pose proof (is_nan_false x) as H. destruct (PrimFloat.is_nan x).
  - split; [intros _|reflexivity].
    destruct (Prim2SF x) eqn:E; try reflexivity;
      assert (F : true = false) by (apply H; discriminate); discriminate.
  - split; [discriminate|]. intros E. now apply H in E.
Qed.

Lemma add_nan x y :
  PrimFloat.is_nan x = true \/ PrimFloat.is_nan y = true ->
  PrimFloat.is_nan (x + y) = true.
Proof.
  rewrite !is_nan_true, FloatAxioms.add_spec. unfold SF64add.
  intros [->| ->]; [reflexivity|]. now destruct (Prim2SF x).
Qed.

Lemma div_nan x y : PrimFloat.is_nan x = true -> PrimFloat.is_nan (x / y) = true.
Proof.
  rewrite !is_nan_true, FloatAxioms.div_spec. unfold SF64div. now intros ->.
Qed.

Lemma sum_nan {A : Type} (f : A -> float) l e0 :
  PrimFloat.is_nan e0 = true \/ (exists b, In b l /\ PrimFloat.is_nan (f b) = true) ->
  PrimFloat.is_nan (fold_left (fun e b => (e + f b)%float) l e0) = true.
Proof.
  revert e0. induction l as [|a l IH]; intros e0; simpl.
  - intros [H|(b & [] & _)]. exact H.
  - intros [H|(b & [<-|Hb] & Hn)]; apply IH.
    + left. apply add_nan. now left.
    + left. apply add_nan. now right.
    + right. now exists b.
Qed.

Lemma leb_zero x :
  (0 <=? x)%float = true -> notBelowZero true (Prim2SF x).
Proof.
  rewrite FloatAxioms.leb_spec. change (Prim2SF 0) with (S754_zero false).
  unfold SFleb, SFcompare, notBelowZero.
  destruct (Prim2SF x) as [s|s| |s m e]; try destruct s; auto; discriminate.
Qed.

Lemma notBelowZero_leb x :
  notBelowZero false (Prim2SF x) ->
  PrimFloat.is_nan x = false /\ (0 <=? x)%float = true.
Proof.
  intros H. split.
  - apply is_nan_false. intros E. now rewrite E in H.
  - rewrite FloatAxioms.leb_spec. change (Prim2SF 0) with (S754_zero false).
    unfold SFleb, SFcompare. unfold notBelowZero in H.
    destruct (Prim2SF x) as [s|s| |s m e]; try destruct H as [H|H]; subst;
      try reflexivity; try discriminate; contradiction.
Qed.

Lemma binary_round_notBelowZero p e :
  -1074 <= e -> notBelowZero false (binary_round prec emax false p e).
Proof.
  intros He. destruct (binary_round_bounds false p e He) as (mf & ef & -> & Hmf & _).
  destruct mf as [|q|q]; [now left| |lia].
  now destruct (ef <=? emax - prec).
Qed.

Lemma add_notBelowZero x y :
  notBelowZero false (Prim2SF x) -> notBelowZero true (Prim2SF y) ->
  notBelowZero false (Prim2SF (x + y)).
Proof.
  rewrite FloatAxioms.add_spec. unfold SF64add.
  pose proof (Prim2SF_valid x) as Hvx. pose proof (Prim2SF_valid y) as Hvy.
  destruct (Prim2SF x) as [sx|sx| |sx mx ex]; destruct (Prim2SF y) as [sy|sy| |sy my ey];
    cbn [notBelowZero SFadd]; intros Hx Hy; try contradiction; subst;
    try (destruct Hx as [Hx|Hx]; [subst|discriminate]);
    try (now left); try reflexivity.
  - destruct sy; now left.
  - destruct (valid_finite _ _ _ Hvx) as (Hex & _).
    destruct (valid_finite _ _ _ Hvy) as (Hey & _).
    cbn [cond_Zopp binary_normalize Z.add].
    apply binary_round_notBelowZero. lia.
Qed.

Lemma div_million_notBelowZero x :
  notBelowZero true (Prim2SF x) -> notBelowZero true (Prim2SF (x / 1000000)).
Proof.
  rewrite FloatAxioms.div_spec. unfold SF64div.
  change (Prim2SF 1000000) with (S754_finite false 8589934592000000 (-33)).
  pose proof (Prim2SF_valid x) as Hvx.
  destruct (Prim2SF x) as [sx|sx| |sx mx ex]; cbn [notBelowZero SFdiv xorb];
    intros Hx; try contradiction; subst.
  - destruct sx; simpl; tauto.
  - reflexivity.
  - destruct (SFdiv_core_brackets mx ex 8589934592000000 (-33))
      as (q & e' & l & -> & Hq & He' & Hprec & Hbr).
    cbn [xorb]. rewrite binary_round_aux_eq.
    set (el := Z.min (-1074) e').
    destruct (round_me_bounds el (Zpos mx * 2 ^ (ex - -33 - el)) 8589934592000000 q e' l Hq
                ltac:(subst el; lia) ltac:(subst el; lia) ltac:(lia)
                (Hbr el ltac:(subst el; lia)) Hprec) as (mf & ef & Hr & Hmf & _).
    rewrite Hr.
    cbn [fst snd]. destruct mf as [|p|p]; [now left| |lia].
    now destruct (ef <=? emax - prec).
Qed.

Lemma sum_notBelowZero {A : Type} (f : A -> float) l e0 :
  notBelowZero false (Prim2SF e0) ->
  (forall b, In b l -> notBelowZero true (Prim2SF (f b))) ->
  notBelowZero false (Prim2SF (fold_left (fun e b => (e + f b)%float) l e0)).
Proof.
  revert e0. induction l as [|a l IH]; intros e0 H0 Hl; simpl; [exact H0|].
  apply IH.
  - apply add_notBelowZero; [exact H0|]. apply Hl. now left.
  - intros b Hb. apply Hl. now right.
Qed.

Lemma or_zero_not_nan x : PrimFloat.is_nan (or_zero x) = false.
Proof.
  unfold or_zero, truthy_number. destruct (PrimFloat.is_nan x) eqn:E.
  - rewrite orb_true_r. reflexivity.
  - rewrite orb_false_r. now destruct (PrimFloat.is_zero x).
Qed.

End Earnings.

(** X8: one completed bounty whose amount text [Number] maps to NaN makes
    the [totalEarnings] of its claimant's profile NaN, whatever the other
    bounties of that claimant are. *)
Theorem nan_amount_poisons_earnings Number bounties onChainData p b s :
  keyedByLowerCase onChainData ->
  In p (aggregateAgents Number bounties onChainData) ->
  In b (claimsOf (toLowerCase (address p)) bounties) ->
  isCompleted b = true ->
  amountText b = Some s ->
  PrimFloat.is_nan (Number s) = true ->
  PrimFloat.is_nan (totalEarnings p) = true.
Proof.
  intros Hk Hp Hb Hc Ht Hn.
  pose proof (aggregate_profileAt _ _ _ _ Hk Hp) as Hat.
  destruct (profileAt_fields _ _ _ _ _ Hat) as (_ & _ & _ & _ & _ & ->).
  apply sum_nan. right. exists b. split.
  - apply filter_In. now split.
  - rewrite (rewardOf_completed Number b Hc), amountOf_text, Ht. now apply div_nan.
Qed.

Lemma nan_amount_poisons_earnings_witness :
  PrimFloat.is_nan
    (totalEarnings (nth 0 (aggregateAgents Number_decimal notANumberBounties []) exampleProfile))
  = true.
Proof.
  apply (nan_amount_poisons_earnings Number_decimal notANumberBounties []
           (nth 0 (aggregateAgents Number_decimal notANumberBounties []) exampleProfile)
           (exampleBounty "completed" "0xABC" (Some "abc")) "abc").
  - intros k v [].
  - left. reflexivity.
  - left. reflexivity.
  - reflexivity.
  - reflexivity.
  - reflexivity.
Defined.

(** X9: when [Number] maps the amount text of every completed bounty to a
    double that is at least 0 (so not NaN) and no score of the on-chain map
    is NaN, every profile of [aggregateAgents] has a [totalEarnings] that is
    at least 0 and neither its [totalEarnings] nor its [onChainReputation]
    is NaN. *)
Theorem numeric_inputs_numeric_profiles Number bounties onChainData p :
  (forall b s, In b bounties -> isCompleted b = true -> amountText b = Some s ->
               (0 <=? Number s)%float = true) ->
  (forall k oc, In (k, oc) onChainData -> PrimFloat.is_nan (reputationScore oc) = false) ->
  In p (aggregateAgents Number bounties onChainData) ->
  numericProfile p /\ (0 <=? totalEarnings p)%float = true.
Proof.
  intros Hamounts Hscores Hp. apply aggregate_In in Hp. destruct Hp as [k Hin].
  apply agentsMap_In in Hin.
  destruct (profileAt_fields _ _ _ _ _ Hin) as (_ & _ & _ & Hr & _ & He).
  assert (H : PrimFloat.is_nan (totalEarnings p) = false /\
              (0 <=? totalEarnings p)%float = true).
  { rewrite He. apply notBelowZero_leb. apply sum_notBelowZero; [now left|].
    intros b Hb. apply filter_In in Hb. destruct Hb as [Hb Hc].
    apply claimsOf_In in Hb. destruct Hb as [Hb _].
    rewrite (rewardOf_completed Number b Hc), amountOf_text.
    apply div_million_notBelowZero.
    destruct (amountText b) as [s|] eqn:Ht.
    - apply leb_zero. now apply (Hamounts b s).
    - now left. }
  destruct H as [H1 H2]. split; [split; [|exact H1]|exact H2].
  rewrite Hr. destruct (Map_get onChainData k) as [oc|] eqn:E; [|reflexivity].
  destruct (claimsOf k bounties); [|apply or_zero_not_nan].
  apply (Hscores k oc). now apply Map_get_In.
Qed.

Lemma numeric_inputs_numeric_profiles_witness :
  numericProfile exampleProfile /\ (0 <=? totalEarnings exampleProfile)%float = true.
Proof.
  apply (numeric_inputs_numeric_profiles Number_decimal twoBounties lowerCaseKeyMap).
  - intros b s [<-|[<-|[]]] _ [= <-]; reflexivity.
  - intros k oc [[= <- <-]|[]]. reflexivity.
  - right. left. reflexivity.
Defined.

(** ** Success rates *)

Section Endpoints.

Local Open Scope Z_scope.

(** A positive finite double divided by itself is 1. *)
Lemma div_self x :
  (exists m e, Prim2SF x = S754_finite false m e) -> (x / x)%float = 1%float.
Proof.
  intros (mx & ex & Hx). apply Prim2SF_inj.
  pose proof (div_spec x x) as Hd. rewrite Hx in Hd. unfold SF64div, SFdiv in Hd.
  destruct (SFdiv_core_brackets mx ex mx ex) as (q & e' & l & Hcore & Hq & He' & Hprec & Hbr).
  rewrite Hcore in Hd. cbn [xorb] in Hd.
  set (el := Z.min (-1074) e').
  assert (Hel : el <= -1074 /\ el <= e') by (subst el; lia). clearbody el.
  destruct (round_me_bounds el (Zpos mx * 2 ^ (ex - ex - el)) (Zpos mx) q e' l Hq
              ltac:(lia) ltac:(lia) ltac:(lia) (Hbr el ltac:(lia)) Hprec)
    as (mf & ef & Hr & Hmf & Hef & Hub & Hlb).
  replace (ex - ex - el) with (0 - el) in Hub, Hlb by lia.
  specialize (Hub 1 0 ltac:(lia) ltac:(lia) ltac:(lia)).
  specialize (Hlb 1 0 ltac:(lia) ltac:(lia) ltac:(lia)).
  rewrite Z.mul_1_l in Hub, Hlb.
  assert (Heq : mf * 2 ^ (ef - el) = 2 ^ (0 - el)) by lia.
  rewrite binary_round_aux_eq, Hr in Hd. cbn [fst snd] in Hd.
  pose proof (pow2_pos (0 - el) ltac:(lia)) as HP0.
  pose proof (pow2_pos (ef - el) ltac:(lia)) as HPf.
  destruct mf as [|p|p]; [lia| |lia].
  assert (Hef0 : ef <= 0).
  { destruct (Z_lt_le_dec 0 ef) as [Hgt|]; [exfalso|lia].
    assert (2 ^ (0 - el) < 2 ^ (ef - el)) by (apply pow2_lt; lia). nia. }
  change (emax - prec) with 971 in Hd.
  destruct (Z.leb_spec ef 971) as [_|]; [|lia].
  pose proof (Prim2SF_valid (x / x)) as Hv. rewrite Hd in Hv.
  destruct (valid_finite _ _ _ Hv) as (Hef' & _).
  assert (Hval : Zpos p * 2 ^ (ef + 1074) = Zpos 4503599627370496 * 2 ^ (-52 + 1074)).
  { change (Zpos 4503599627370496 * 2 ^ (-52 + 1074)) with (2 ^ 1074).
    rewrite (pow2_split (-1074 - el) (ef - el)) in Heq by lia.
    rewrite (pow2_split (-1074 - el) (0 - el)) in Heq by lia.
    replace (ef - el - (-1074 - el)) with (ef + 1074) in Heq by lia.
    replace (0 - el - (-1074 - el)) with 1074 in Heq by lia.
    pose proof (pow2_pos (-1074 - el) ltac:(lia)) as HPs.
    apply Z.mul_reg_l with (p := 2 ^ (-1074 - el)); [lia|]. lia. }
  pose proof (compare_magnitude p ef 4503599627370496 (-52) Hv eq_refl) as Hc.
  rewrite Hval, Z.compare_refl in Hc.
  rewrite Hd. change (Prim2SF 1) with (S754_finite false 4503599627370496 (-52)).
  destruct (Z.compare_spec ef (-52)) as [->|?|?]; try discriminate.
  apply Pos.compare_eq in Hc. now subst.
Qed.

(** [+0] divided by a positive finite double is [+0]. *)
Lemma div_zero y :
  (exists m e, Prim2SF y = S754_finite false m e) -> (0 / y)%float = 0%float.
Proof.
  intros (my & ey & Hy). apply Prim2SF_inj. rewrite div_spec, Hy. reflexivity.
Qed.

Lemma rateOf_all agent :
  (bountiesClaimed agent <> 0)%nat ->
  bountiesCompleted agent = bountiesClaimed agent ->
  rateOf agent = 100%float.
Proof.
  intros Hc He. unfold rateOf. rewrite He.
  destruct (Nat.ltb_spec 0 (bountiesClaimed agent)) as [Hpos|]; [|lia].
  destruct (count_number_spec (bountiesClaimed agent)) as (_ & _ & Hfin).
  rewrite (div_self _ (Hfin Hpos)). reflexivity.
Qed.

Lemma rateOf_none agent : bountiesCompleted agent = 0%nat -> rateOf agent = 0%float.
Proof.
  intros He. unfold rateOf. rewrite He.
  destruct (Nat.ltb_spec 0 (bountiesClaimed agent)) as [Hpos|]; [|reflexivity].
  destruct (count_number_spec (bountiesClaimed agent)) as (_ & _ & Hfin).
  change (count_number 0) with 0%float.
  rewrite (div_zero _ (Hfin Hpos)). reflexivity.
Qed.

Lemma small_integer_number n :
  0 <= n <= 100 -> of_uint63 (Uint63.of_Z n) = Number_of_bigint n.
Proof.
  intros Hn.
  assert (H : forallb (fun k => PrimFloat.Leibniz.eqb
                                  (of_uint63 (Uint63.of_Z (Z.of_nat k)))
                                  (Number_of_bigint (Z.of_nat k))) (seq 0 101) = true)
    by (vm_compute; reflexivity).
  rewrite forallb_forall in H. specialize (H (Z.to_nat n)).
  rewrite Z2Nat.id in H by lia.
  apply FloatAxioms.Leibniz.eqb_spec. apply H. apply in_seq. lia.
Qed.

(** [Math.round] of a double between 0 and 100 is one of the integers
    from 0 to 100. *)
Lemma Math_round_integer p :
  nonneg_finite p -> fo p <= 100 * 2 ^ 1074 ->
  exists n, 0 <= n <= 100 /\ Math_round p = Number_of_bigint n.
Proof.
  intros Hp Hle. unfold Math_round. destruct Hp as [Hp|(m & e & Hp)]; rewrite Hp.
  - exists 0. split; [lia|]. apply Prim2SF_inj. rewrite Hp. reflexivity.
  - pose proof (Prim2SF_valid p) as Hv. rewrite Hp in Hv.
    destruct (valid_finite _ _ _ Hv) as (Hev & Hm53 & Hm52).
    unfold fo in Hle. rewrite Hp in Hle. cbn [ord cond_Zopp] in Hle.
    destruct (Z.leb_spec 0 e) as [He|He].
    + exfalso. specialize (Hm52 ltac:(lia)).
      assert (2 ^ 1074 <= 2 ^ (e + 1074)) by (apply pow2_le; lia).
      pose proof (pow2_pos 1074 ltac:(lia)).
      assert (2 ^ 52 * 2 ^ 1074 <= Zpos m * 2 ^ (e + 1074))
        by (apply Z.mul_le_mono_nonneg; lia).
      assert (100 < 2 ^ 52) by reflexivity. nia.
    + cbn [cond_Zopp].
      set (n := (2 * Zpos m + 2 ^ (- e)) / 2 ^ (1 - e)).
      pose proof (pow2_pos (- e) ltac:(lia)) as HP.
      assert (HP1 : 2 ^ (1 - e) = 2 * 2 ^ (- e)).
      { replace (1 - e) with (- e + 1) by lia. apply pow2_succ. lia. }
      assert (Hm : Zpos m <= 100 * 2 ^ (- e)).
      { pose proof (pow2_pos (e + 1074) ltac:(lia)) as HPe.
        apply Z.mul_le_mono_pos_r with (p := 2 ^ (e + 1074)); [exact HPe|].
        rewrite <- Z.mul_assoc, <- pow2_add by lia.
        replace (- e + (e + 1074)) with 1074 by lia. exact Hle. }
      assert (Hn : 0 <= n <= 100).
      { subst n. rewrite HP1. split.
        - apply Z.div_pos; lia.
        - apply Z.lt_succ_r. apply Z.div_lt_upper_bound; lia. }
      exists n. split; [exact Hn|].
      destruct (Z.eqb_spec n 0) as [->|Hn0]; [reflexivity|].
      destruct (Z.ltb_spec 0 n) as [|]; [|lia].
      apply small_integer_number. lia.
Qed.

Lemma rateOf_integer agent :
  (bountiesCompleted agent <= bountiesClaimed agent)%nat ->
  exists n, 0 <= n <= 100 /\ rateOf agent = Number_of_bigint n.
Proof.
  intros Hle. unfold rateOf.
  destruct (Nat.ltb_spec 0 (bountiesClaimed agent)) as [Hpos|];
    [|exists 0; split; [lia|reflexivity]].
  destruct (count_number_spec (bountiesCompleted agent)) as (Hc & Hfc & _).
  destruct (count_number_spec (bountiesClaimed agent)) as (_ & Hfn & Hn).
  destruct (div_le_one _ _ Hc (Hn Hpos)) as [Hq Hq1].
  { rewrite Hfc, Hfn. apply Z.mul_le_mono_nonneg_r; [apply Z.lt_le_incl, pow2_pos|]; lia. }
  destruct (mul_percent _ Hq Hq1) as [Hp Hp1].
  now apply Math_round_integer.
Qed.

End Endpoints.

(** X10: the [successRate] of every profile of [aggregateAgents] is one of
    the integers from 0 to 100; it is 0 for a profile without a completed
    bounty and exactly 100 for a profile all of whose claimed bounties are
    completed. *)
Theorem success_rate_values Number bounties onChainData p :
  In p (aggregateAgents Number bounties onChainData) ->
  (exists n, (0 <= n <= 100)%Z /\ successRate p = Number_of_bigint n) /\
  (bountiesCompleted p = 0 -> successRate p = 0%float) /\
  (bountiesClaimed p <> 0 -> bountiesCompleted p = bountiesClaimed p ->
   successRate p = 100%float).
Proof.
  intros Hp. apply aggregate_In in Hp. destruct Hp as [k Hin].
  apply agentsMap_In in Hin.
  destruct (profileAt_rate _ _ _ _ _ Hin) as (q & -> & Hle).
  cbn [withRate successRate bountiesCompleted bountiesClaimed]. split; [|split].
  - now apply rateOf_integer.
  - apply rateOf_none.
  - apply rateOf_all.
Qed.

Lemma success_rate_values_witness :
  (exists n, (0 <= n <= 100)%Z /\ successRate exampleProfile = Number_of_bigint n) /\
  (bountiesCompleted exampleProfile = 0 -> successRate exampleProfile = 0%float) /\
  (bountiesClaimed exampleProfile <> 0 ->
   bountiesCompleted exampleProfile = bountiesClaimed exampleProfile ->
   successRate exampleProfile = 100%float).
Proof.
  apply (success_rate_values Number_decimal
           [exampleBounty "completed" "0xABC" (Some "5000000")] []).
  left. reflexivity.
Defined.

(** ** Contract reads *)

Lemma feedbackEntries_tuples tuples :
  feedbackEntries (map Some tuples) = Normal (map feedbackOf tuples).
Proof.
  induction tuples as [|t l IH]; simpl; [reflexivity|]. now rewrite IH.
Qed.

Lemma feedbackEntries_nullish elems : In None elems -> feedbackEntries elems = Throw.
Proof.
  induction elems as [|f l IH]; simpl; [tauto|].
  intros [->|H]; [reflexivity|]. rewrite (IH H). now destruct (feedbackEntry f).
Qed.

(** X11: the record [fetchOnChainReputation] returns. When the feedback
    read yields an array of tuples, the feedback has one entry per tuple, in
    order, and the score is the number read, 0 if the score read failed; when
    the array holds a nullish element, the result is the record with score 0
    and no feedback, even if the score was read; when the feedback read
    fails or does not yield an array, the feedback is empty and the score is
    kept. *)
Theorem fetchOnChainReputation_decodes reg address :
  match getFeedback reg address with
  | Fulfilled (FeedbackArray elems) =>
      (forall tuples, elems = map Some tuples ->
         fetchOnChainReputation reg address =
         Normal {| oc_address := address;
                   reputationScore := scoreOf reg address;
                   feedback := map feedbackOf tuples |}) /\
      (In None elems ->
         fetchOnChainReputation reg address =
         Normal {| oc_address := address; reputationScore := 0; feedback := [] |})
  | _ =>
      fetchOnChainReputation reg address =
      Normal {| oc_address := address;
                reputationScore := scoreOf reg address;
                feedback := [] |}
  end.
Proof.
  unfold fetchOnChainReputation, fetchOnChainReputation_try, scoreOf.
  destruct (getFeedback reg address) as [[elems|]|]; try reflexivity. split.
  - intros tuples ->. now rewrite feedbackEntries_tuples.
  - intros H. now rewrite (feedbackEntries_nullish _ H).
Qed.

Lemma enumerateTask_read reg i m :
  (exists a rep, getAgentByIndex reg (Z.of_nat i) = Fulfilled a /\
                 fetchOnChainReputation reg a = Normal rep /\
                 enumerateTask reg i m = Map_set m (toLowerCase a) rep) \/
  (getAgentByIndex reg (Z.of_nat i) = Rejected /\ enumerateTask reg i m = m).
Proof.
  unfold enumerateTask. destruct (getAgentByIndex reg (Z.of_nat i)) as [a|] eqn:E.
  - left. destruct (fetchOnChainReputation_address reg a) as (rep & Hrep & _).
    exists a, rep. rewrite Hrep. simpl. auto.
  - right. auto.
Qed.

Lemma enumerate_loop_entries reg l m k v :
  In (k, v) (fold_left (fun reputationMap i => enumerateTask reg i reputationMap) l m) ->
  In (k, v) m \/
  exists i a, In i l /\ getAgentByIndex reg (Z.of_nat i) = Fulfilled a /\
              k = toLowerCase a /\ fetchOnChainReputation reg a = Normal v.
Proof.
  revert m. induction l as [|i l IH]; intros m; simpl; [now left|].
  intros H. apply IH in H. destruct H as [H|(j & b & Hj & Hb & Hk & Hv)].
  - destruct (enumerateTask_read reg i m) as [(a & rep & Hi & Hrep & E)|[_ E]];
      rewrite E in H; [|now left].
    apply Map_set_In in H. destruct H as [H|H]; [|now left].
    inversion H; subst. right. exists i, a. auto.
  - right. exists j, b. auto.
Qed.

Lemma enumerate_loop_NoDup reg l m :
  NoDup (Map_keys m) ->
  NoDup (Map_keys (fold_left (fun reputationMap i => enumerateTask reg i reputationMap) l m)).
Proof.
  revert m. induction l as [|i l IH]; intros m Hm; simpl; [exact Hm|].
  apply IH. destruct (enumerateTask_cases reg i m) as [(a & rep & _ & _ & ->)|[_ ->]];
    [now apply Map_set_NoDup|exact Hm].
Qed.

Lemma fetchAllOnChainAgents_NoDup reg latency :
  NoDup (Map_keys (fetchAllOnChainAgents reg latency)).
Proof.
  unfold fetchAllOnChainAgents.
  destruct (0 <? match getAgentCount reg with Fulfilled value => value | Rejected => 0 end)%Z.
  - apply enumerate_loop_NoDup. constructor.
  - constructor.
Qed.

Lemma fetchAllOnChainAgents_keyed reg latency :
  keyedByLowerCase (fetchAllOnChainAgents reg latency).
Proof.
  unfold fetchAllOnChainAgents.
  destruct (0 <? match getAgentCount reg with Fulfilled value => value | Rejected => 0 end)%Z.
  - apply enumerate_loop_keyed. intros k v [].
  - intros k v [].
Qed.

Lemma fetchAllOnChainAgents_read reg latency k v :
  In (k, v) (fetchAllOnChainAgents reg latency) ->
  exists count i a,
    getAgentCount reg = Fulfilled count /\ (0 <= i < Z.min count 50)%Z /\
    getAgentByIndex reg i = Fulfilled a /\ k = toLowerCase a /\
    fetchOnChainReputation reg a = Normal v.
Proof.
  unfold fetchAllOnChainAgents.
  destruct (getAgentCount reg) as [count|]; [|intros []].
  destruct (Z.ltb_spec 0 count) as [Hpos|Hneg]; [|intros []].
  intros H. apply enumerate_loop_entries in H.
  destruct H as [[]|(i & a & Hi & Ha & Hk & Hv)].
  apply (Permutation_in _ (completion_order_perm _ _)), in_seq in Hi.
  exists count, (Z.of_nat i), a. repeat split; try assumption; lia.
Qed.


(** X12: the map [fetchAllOnChainAgents] returns has each key once, and
    every entry holds, under the lower-cased address read at an index below
    [min(count, 50)], the record [fetchOnChainReputation] returns for that
    address. *)
Theorem fetchAllOnChainAgents_entries reg latency :
  NoDup (Map_keys (fetchAllOnChainAgents reg latency)) /\
  forall k v, In (k, v) (fetchAllOnChainAgents reg latency) ->
    exists count i a,
      getAgentCount reg = Fulfilled count /\ (0 <= i < Z.min count 50)%Z /\
      getAgentByIndex reg i = Fulfilled a /\ k = toLowerCase a /\
      fetchOnChainReputation reg a = Normal v.
Proof.
  split; [apply fetchAllOnChainAgents_NoDup|apply fetchAllOnChainAgents_read].
Qed.




(** ** A refresh *)

Lemma backfillTask_cases reg addr m :
  exists rep, fetchOnChainReputation reg addr = Normal rep /\ oc_address rep = addr /\
    backfillTask reg addr m =
    if (0 <? reputationScore rep)%float || (0 <? List.length (feedback rep))%nat
    then Map_set m addr rep else m.
Proof.
  unfold backfillTask.
  destruct (fetchOnChainReputation_address reg addr) as (rep & Hrep & Ha).
  exists rep. rewrite Hrep. simpl. auto.
Qed.

Lemma backfill_loop_keyed reg l m :
  (forall a, In a l -> toLowerCase a = a) ->
  keyedByLowerCase m ->
  keyedByLowerCase (fold_left (fun m addr => backfillTask reg addr m) l m).
Proof.
  revert m. induction l as [|a l IH]; intros m Hl Hm; simpl; [exact Hm|].
  apply IH; [intros x Hx; apply Hl; now right|].
  destruct (backfillTask_cases reg a m) as (rep & _ & Ha & ->).
  destruct ((0 <? reputationScore rep)%float || (0 <? List.length (feedback rep))%nat);
    [|exact Hm].
  intros k v H. apply Map_set_In in H. destruct H as [H|H]; [|now apply Hm].
  inversion H; subst. symmetry. apply Hl. now left.
Qed.

Lemma backfilled_keyed w bounties : keyedByLowerCase (backfilled w bounties).
Proof.
  unfold backfilled. apply backfill_loop_keyed; [|apply fetchAllOnChainAgents_keyed].
  intros a Ha. apply (Permutation_in _ (completion_order_perm _ _)) in Ha.
  unfold missingAddresses in Ha. apply filter_In in Ha. destruct Ha as [Ha _].
  now apply uniqueAddresses_lower in Ha.
Qed.

Lemma aggregate_addresses_NoDup Number bounties onChainData :
  keyedByLowerCase onChainData ->
  NoDup (map (fun p => toLowerCase (address p))
           (aggregateAgents Number bounties onChainData)).
Proof.
  intros Hk. unfold aggregateAgents.
  apply (Permutation_NoDup
           (Permutation_sym (Permutation_map _ (sort_perm byReputationThenEarnings _)))).
  assert (E : map (fun p => toLowerCase (address p))
                (Map_values (agentsMap Number bounties onChainData)) =
              Map_keys (agentsMap Number bounties onChainData)).
  { unfold Map_values, Map_keys. rewrite map_map. apply map_ext_in.
    intros [k p] Hin. simpl. now apply (profile_key Number bounties onChainData Hk). }
  rewrite E. apply agentsMap_NoDup.
Qed.

(** What a call that misses the cache returns. *)
Lemma getAgents_miss Number cache w now later agents cache' effects :
  cacheHit cache now = None ->
  getAgents Number cache w now later = (Normal agents, cache', effects) ->
  exists bounties,
    titledBounties w = Normal bounties /\
    agents = aggregateAgents Number bounties (backfilled w bounties) /\
    cache' = {| cachedAgents := Some agents; cacheTime := later |} /\
    effects = [FetchBounties; EnumerateAgents]
                ++ map BackfillReputation (missingAddresses w bounties) ++ [Aggregate].
Proof.
  intros Hmiss H. unfold getAgents in H. rewrite Hmiss in H.
  destruct (titledBounties w) as [bounties|] eqn:E.
  - rewrite (refresh_eq _ _ _ _ _ E) in H. injection H as <- <- <-. exists bounties. auto.
  - destruct (refresh_throw Number cache w later E) as (effects' & Hr).
    rewrite Hr in H. discriminate.
Qed.

(** X14: the profiles a call of [getAgents] computes (a call that does not
    hit the cache) have pairwise different addresses, compared
    case-insensitively: the map it passes to [aggregateAgents], enumerated
    and backfilled, is keyed by lower-cased address. *)
Theorem getAgents_one_profile_per_address Number cache w now later agents cache' effects :
  cacheHit cache now = None ->
  getAgents Number cache w now later = (Normal agents, cache', effects) ->
  NoDup (map (fun p => toLowerCase (address p)) agents).
Proof.
  intros Hmiss H.
  destruct (getAgents_miss _ _ _ _ _ _ _ _ Hmiss H) as (bounties & _ & -> & _).
  apply aggregate_addresses_NoDup, backfilled_keyed.
Qed.

Lemma getAgents_one_profile_per_address_witness :
  NoDup (map (fun p => toLowerCase (address p)) [secondProfile; exampleProfile]).
Proof.
  apply (getAgents_one_profile_per_address Number_decimal initialCache twoClaimantsWorld 0 5
           [secondProfile; exampleProfile]
           {| cachedAgents := Some [secondProfile; exampleProfile]; cacheTime := 5 |}
           [FetchBounties; EnumerateAgents; BackfillReputation "0xabc";
            BackfillReputation "0xdef"; Aggregate]);
    reflexivity.
Defined.

Lemma completion_order_nil {A : Type} latency : completion_order latency (@nil A) = [].
Proof. reflexivity. Qed.

(** X15: when the bounty endpoint cannot be fetched, a call of
    [getAgents] that does not hit the cache does not fail: it reads no
    reputation one by one, returns one profile per agent enumerated from the
    registry, with that agent's address, score and last ten feedback entries
    and no bounty activity, and stores this result in the cache. *)
Theorem getAgents_without_bounties Number cache w now later :
  cacheHit cache now = None ->
  bountyApi w = Rejected ->
  exists agents,
    getAgents Number cache w now later =
      (Normal agents, {| cachedAgents := Some agents; cacheTime := later |},
       [FetchBounties; EnumerateAgents; Aggregate]) /\
    List.length agents =
      List.length (fetchAllOnChainAgents (registry w) (enumerationLatency w)) /\
    forall p, In p agents ->
      exists k oc,
        In (k, oc) (fetchAllOnChainAgents (registry w) (enumerationLatency w)) /\
        p = {| address := oc_address oc;
               onChainReputation := reputationScore oc;
               totalEarnings := 0;
               bountiesCompleted := 0;
               bountiesClaimed := 0;
               successRate := 0;
               p_tags := [];
               recentFeedback := slice_last 10 (feedback oc);
               history := [] |}.
Proof.
  intros Hmiss Hapi.
  assert (Hb : backfilled w [] = fetchAllOnChainAgents (registry w) (enumerationLatency w))
    by reflexivity.
  exists (aggregateAgents Number [] (backfilled w [])). split; [|split].
  - unfold getAgents. rewrite Hmiss.
    now rewrite (refresh_eq _ _ _ _ _ (titledBounties_rejected w Hapi)).
  - rewrite aggregate_length, agentsMap_keys, Hb. simpl.
    rewrite (Set_of_id _ (fetchAllOnChainAgents_NoDup _ _)).
    rewrite forallb_filter_id by now apply forallb_forall.
    unfold Map_keys. now rewrite length_map.
  - intros p Hp. apply aggregate_In in Hp. destruct Hp as [k Hin].
    apply agentsMap_In in Hin. unfold profileAt in Hin. simpl in Hin.
    rewrite Hb in Hin.
    destruct (Map_get (fetchAllOnChainAgents (registry w) (enumerationLatency w)) k)
      as [oc|] eqn:E; [|discriminate].
    injection Hin as <-. exists k, oc. split; [now apply Map_get_In|reflexivity].
Qed.

Lemma getAgents_without_bounties_witness :
  exists agents,
    getAgents Number_decimal initialCache offlineWorld 0 5 =
      (Normal agents, {| cachedAgents := Some agents; cacheTime := 5 |},
       [FetchBounties; EnumerateAgents; Aggregate]) /\
    List.length agents = 2.
Proof.
  destruct (getAgents_without_bounties Number_decimal initialCache offlineWorld 0 5
              eq_refl eq_refl) as (agents & H & Hlen & _).
  exists agents. split; [exact H|exact Hlen].
Defined.






Lemma isTitled_In items b :
  In b (filter isTitled items) <->
  In b items /\ exists t, title b = Some t /\ t <> EmptyString.
Proof.
  rewrite filter_In. unfold isTitled, or_else.
  split; intros [Hb Ht]; split; try exact Hb.
  - destruct (title b) as [t|]; [|discriminate]. exists t. split; [reflexivity|].
    apply truthy_string_true. now destruct (truthy_string t).
  - destruct Ht as (t & -> & Hne). apply truthy_string_true in Hne. now rewrite Hne.
Qed.

(** X17: in the profiles a call of [getAgents] computes, every history
    entry is the entry of a fetched bounty that has a title, and carries that
    title, which is not empty: a bounty without a title is in no history. *)
Theorem getAgents_history_titles Number cache w now later items agents cache' effects :
  cacheHit cache now = None ->
  bountyApi w = Fulfilled (JsonArray items) ->
  getAgents Number cache w now later = (Normal agents, cache', effects) ->
  forall p h, In p agents -> In h (history p) ->
    h_title h <> EmptyString /\
    exists b, In b items /\ title b = Some (h_title h) /\
              bountyId h = id b /\ h_status h = status b.
Proof.
  intros Hmiss Hapi H p h Hp Hh.
  destruct (getAgents_miss _ _ _ _ _ _ _ _ Hmiss H) as (bounties & Hb & -> & _).
  rewrite (titledBounties_typed w items Hapi) in Hb. injection Hb as <-.
  pose proof (aggregate_profileAt _ _ _ _ (backfilled_keyed w _) Hp) as Hat.
  destruct (profileAt_fields _ _ _ _ _ Hat) as (E & _). rewrite E in Hh.
  apply in_map_iff in Hh. destruct Hh as (b & <- & Hin).
  apply claimsOf_In in Hin. destruct Hin as [Hin _].
  apply isTitled_In in Hin. destruct Hin as (Hin & t & Ht & Hne).
  simpl. unfold nonEmpty. rewrite Ht.
  destruct (String.eqb_spec t EmptyString) as [->|_]; [congruence|].
  split; [exact Hne|]. exists b. auto.
Qed.

Lemma getAgents_history_titles_witness :
  "Fix bug" <> EmptyString /\
  exists b,
    In b [{| id := "0"; title := None; status := "claimed"; tags := None;
             claimedBy := Some "0xABC"; createdAt := None; payment := None |};
          exampleBounty "completed" "0xABC" (Some "5000000")] /\
    title b = Some "Fix bug" /\ "1" = id b /\ "completed" = status b.
Proof.
  exact (getAgents_history_titles Number_decimal initialCache untitledWorld 0 5 _
           [exampleProfile]
           {| cachedAgents := Some [exampleProfile]; cacheTime := 5 |}
           [FetchBounties; EnumerateAgents; BackfillReputation "0xabc"; Aggregate]
           eq_refl eq_refl eq_refl exampleProfile
           {| bountyId := "1"; h_title := "Fix bug"; reward := 5;
              h_status := "completed"; date := EmptyString |}
           (or_introl eq_refl) (or_introl eq_refl)).
Defined.

(** X18: a call of [getAgents] that does not hit the cache fetches the
    bounties, enumerates the registry, then reads one by one the reputation
    of exactly the lower-cased addresses of the profiles with a claimed
    bounty that the enumeration did not return, each once, and aggregates
    last. *)
Theorem getAgents_backfill_reads Number cache w now later agents cache' effects :
  cacheHit cache now = None ->
  getAgents Number cache w now later = (Normal agents, cache', effects) ->
  exists missing,
    effects = [FetchBounties; EnumerateAgents]
                ++ map BackfillReputation missing ++ [Aggregate] /\
    NoDup missing /\
    forall a,
      In a missing <->
      (exists p, In p agents /\ bountiesClaimed p <> 0 /\ a = toLowerCase (address p)) /\
      ~ In a (Map_keys (fetchAllOnChainAgents (registry w) (enumerationLatency w))).
Proof.
  intros Hmiss H.
  destruct (getAgents_miss _ _ _ _ _ _ _ _ Hmiss H) as (bounties & _ & -> & _ & ->).
  pose proof (backfilled_keyed w bounties) as Hk.
  exists (missingAddresses w bounties). split; [reflexivity|]. split.
  - unfold missingAddresses. apply NoDup_filter, Set_of_NoDup.
  - intros a. unfold missingAddresses. rewrite filter_In, negb_true_iff.
    rewrite <- not_true_iff_false, Map_has_true, uniqueAddresses_In.
    apply and_iff_compat_r. split.
    + intros Hne.
      destruct (profileAt Number bounties (backfilled w bounties) a) as [p|] eqn:Hat.
      * exists p.
        assert (Hin : In (a, p) (agentsMap Number bounties (backfilled w bounties)))
          by now apply agentsMap_In.
        split; [apply aggregate_In; now exists a|].
        split; [|symmetry; now apply (profile_key Number bounties _ Hk)].
        unfold profileAt in Hat.
        destruct (claimsOf a bounties) as [|b0 rest]; [congruence|].
        injection Hat as <-.
        destruct (recordAll_fields Number (b0 :: rest)
                    (claimantProfile
                       (match claimedBy b0 with Some a0 => a0 | None => EmptyString end)
                       (Map_get (backfilled w bounties) a))) as (_ & _ & _ & Hc & _).
        cbn [withRate bountiesClaimed]. 
        change (recordAll Number rest _) with
          (recordAll Number (b0 :: rest)
             (claimantProfile
                (match claimedBy b0 with Some a0 => a0 | None => EmptyString end)
                (Map_get (backfilled w bounties) a))).
        rewrite Hc. simpl. lia.
      * unfold profileAt in Hat. destruct (claimsOf a bounties); [congruence|discriminate].
    + intros (p & Hp & Hc & ->) Hnil.
      pose proof (aggregate_profileAt _ _ _ _ Hk Hp) as Hat.
      destruct (profileAt_onchain_address _ _ _ _ _ Hat Hnil) as (_ & _ & _ & H0 & _).
      congruence.
Qed.

Lemma getAgents_backfill_reads_witness :
  exists missing,
    [FetchBounties; EnumerateAgents; BackfillReputation "0xabc"; Aggregate] =
      [FetchBounties; EnumerateAgents] ++ map BackfillReputation missing ++ [Aggregate] /\
    NoDup missing.
Proof.
  destruct (getAgents_backfill_reads Number_decimal initialCache exampleWorld 0 5
              [exampleProfile]
              {| cachedAgents := Some [exampleProfile]; cacheTime := 5 |}
              [FetchBounties; EnumerateAgents; BackfillReputation "0xabc"; Aggregate]
              eq_refl eq_refl) as (missing & He & Hnd & _).
  exists missing. split; [exact He|exact Hnd].
Defined.

Lemma backfill_loop_other reg l m k :
  ~ In k l ->
  Map_get (fold_left (fun m addr => backfillTask reg addr m) l m) k = Map_get m k.
Proof.
  revert m. induction l as [|a l IH]; intros m Hk; simpl; [reflexivity|].
  rewrite IH by (intros H; apply Hk; now right).
  destruct (backfillTask_cases reg a m) as (rep & _ & _ & ->).
  destruct ((0 <? reputationScore rep)%float || (0 <? List.length (feedback rep))%nat);
    [|reflexivity].
  apply Map_get_set_ne. intros ->. apply Hk. now left.
Qed.

(** What the backfill leaves under an address it reads. *)
Lemma backfill_loop_read reg l m k rep :
  NoDup l -> In k l ->
  fetchOnChainReputation reg k = Normal rep ->
  Map_get (fold_left (fun m addr => backfillTask reg addr m) l m) k =
  if (0 <? reputationScore rep)%float || (0 <? List.length (feedback rep))%nat
  then Some rep else Map_get m k.
Proof.
  intros Hnd. revert m. induction Hnd as [|a l Ha Hnd IH]; intros m Hk Hrep; [destruct Hk|].
  simpl. destruct Hk as [->|Hk].
  - rewrite backfill_loop_other by exact Ha.
    destruct (backfillTask_cases reg k m) as (rep' & Hrep' & _ & ->).
    rewrite Hrep in Hrep'. injection Hrep' as <-.
    destruct ((0 <? reputationScore rep)%float || (0 <? List.length (feedback rep))%nat);
      [apply Map_get_set_eq|reflexivity].
  - rewrite (IH _ Hk Hrep).
    destruct ((0 <? reputationScore rep)%float || (0 <? List.length (feedback rep))%nat);
      [reflexivity|].
    destruct (backfillTask_cases reg a m) as (rep' & _ & _ & ->).
    destruct ((0 <? reputationScore rep')%float || (0 <? List.length (feedback rep'))%nat);
      [|reflexivity].
    apply Map_get_set_ne. intros ->. contradiction.
Qed.

Lemma positive_truthy x : (0 <? x)%float = true -> or_zero x = x.
Proof.
  intros H. unfold or_zero. rewrite truthy_number_sign.
  rewrite positive_sign in H. apply Z.eqb_eq in H. now rewrite H.
Qed.

(** X19: in the profiles a call of [getAgents] computes, a claimant that
    the enumeration of the registry did not return shows what the read of
    its lower-cased address returns: [recentFeedback] is the last ten
    entries of the feedback read, [onChainReputation] is the score read when
    that score is greater than 0, and 0 when the score is not greater than 0
    and there is no feedback. *)
Theorem backfilled_claimant_fields Number cache w now later agents cache' effects p rep :
  cacheHit cache now = None ->
  getAgents Number cache w now later = (Normal agents, cache', effects) ->
  In p agents ->
  bountiesClaimed p <> 0 ->
  ~ In (toLowerCase (address p))
       (Map_keys (fetchAllOnChainAgents (registry w) (enumerationLatency w))) ->
  fetchOnChainReputation (registry w) (toLowerCase (address p)) = Normal rep ->
  recentFeedback p = slice_last 10 (feedback rep) /\
  ((0 <? reputationScore rep)%float = true -> onChainReputation p = reputationScore rep) /\
  ((0 <? reputationScore rep)%float = false -> feedback rep = [] ->
   onChainReputation p = 0%float).
Proof.
  intros Hmiss H Hp Hc Hnew Hrep.
  destruct (getAgents_miss _ _ _ _ _ _ _ _ Hmiss H) as (bounties & _ & -> & _).
  pose proof (backfilled_keyed w bounties) as Hk.
  pose proof (aggregate_profileAt _ _ _ _ Hk Hp) as Hat.
  set (k := toLowerCase (address p)) in *.
  assert (Hcl : claimsOf k bounties <> []).
  { intros Hnil.
    destruct (profileAt_onchain_address _ _ _ _ _ Hat Hnil) as (_ & _ & _ & H0 & _).
    congruence. }
  assert (Hin : In k (completion_order (backfillLatency w) (missingAddresses w bounties))).
  { apply (Permutation_in _ (Permutation_sym (completion_order_perm _ _))).
    unfold missingAddresses. apply filter_In. split; [now apply uniqueAddresses_In|].
    apply negb_true_iff, not_true_iff_false. now rewrite Map_has_true. }
  assert (Hnd : NoDup (completion_order (backfillLatency w) (missingAddresses w bounties))).
  { apply (Permutation_NoDup (Permutation_sym (completion_order_perm _ _))).
    unfold missingAddresses. apply NoDup_filter, Set_of_NoDup. }
  assert (Hget : Map_get (backfilled w bounties) k =
                 if (0 <? reputationScore rep)%float || (0 <? List.length (feedback rep))%nat
                 then Some rep else None).
  { unfold backfilled. rewrite (backfill_loop_read _ _ _ k rep Hnd Hin Hrep).
    destruct ((0 <? reputationScore rep)%float || (0 <? List.length (feedback rep))%nat);
      [reflexivity|]. now apply Map_get_None. }
  destruct (profileAt_fields _ _ _ _ _ Hat) as (_ & _ & Hf & Hr & _).
  rewrite Hget in Hf, Hr.
  destruct (claimsOf k bounties) as [|b0 rest]; [congruence|].
  destruct (0 <? reputationScore rep)%float eqn:Hs; cbn [orb] in Hf, Hr.
  - rewrite Hf, Hr. split; [reflexivity|]. split; [|discriminate].
    intros _. now apply positive_truthy.
  - destruct (feedback rep) as [|f fs] eqn:Hfb; cbn [List.length Nat.ltb Nat.leb] in Hf, Hr.
    + rewrite Hf, Hr. split; [reflexivity|]. split; [discriminate|reflexivity].
    + rewrite Hfb in Hf. rewrite Hf. split; [reflexivity|]. split; discriminate.
Qed.

Lemma backfilled_claimant_fields_witness :
  recentFeedback scoredProfile = slice_last 10 [] /\
  ((0 <? 7)%float = true -> onChainReputation scoredProfile = 7%float) /\
  ((0 <? 7)%float = false -> @nil Feedback = [] ->
   onChainReputation scoredProfile = 0%float).
Proof.
  apply (backfilled_claimant_fields Number_decimal initialCache scoredWorld 0 5
           [scoredProfile]
           {| cachedAgents := Some [scoredProfile]; cacheTime := 5 |}
           [FetchBounties; EnumerateAgents; BackfillReputation "0xabc"; Aggregate]
           scoredProfile
           {| oc_address := "0xabc"; reputationScore := 7; feedback := [] |});
    try reflexivity.
  - left. reflexivity.
  - discriminate.
  - intros [].
Defined.




(** ** The request handler *)

Lemma startsWith_app s p : startsWith s p = true <-> exists rest, s = (p ++ rest)%string.
Proof.
  revert s. induction p as [|c p IH]; intros s; simpl.
  - split; [intros _; now exists s|reflexivity].
  - destruct s as [|d s]; [split; [discriminate|intros [rest H]; discriminate]|].
    rewrite andb_true_iff, IH, Ascii.eqb_eq. split.
    + intros [-> [rest ->]]. now exists rest.
    + intros [rest [= -> ->]]. split; [reflexivity|now exists rest].
Qed.

Lemma split_from_skip sep p piece s :
  split_from sep (String.length p) piece (p ++ s)%string = split_from sep 0 piece s.
Proof. induction p as [|c p IH]; simpl; [now destruct s|exact IH]. Qed.

Lemma append_assoc (a b c : string) : ((a ++ b) ++ c = a ++ (b ++ c))%string.
Proof. induction a as [|x a IH]; simpl; [reflexivity|now rewrite IH]. Qed.

Lemma append_nil_r (a : string) : (a ++ EmptyString)%string = a.
Proof. induction a as [|x a IH]; simpl; [reflexivity|now rewrite IH]. Qed.

Lemma append_length (a b : string) :
  String.length (a ++ b) = String.length a + String.length b.
Proof. induction a as [|c a IH]; simpl; [reflexivity|now rewrite IH]. Qed.

Lemma split_from_absent sep piece s :
  sep <> EmptyString -> ~ occursIn sep s ->
  split_from sep 0 piece s = [(piece ++ s)%string].
Proof.
  intros Hsep. revert piece. induction s as [|c s IH]; intros piece Hno; simpl.
  - now rewrite append_nil_r.
  - destruct sep as [|c0 sep0]; [congruence|].
    destruct (startsWith (String c s) (String c0 sep0)) eqn:E.
    + exfalso. apply Hno. apply startsWith_app in E. destruct E as [rest E].
      exists EmptyString, rest. exact E.
    + rewrite IH.
      * now rewrite append_assoc.
      * intros (pre & post & ->). apply Hno. now exists (String c pre), post.
Qed.

(** The piece behind a leading separator. *)
Lemma split_segment sep a :
  sep <> EmptyString -> ~ occursIn sep a ->
  split (sep ++ a)%string sep = [EmptyString; a].
Proof.
  intros Hsep Hno. unfold split. destruct sep as [|c sep0]; [congruence|].
  change (String c sep0 ++ a)%string with (String c (sep0 ++ a)%string).
  cbn [split_from].
  assert (E : startsWith (String c (sep0 ++ a)%string) (String c sep0) = true).
  { apply startsWith_app. now exists a. }
  rewrite E. f_equal.
  replace (String.length (String c sep0) - 1) with (String.length sep0)
    by (simpl; lia).
  rewrite split_from_skip. now apply split_from_absent.
Qed.

Lemma occursIn_length sep s : occursIn sep s -> String.length sep <= String.length s.
Proof.
  intros (pre & post & ->). rewrite !append_length. lia.
Qed.



Lemma apiReputation_ok reg addr :
  exists rep,
    fetchOnChainReputation reg addr = Normal rep /\ oc_address rep = addr /\
    apiReputation reg addr =
    {| content := ReputationJson rep; status_code := 200; headers := [] |}.
Proof.
  destruct (fetchOnChainReputation_address reg addr) as (rep & Hrep & Ha).
  exists rep. unfold apiReputation. rewrite Hrep. auto.
Qed.




(** X22: a request for [/api/reputation/] followed by a text in which that
    prefix does not occur again is answered 200 with the record
    [fetchOnChainReputation] returns for that text, letter case kept, and
    leaves the cache as it is. *)
Theorem serve_reputation_route Number cache w now later a :
  ~ occursIn "/api/reputation/" a ->
  exists rep,
    fetchOnChainReputation (registry w) a = Normal rep /\ oc_address rep = a /\
    serve Number cache w now later ("/api/reputation/" ++ a)%string =
    ({| content := ReputationJson rep; status_code := 200; headers := [] |}, cache, []).
Proof.
  intros Hno.
  destruct (apiReputation_ok (registry w) a) as (rep & Hrep & Ha & E).
  exists rep. split; [exact Hrep|]. split; [exact Ha|].
  unfold serve.
  change (("/api/reputation/" ++ a)%string =? "/api/agents") with false.
  change (startsWith ("/api/reputation/" ++ a)%string "/api/agent/") with false.
  change (startsWith ("/api/reputation/" ++ a)%string "/api/reputation/")
    with (startsWith a EmptyString).
  cbn [startsWith]. rewrite split_segment by (discriminate || exact Hno).
  cbn [nth]. now rewrite E.
Qed.

Lemma serve_reputation_route_witness :
  exists rep,
    fetchOnChainReputation deadRegistry "0xABC" = Normal rep /\ oc_address rep = "0xABC" /\
    serve Number_decimal initialCache exampleWorld 0 5 "/api/reputation/0xABC" =
    ({| content := ReputationJson rep; status_code := 200; headers := [] |},
     initialCache, []).
Proof.
  apply (serve_reputation_route Number_decimal initialCache exampleWorld 0 5 "0xABC").
  intros H. apply occursIn_length in H. simpl in H. lia.
Defined.

(** X23: a request for [/api/agent/] followed by a text in which that
    prefix does not occur again is answered as the single-profile request
    for that whole text. *)
Theorem serve_agent_route Number cache w now later a :
  ~ occursIn "/api/agent/" a ->
  serve Number cache w now later ("/api/agent/" ++ a)%string =
  (agentReply (fst (fst (apiAgent Number cache w now later a))),
   snd (fst (apiAgent Number cache w now later a)),
   snd (apiAgent Number cache w now later a)).
Proof.
  intros Hno. unfold serve.
  change (("/api/agent/" ++ a)%string =? "/api/agents") with false.
  change (startsWith ("/api/agent/" ++ a)%string "/api/agent/")
    with (startsWith a EmptyString).
  cbn [startsWith]. rewrite split_segment by (discriminate || exact Hno).
  cbn [nth]. now destruct (apiAgent Number cache w now later a) as [[r cache'] effects].
Qed.

Lemma serve_agent_route_witness :
  serve Number_decimal initialCache exampleWorld 0 5 "/api/agent/0xABC" =
  (agentReply (fst (fst (apiAgent Number_decimal initialCache exampleWorld 0 5 "0xABC"))),
   snd (fst (apiAgent Number_decimal initialCache exampleWorld 0 5 "0xABC")),
   snd (apiAgent Number_decimal initialCache exampleWorld 0 5 "0xABC")).
Proof.
  apply (serve_agent_route Number_decimal initialCache exampleWorld 0 5 "0xABC").
  intros H. apply occursIn_length in H. simpl in H. lia.
Defined.

(** ** Abbreviated addresses *)

Lemma slice_to_from k s : (slice_to k s ++ slice_from k s)%string = s.
Proof.
  revert s. induction k as [|k IH]; intros [|c s]; simpl; try reflexivity.
  now rewrite IH.
Qed.

Lemma slice_to_length k s : String.length (slice_to k s) = Nat.min k (String.length s).
Proof.
  revert s. induction k as [|k IH]; intros [|c s]; simpl; try reflexivity.
  now rewrite IH.
Qed.

Lemma slice_from_length n s : String.length (slice_from n s) = String.length s - n.
Proof.
  revert s. induction n as [|n IH]; intros [|c s]; simpl; try reflexivity.
  apply IH.
Qed.

Lemma slice_from_add n m s : slice_from (n + m) s = slice_from m (slice_from n s).
Proof.
  revert s. induction n as [|n IH]; intros s; simpl; [reflexivity|].
  destruct s as [|c s]; [now destruct m|apply IH].
Qed.

(** X24: for a text of at least ten characters, [shortAddr] returns its
    first six characters, three dots and its last four characters. *)
Theorem shortAddr_keeps_ends a :
  10 <= String.length a ->
  exists head middle tail,
    a = (head ++ middle ++ tail)%string /\
    String.length head = 6 /\ String.length tail = 4 /\
    shortAddr a = (head ++ "..." ++ tail)%string.
Proof.
  intros Hlen.
  exists (slice_to 6 a), (slice_to (String.length a - 10) (slice_from 6 a)), (slice_end 4 a).
  assert (Ht : slice_end 4 a = slice_from (String.length a - 10) (slice_from 6 a)).
  { unfold slice_end. rewrite <- slice_from_add. f_equal. lia. }
  repeat split.
  - now rewrite Ht, slice_to_from, slice_to_from.
  - rewrite slice_to_length. lia.
  - unfold slice_end. rewrite slice_from_length. lia.
  - unfold shortAddr. destruct a as [|c a]; [simpl in Hlen; lia|reflexivity].
Qed.

Lemma shortAddr_keeps_ends_witness :
  exists head middle tail,
    REPUTATION_REGISTRY = (head ++ middle ++ tail)%string /\
    String.length head = 6 /\ String.length tail = 4 /\
    shortAddr REPUTATION_REGISTRY = (head ++ "..." ++ tail)%string.
Proof. apply shortAddr_keeps_ends. vm_compute. repeat constructor. Defined.

(** ** The charts *)

Lemma increment_get sts k k' :
  k <> k' -> Map_get (increment sts k) k' = Map_get sts k'.
Proof. intros H. unfold increment. now apply Map_get_set_ne. Qed.

Lemma tally_keeps_zero sts status k :
  k <> "other" ->
  Map_get sts k = Some 0%float ->
  Map_get (tally sts status) k = Some 0%float.
Proof.
  intros Hk H0. unfold tally.
  destruct (Map_get sts status) as [n|] eqn:E.
  - destruct (truthy_number n) eqn:T.
    + rewrite increment_get; [exact H0|]. intros ->. rewrite H0 in E.
      injection E as <-. discriminate T.
    + rewrite increment_get; [exact H0|congruence].
  - destruct (mem status Object_prototype).
    + destruct (status =? "__proto__"); [exact H0|].
      rewrite increment_get; [exact H0|congruence].
    + rewrite increment_get; [exact H0|congruence].
Qed.

Lemma tally_loop_keeps_zero statuses sts k :
  k <> "other" ->
  Map_get sts k = Some 0%float ->
  Map_get (fold_left tally statuses sts) k = Some 0%float.
Proof.
  intros Hk. revert sts. induction statuses as [|s l IH]; intros sts H0; simpl; [exact H0|].
  apply IH. now apply tally_keeps_zero.
Qed.

Lemma statusTally_flat agents :
  statusTally agents =
  fold_left tally (map h_status (flat_map history agents)) emptyTally.
Proof.
  unfold statusTally. generalize emptyTally.
  induction agents as [|a l IH]; intros sts; simpl; [reflexivity|].
  rewrite IH, map_app, fold_left_app. f_equal.
  generalize sts. induction (history a) as [|h hs IHh]; intros sts'; simpl; [reflexivity|].
  apply IHh.
Qed.

Lemma tally_plain n status :
  mem status Object_prototype = false ->
  tally [("completed", 0%float); ("claimed", 0%float); ("submitted", 0%float);
         ("other", count_number n)] status =
  [("completed", 0%float); ("claimed", 0%float); ("submitted", 0%float);
   ("other", count_number (S n))].
Proof.
  intros Hp. unfold tally. cbn [Map_get].
  destruct (String.eqb_spec "completed" status) as [<-|H1]; [reflexivity|].
  destruct (String.eqb_spec "claimed" status) as [<-|H2]; [reflexivity|].
  destruct (String.eqb_spec "submitted" status) as [<-|H3]; [reflexivity|].
  destruct (String.eqb_spec "other" status) as [<-|H4].
  - now destruct (truthy_number (count_number n)).
  - now rewrite Hp.
Qed.

Lemma tally_loop_plain statuses n :
  (forall s, In s statuses -> mem s Object_prototype = false) ->
  fold_left tally statuses
    [("completed", 0%float); ("claimed", 0%float); ("submitted", 0%float);
     ("other", count_number n)] =
  [("completed", 0%float); ("claimed", 0%float); ("submitted", 0%float);
   ("other", count_number (n + List.length statuses))].
Proof.
  revert n. induction statuses as [|s l IH]; intros n Hp; simpl.
  - now rewrite Nat.add_0_r.
  - rewrite tally_plain by (apply Hp; now left).
    rewrite IH by (intros x Hx; apply Hp; now right).
    now replace (S n + List.length l) with (n + S (List.length l)) by lia.
Qed.

(** X25: the tally behind the status charts never counts an entry as
    completed, claimed or submitted: these three counters are 0 whatever the
    histories are, since a counter that is 0 is falsy and the entry goes to
    [other]. When no status is the name of a property every object inherits,
    [other] is the number of history entries. *)
Theorem statusTally_counts_other_only agents :
  Map_get (statusTally agents) "completed" = Some 0%float /\
  Map_get (statusTally agents) "claimed" = Some 0%float /\
  Map_get (statusTally agents) "submitted" = Some 0%float /\
  ((forall a h, In a agents -> In h (history a) ->
                mem (h_status h) Object_prototype = false) ->
   Map_get (statusTally agents) "other" =
   Some (count_number (List.length (flat_map history agents)))).
Proof.
  rewrite statusTally_flat.
  repeat split; try (apply tally_loop_keeps_zero; [discriminate|reflexivity]).
  intros Hp. change emptyTally with
    [("completed", 0%float); ("claimed", 0%float); ("submitted", 0%float);
     ("other", count_number 0)].
  rewrite tally_loop_plain.
  - now rewrite length_map.
  - intros s Hs. apply in_map_iff in Hs. destruct Hs as (h & <- & Hh).
    apply in_flat_map in Hh. destruct Hh as (a & Ha & Hh). now apply (Hp a h).
Qed.

Lemma bracketOf_percent n :
  (0 <= n <= 100)%Z -> bracketOf (Number_of_bigint n) = labelOf n.
Proof.
  intros Hn.
  assert (H : forallb (fun k => bracketOf (Number_of_bigint (Z.of_nat k)) =?
                                labelOf (Z.of_nat k)) (seq 0 101) = true)
    by (vm_compute; reflexivity).
  rewrite forallb_forall in H. specialize (H (Z.to_nat n)).
  rewrite Z2Nat.id in H by lia. apply String.eqb_eq. apply H. apply in_seq. lia.
Qed.

Lemma bracketOf_label rate : In (bracketOf rate) (Map_keys emptyBrackets).
Proof.
  unfold bracketOf. simpl.
  destruct (90 <=? rate)%float; [tauto|]. destruct (70 <=? rate)%float; [tauto|].
  destruct (50 <=? rate)%float; [tauto|]. destruct (25 <=? rate)%float; tauto.
Qed.

Lemma mutate_sum (m : Map nat) k :
  In k (Map_keys m) ->
  list_sum (Map_values (Map_mutate m k S)) = S (list_sum (Map_values m)).
Proof.
  induction m as [|[k' v] m IH]; simpl; [tauto|].
  destruct (String.eqb_spec k' k) as [->|Hne]; simpl; [reflexivity|].
  intros [H|H]; [contradiction|]. rewrite (IH H). lia.
Qed.

Lemma successBrackets_loop agents counts :
  Map_keys counts = Map_keys emptyBrackets ->
  Map_keys (fold_left (fun counts a => Map_mutate counts (bracketOf (successRate a)) S)
              agents counts) = Map_keys emptyBrackets /\
  list_sum (Map_values
              (fold_left (fun counts a => Map_mutate counts (bracketOf (successRate a)) S)
                 agents counts)) =
  list_sum (Map_values counts) + List.length agents.
Proof.
  revert counts. induction agents as [|a l IH]; intros counts Hk; simpl.
  - split; [exact Hk|lia].
  - destruct (IH (Map_mutate counts (bracketOf (successRate a)) S)) as [H1 H2].
    + now rewrite Map_keys_mutate.
    + split; [exact H1|]. rewrite H2, mutate_sum; [lia|].
      rewrite Hk. apply bracketOf_label.
Qed.

(** X26: the success-rate chart counts every profile of [aggregateAgents]
    in exactly one bracket, the five counts adding up to the number of
    profiles, and the bracket of a profile is the one whose label holds the
    profile's success rate, an integer from 0 to 100. *)
Theorem successBrackets_match_labels Number bounties onChainData :
  list_sum (Map_values (successBrackets (aggregateAgents Number bounties onChainData))) =
    List.length (aggregateAgents Number bounties onChainData) /\
  forall p, In p (aggregateAgents Number bounties onChainData) ->
    exists n, (0 <= n <= 100)%Z /\ successRate p = Number_of_bigint n /\
              bracketOf (successRate p) = labelOf n.
Proof.
  split.
  - unfold successBrackets.
    now destruct (successBrackets_loop (aggregateAgents Number bounties onChainData)
                    emptyBrackets eq_refl) as [_ ->].
  - intros p Hp. apply aggregate_In in Hp. destruct Hp as [k Hin].
    apply agentsMap_In in Hin.
    destruct (profileAt_rate _ _ _ _ _ Hin) as (q & -> & Hle).
    cbn [withRate successRate].
    destruct (rateOf_integer q Hle) as (n & Hn & ->).
    exists n. split; [exact Hn|]. split; [reflexivity|]. now apply bracketOf_percent.
Qed.
